(** * mini-match: a limit order book and its matching engine

    Shallow embedding of [src/main.cpp] (data types, message types, order
    book, matching engine, command processors) and the properties of the
    specification that were checked against it, followed by further
    properties of the code.  The threaded variant of [main]
    ([QueueingCommandProcessor] over a [ThreadsafeQueue]) is embedded as
    the interleavings of the steps of its two threads.

    Conventions of the embedding.
    - [Price] and [Qty] wrap a [std::uint64_t]; they are integers of [Z]
      in the range [0, 2^64) and the arithmetic of [Qty] is written with
      its wrap-around ([wrap64]).  The [assert] in front of a subtraction
      is kept as the predicate [Qty.sub_pre]; the functions themselves
      follow the build in which [assert] is compiled out ([NDEBUG]), where
      a subtraction wraps around like an addition does.
    - A [Level::Set] is a [std::set<Level, Level::CompareLevel>]: the
      sequence of its elements in iteration order, which [CompareLevel]
      makes the order of decreasing price, for the buy side and for the
      sell side alike.
    - Pointers and iterators into the book are modelled by what they
      designate.  A [Level *] is the pair of the set that holds the level
      and of the level's price ([LevelPtr]); an [Order::Queue::iterator] is
      the level of the node together with the order id the node carries
      (ids are unique in the book: [Book::add] refuses a live id).
      [Order::level_] and the iterator stored in [orders_by_id_] are
      assigned together by [Level::add] and by [Book::modify], so one
      [LevelPtr] stands for both. *)

From Stdlib Require Import ZArith Ascii String DecimalString DecimalN.
From stdpp Require Import gmap strings list sorting.

Local Open Scope Z_scope.

(** ** 1. Data types *)

Inductive Side := Buy | Sell | SideInvalid.
Inductive TIF := GFD | IOC | TIFInvalid.

#[global] Instance Side_eq_dec : EqDecision Side.
Proof. solve_decision. Defined.
#[global] Instance TIF_eq_dec : EqDecision TIF.
Proof. solve_decision. Defined.

(** [std::uint64_t] *)
Definition UINT64_MAX : Z := 2 ^ 64 - 1.
Definition wrap64 (z : Z) : Z := z mod 2 ^ 64.
Definition is_uint64 (z : Z) : Prop := 0 <= z <= UINT64_MAX.

Definition Price := Z.
Definition OrderID := string.

Module Qty.
Definition t := Z.
Definition is_zero (q : t) : bool := q =? 0.
(** [operator+=] *)
Definition add (lhs rhs : t) : t := wrap64 (lhs + rhs).
(** the [assert(value_ >= rhs.value_)] of [operator-=] *)
Definition sub_pre (lhs rhs : t) : Prop := rhs <= lhs.
(** [operator-=] *)
Definition sub (lhs rhs : t) : t := wrap64 (lhs - rhs).
End Qty.

(** ** 2. Message types *)

(** [BuyOrder] and [SellOrder] have the same fields (the [AddOrder_T] of
    [MatchingEngine::handle_add]). *)
Record AddOrder := mkAddOrder {
  add_tif : TIF;
  add_price : Price;
  add_qty : Qty.t;
  add_order_id : OrderID
}.

Record CancelOrder := mkCancelOrder { cancel_order_id : OrderID }.

Record ModifyOrder := mkModifyOrder {
  modify_order_id : OrderID;
  modify_side : Side;
  modify_price : Price;
  modify_qty : Qty.t
}.

Definition string_empty (s : string) : bool :=
  match s with EmptyString => true | _ => false end.

Module AddOrder.
Definition is_invalid (msg : AddOrder) : bool :=
  bool_decide (add_tif msg = TIFInvalid)
  || (add_price msg =? 0)
  || Qty.is_zero (add_qty msg)
  || string_empty (add_order_id msg).
Definition is_valid (msg : AddOrder) : bool := negb (is_invalid msg).
End AddOrder.

Module CancelOrder.
Definition is_invalid (msg : CancelOrder) : bool :=
  string_empty (cancel_order_id msg).
Definition is_valid (msg : CancelOrder) : bool := negb (is_invalid msg).
End CancelOrder.

Module ModifyOrder.
Definition is_invalid (msg : ModifyOrder) : bool :=
  string_empty (modify_order_id msg)
  || bool_decide (modify_side msg = SideInvalid)
  || (modify_price msg =? 0)
  || Qty.is_zero (modify_qty msg).
Definition is_valid (msg : ModifyOrder) : bool := negb (is_invalid msg).
End ModifyOrder.

(** ** 3. Order book *)

(** The two [Level::Set] members of a [Book]. *)
Inductive SetRef := BuyLevels | SellLevels.

#[global] Instance SetRef_eq_dec : EqDecision SetRef.
Proof. solve_decision. Defined.

Record LevelPtr := mkLevelPtr { ptr_levels : SetRef; ptr_price : Price }.

#[global] Instance LevelPtr_eq_dec : EqDecision LevelPtr.
Proof. solve_decision. Defined.

Record Order := mkOrder { order_id : OrderID; order_qty : Qty.t }.

Record Level := mkLevel {
  level_qty : Qty.t;
  level_price : Price;
  level_orders : list Order
}.

(** A [Trade]; [passive_level] is the [level_] (and [iterator_]) that the
    copy [passive_order] of the resting order carries. *)
Record Trade := mkTrade {
  passive_price : Price;
  passive_order : Order;
  passive_level : LevelPtr;
  aggressive_price : Price;
  aggressive_order : Order
}.

Definition Trades := list Trade.

(** Queue helpers: the node of a queue that an iterator designates. *)
Fixpoint find_order (id : OrderID) (q : list Order) : option Order :=
  match q with
  | [] => None
  | o :: q' => if String.eqb id (order_id o) then Some o else find_order id q'
  end.

(** [orders_.erase(order.iterator_)] *)
Fixpoint erase_order (id : OrderID) (q : list Order) : list Order :=
  match q with
  | [] => []
  | o :: q' => if String.eqb id (order_id o) then q' else o :: erase_order id q'
  end.

(** [order.qty(q)] on the node of the queue *)
Fixpoint set_order_qty (id : OrderID) (qty : Qty.t) (q : list Order) : list Order :=
  match q with
  | [] => []
  | o :: q' =>
      if String.eqb id (order_id o) then mkOrder (order_id o) qty :: q'
      else o :: set_order_qty id qty q'
  end.

Module Level.
(** [explicit Level(Price price = Price{})] *)
Definition make (price : Price) : Level := mkLevel 0 price [].

Definition empty (l : Level) : bool :=
  match level_orders l with [] => true | _ => false end.

Definition size (l : Level) : nat := length (level_orders l).

(** [Level::add]: append the order, [qty_ += qty]. *)
Definition add (id : OrderID) (qty : Qty.t) (l : Level) : Level :=
  mkLevel (Qty.add (level_qty l) qty) (level_price l)
          (level_orders l ++ [mkOrder id qty]).

(** [Level::cancel]: [qty_ -= order.qty()], erase the node. *)
Definition cancel (id : OrderID) (l : Level) : Level :=
  match find_order id (level_orders l) with
  | None => l
  | Some order =>
      mkLevel (Qty.sub (level_qty l) (order_qty order)) (level_price l)
              (erase_order id (level_orders l))
  end.

(** [Level::modify_qty]: the order keeps its position. *)
Definition modify_qty (id : OrderID) (qty : Qty.t) (l : Level) : Level :=
  match find_order id (level_orders l) with
  | None => l
  | Some order =>
      mkLevel (Qty.add (Qty.sub (level_qty l) (order_qty order)) qty)
              (level_price l)
              (set_order_qty id qty (level_orders l))
  end.

(** [Level::modify]: [modify_qty], then splice the node to the back. *)
Definition modify (id : OrderID) (qty : Qty.t) (l : Level) : Level :=
  let l1 := modify_qty id qty l in
  match find_order id (level_orders l1) with
  | None => l1
  | Some order =>
      mkLevel (level_qty l1) (level_price l1)
              (erase_order id (level_orders l1) ++ [order])
  end.

(** [CompareLevel]: [lhs > rhs], for decreasing order. *)
Definition CompareLevel (lhs rhs : Price) : bool := lhs >? rhs.
End Level.

(** [std::set<Level, Level::CompareLevel>] as its elements in iteration
    order. *)
Module LevelSet.
Definition t := list Level.

(** [lower_bound(price)]: the range from the first level that does not
    compare before [price]. *)
Fixpoint lower_bound (price : Price) (levels : t) : t :=
  match levels with
  | [] => []
  | l :: ls =>
      if Level.CompareLevel (level_price l) price
      then lower_bound price ls else levels
  end.

(** The level at [price], if any: [lower_bound], then the test
    [level_iter == end or level_iter->price() != price]. *)
Definition find (price : Price) (levels : t) : option Level :=
  match lower_bound price levels with
  | [] => None
  | l :: _ => if level_price l =? price then Some l else None
  end.

(** [emplace_hint(level_iter, price)]: a set keeps one level per price
    and keeps its order. *)
Fixpoint emplace (price : Price) (levels : t) : t :=
  match levels with
  | [] => [Level.make price]
  | l :: ls =>
      if Level.CompareLevel (level_price l) price then l :: emplace price ls
      else if Level.CompareLevel price (level_price l)
           then Level.make price :: levels
           else levels
  end.

(** Assignment to the level an iterator designates (the [const_cast]). *)
Fixpoint update (price : Price) (f : Level -> Level) (levels : t) : t :=
  match levels with
  | [] => []
  | l :: ls =>
      if level_price l =? price then f l :: ls
      else l :: update price f ls
  end.

(** [erase(level.iterator_)] *)
Fixpoint erase (price : Price) (levels : t) : t :=
  match levels with
  | [] => []
  | l :: ls =>
      if level_price l =? price then ls else l :: erase price ls
  end.
End LevelSet.

Record Book := mkBook {
  buy_levels_ : LevelSet.t;
  sell_levels_ : LevelSet.t;
  orders_by_id_ : gmap OrderID LevelPtr
}.

Module Book.
Definition empty : Book := mkBook [] [] ∅.

Definition levels (s : SetRef) (b : Book) : LevelSet.t :=
  match s with BuyLevels => buy_levels_ b | SellLevels => sell_levels_ b end.

Definition set_levels (s : SetRef) (ls : LevelSet.t) (b : Book) : Book :=
  match s with
  | BuyLevels => mkBook ls (sell_levels_ b) (orders_by_id_ b)
  | SellLevels => mkBook (buy_levels_ b) ls (orders_by_id_ b)
  end.

Definition set_orders_by_id (m : gmap OrderID LevelPtr) (b : Book) : Book :=
  mkBook (buy_levels_ b) (sell_levels_ b) m.

(** The level a [Level *] points to. *)
Definition deref (p : LevelPtr) (b : Book) : option Level :=
  LevelSet.find (ptr_price p) (levels (ptr_levels p) b).

(** A member function called through a [Level *]. *)
Definition with_level (p : LevelPtr) (f : Level -> Level) (b : Book) : Book :=
  set_levels (ptr_levels p)
    (LevelSet.update (ptr_price p) f (levels (ptr_levels p) b)) b.

(** [if (level.empty()) levels.erase(level.iterator_)] *)
Definition erase_if_empty (p : LevelPtr) (b : Book) : Book :=
  match deref p b with
  | Some l =>
      if Level.empty l
      then set_levels (ptr_levels p)
             (LevelSet.erase (ptr_price p) (levels (ptr_levels p) b)) b
      else b
  | None => b
  end.

(** [Book::add(order_id, qty, price, levels)] *)
Definition add_to (id : OrderID) (qty : Qty.t) (price : Price)
    (s : SetRef) (b : Book) : Book :=
  match orders_by_id_ b !! id with
  | Some _ => b
  | None =>
      let p := mkLevelPtr s price in
      let b1 := set_levels s (LevelSet.emplace price (levels s b)) b in
      let b2 := with_level p (Level.add id qty) b1 in
      set_orders_by_id (<[id := p]> (orders_by_id_ b2)) b2
  end.

(** [Book::add(side, order_id, qty, price)] *)
Definition add (side : Side) (id : OrderID) (qty : Qty.t) (price : Price)
    (b : Book) : Book :=
  match side with
  | Buy => add_to id qty price BuyLevels b
  | Sell => add_to id qty price SellLevels b
  | SideInvalid => b
  end.

(** [Book::cancel(order_id)] *)
Definition cancel (id : OrderID) (b : Book) : Book :=
  match orders_by_id_ b !! id with
  | None => b
  | Some p =>
      let b1 := with_level p (Level.cancel id) b in
      let b2 := erase_if_empty p b1 in
      set_orders_by_id (delete id (orders_by_id_ b2)) b2
  end.

(** [Book::modify(order_id, qty, price, levels)], in the variant that is
    compiled ([USE_CANCEL_ADD_FOR_MODIFY] is not defined): a new side or
    price moves the node with [list::splice]. *)
Definition modify_in (id : OrderID) (qty : Qty.t) (price : Price)
    (s : SetRef) (b : Book) : Book :=
  match orders_by_id_ b !! id with
  | None => b
  | Some p =>
      match deref p b with
      | None => b
      | Some level =>
          match find_order id (level_orders level) with
          | None => b
          | Some order =>
              if bool_decide (ptr_levels p = s) && (level_price level =? price)
              then
                if qty =? order_qty order then b
                else with_level p (Level.modify id qty) b
              else
                let np := mkLevelPtr s price in
                let b1 := set_levels s (LevelSet.emplace price (levels s b)) b in
                (* splice the node to the end of the new level *)
                let b2 :=
                  with_level np (fun nl =>
                    mkLevel (Qty.add (level_qty nl) qty) (level_price nl)
                            (level_orders nl ++ [mkOrder id qty])) b1 in
                let b3 :=
                  with_level p (fun l =>
                    mkLevel (level_qty l) (level_price l)
                            (erase_order id (level_orders l))) b2 in
                (* update the old level, removing it if empty; the quantity
                   taken off is the one the order had before [order.qty_ = qty] *)
                let b4 :=
                  match deref p b3 with
                  | Some l =>
                      if Level.empty l
                      then set_levels (ptr_levels p)
                             (LevelSet.erase (ptr_price p)
                                (levels (ptr_levels p) b3)) b3
                      else with_level p (fun l =>
                             mkLevel (Qty.sub (level_qty l) (order_qty order))
                                     (level_price l) (level_orders l)) b3
                  | None => b3
                  end in
                (* [order.level_ = &new_level]: the iterator of the index now
                   designates a node of the new level *)
                set_orders_by_id (<[id := np]> (orders_by_id_ b4)) b4
          end
      end
  end.

(** [Book::modify(side, order_id, qty, price)] *)
Definition modify (side : Side) (id : OrderID) (qty : Qty.t) (price : Price)
    (b : Book) : Book :=
  match side with
  | Buy => modify_in id qty price BuyLevels b
  | Sell => modify_in id qty price SellLevels b
  | SideInvalid => b
  end.

(** [Book::clear] *)
Definition clear (b : Book) : Book := empty.

(** The inner loop of the [match] template, over the queue of one
    level.  The flag tells that the function returned from inside the
    loop ([leaves_qty] became zero). *)
Fixpoint match_queue (id : OrderID) (price : Price) (lp : LevelPtr)
    (queue : list Order) (leaves_qty : Qty.t) (trades : Trades)
    : Qty.t * Trades * bool :=
  match queue with
  | [] => (leaves_qty, trades, false)
  | order :: rest =>
      if String.eqb id (order_id order)
      then match_queue id price lp rest leaves_qty trades
      else
        let matched_qty := Z.min leaves_qty (order_qty order) in
        let trades' :=
          trades ++ [mkTrade (ptr_price lp) order lp price
                             (mkOrder id matched_qty)] in
        let leaves' := Qty.sub leaves_qty matched_qty in
        if Qty.is_zero leaves' then (leaves', trades', true)
        else match_queue id price lp rest leaves' trades'
  end.

(** The [match] template over a range of levels of the set [s]. *)
Fixpoint match_range (id : OrderID) (price : Price) (s : SetRef)
    (match_predicate : Price -> Price -> bool)
    (range : list Level) (leaves_qty : Qty.t) (trades : Trades)
    : Qty.t * Trades :=
  match range with
  | [] => (leaves_qty, trades)
  | level :: rest =>
      if negb (match_predicate price (level_price level))
      then (leaves_qty, trades)
      else
        match match_queue id price (mkLevelPtr s (level_price level))
                (level_orders level) leaves_qty trades with
        | (leaves', trades', true) => (leaves', trades')
        | (leaves', trades', false) =>
            match_range id price s match_predicate rest leaves' trades'
        end
  end.

(** The body of the loop of [Book::fill_orders]. *)
Definition fill_order (trade : Trade) (b : Book) : Trade * Book :=
  let leaves_qty :=
    Qty.sub (order_qty (passive_order trade))
            (order_qty (aggressive_order trade)) in
  if Qty.is_zero leaves_qty
  then (trade, cancel (order_id (passive_order trade)) b)
  else
    (mkTrade (passive_price trade)
             (mkOrder (order_id (passive_order trade))
                      (order_qty (aggressive_order trade)))
             (passive_level trade)
             (aggressive_price trade) (aggressive_order trade),
     with_level (passive_level trade)
       (Level.modify_qty (order_id (passive_order trade)) leaves_qty) b).

(** [Book::fill_orders] *)
Fixpoint fill_orders (trades : Trades) (b : Book) : Trades * Book :=
  match trades with
  | [] => ([], b)
  | trade :: rest =>
      let '(trade', b1) := fill_order trade b in
      let '(rest', b2) := fill_orders rest b1 in
      (trade' :: rest', b2)
  end.

(** The [switch] of [Book::match(side, order_id, qty, price, trades)]:
    the walk over the opposite side, which only writes trades. *)
Definition match_side (side : Side) (id : OrderID) (qty : Qty.t)
    (price : Price) (trades : Trades) (b : Book) : Qty.t * Trades :=
  match side with
  | Buy =>
      (* sells are in decreasing order: iterate in reverse *)
      match_range id price SellLevels
        (fun order_price level_price => order_price >=? level_price)
        (reverse (sell_levels_ b)) qty trades
  | Sell =>
      match_range id price BuyLevels
        (fun order_price level_price => order_price <=? level_price)
        (buy_levels_ b) qty trades
  | SideInvalid => (qty, trades)
  end.

(** [Book::match]: the walk, then [fill_orders]; the result is
    [leaves_qty], the trade buffer and the book. *)
Definition match_ (side : Side) (id : OrderID) (qty : Qty.t) (price : Price)
    (trades : Trades) (b : Book) : Qty.t * Trades * Book :=
  let '(leaves_qty, trades1) := match_side side id qty price trades b in
  let '(trades2, b') := fill_orders trades1 b in
  (leaves_qty, trades2, b').
End Book.

(** ** 4. Matching engine *)

Record MatchingEngine := mkEngine { book_ : Book; trades_ : Trades }.

Module MatchingEngine.
Definition make (book : Book) : MatchingEngine := mkEngine book [].

(** [MatchingEngine::handle_add] *)
Definition handle_add (side : Side) (msg : AddOrder) (e : MatchingEngine)
    : MatchingEngine :=
  let '(leaves_qty, trades, b) :=
    Book.match_ side (add_order_id msg) (add_qty msg) (add_price msg) []
      (book_ e) in
  if Qty.is_zero leaves_qty then mkEngine b trades
  else
    match add_tif msg with
    | GFD =>
        mkEngine (Book.add side (add_order_id msg) leaves_qty (add_price msg) b)
                 trades
    | IOC => mkEngine b trades
    | TIFInvalid => mkEngine b trades
    end.

Definition handle_buy (msg : AddOrder) := handle_add Buy msg.
Definition handle_sell (msg : AddOrder) := handle_add Sell msg.

(** [MatchingEngine::handle(CancelOrder)] *)
Definition handle_cancel (msg : CancelOrder) (e : MatchingEngine)
    : MatchingEngine :=
  mkEngine (Book.cancel (cancel_order_id msg) (book_ e)) (trades_ e).

(** [MatchingEngine::handle(ModifyOrder)] *)
Definition handle_modify (msg : ModifyOrder) (e : MatchingEngine)
    : MatchingEngine :=
  let '(leaves_qty, trades, b) :=
    Book.match_ (modify_side msg) (modify_order_id msg) (modify_qty msg)
      (modify_price msg) [] (book_ e) in
  if Qty.is_zero leaves_qty
  then mkEngine (Book.cancel (modify_order_id msg) b) trades
  else
    mkEngine (Book.modify (modify_side msg) (modify_order_id msg) leaves_qty
                (modify_price msg) b) trades.

(** [MatchingEngine::handle(ClearBook)] *)
Definition handle_clear (e : MatchingEngine) : MatchingEngine :=
  mkEngine (Book.clear (book_ e)) (trades_ e).
End MatchingEngine.

(** ** Output *)

Definition nl : string := String (ascii_of_nat 10) EmptyString.
Definition sp : string := " "%string.

(** [os << value] for a [std::uint64_t]. *)
Definition write_uint64 (z : Z) : string :=
  NilZero.string_of_uint (N.to_uint (Z.to_N z)).

(** [operator<<(std::ostream &, Level const &)] *)
Definition write_level (l : Level) : string :=
  (write_uint64 (level_price l) ++ sp ++ write_uint64 (level_qty l))%string.

Fixpoint write_levels (levels : list Level) : string :=
  match levels with
  | [] => EmptyString
  | l :: ls => (write_level l ++ nl ++ write_levels ls)%string
  end.

(** [operator<<(std::ostream &, Book const &)] *)
Definition write_book (b : Book) : string :=
  ("SELL:" ++ nl ++ write_levels (sell_levels_ b)
   ++ "BUY:" ++ nl ++ write_levels (buy_levels_ b))%string.

(** [operator<<(std::ostream &, Trade const &)] *)
Definition write_trade (t : Trade) : string :=
  ("TRADE " ++ order_id (passive_order t)
   ++ sp ++ write_uint64 (passive_price t)
   ++ sp ++ write_uint64 (order_qty (passive_order t))
   ++ sp ++ order_id (aggressive_order t)
   ++ sp ++ write_uint64 (aggressive_price t)
   ++ sp ++ write_uint64 (order_qty (aggressive_order t)))%string.

(** [operator<<(std::ostream &, Trades const &)] *)
Fixpoint write_trades (ts : Trades) : string :=
  match ts with
  | [] => EmptyString
  | t :: ts' => (write_trade t ++ nl ++ write_trades ts')%string
  end.

(** ** Input stream

    A [std::istream] is the characters still to be read and its
    [failbit].  The program never clears the state of its stream, so once
    an extraction has failed every later one fails too. *)

Record istream := mkIstream { buf : string; failbit : bool }.

Definition isspace (c : ascii) : bool :=
  let n := N_of_ascii c in
  ((n =? 32) || ((9 <=? n) && (n <=? 13)))%N.

Definition isdigit (c : ascii) : bool :=
  let n := N_of_ascii c in ((48 <=? n) && (n <=? 57))%N.

Definition digit_value (c : ascii) : Z := Z.of_N (N_of_ascii c) - 48.

Fixpoint skipws (s : string) : string :=
  match s with
  | String c s' => if isspace c then skipws s' else s
  | EmptyString => s
  end.

Fixpoint read_word (s : string) : string * string :=
  match s with
  | String c s' =>
      if isspace c then (EmptyString, s)
      else let '(w, rest) := read_word s' in (String c w, rest)
  | EmptyString => (EmptyString, s)
  end.

Fixpoint read_digits (s : string) (acc : Z) : Z * string :=
  match s with
  | String c s' =>
      if isdigit c then read_digits s' (acc * 10 + digit_value c) else (acc, s)
  | EmptyString => (acc, s)
  end.

(** [is >> str]: [None] when nothing is extracted (the target keeps its
    value and the stream fails). *)
Definition get_string (ins : istream) : option string * istream :=
  if failbit ins then (None, ins)
  else
    match skipws (buf ins) with
    | EmptyString => (None, mkIstream EmptyString true)
    | s => let '(w, rest) := read_word s in (Some w, mkIstream rest false)
    end.

(** [is >> value] for a [std::uint64_t] that was value-initialised: an
    optional sign, then decimal digits; zero when the field does not
    parse, the largest value when it is out of range, and [failbit] in both
    cases. *)
Definition get_uint64 (ins : istream) : Z * istream :=
  if failbit ins then (0, ins)
  else
    let s := skipws (buf ins) in
    let '(negative, s1) :=
      match s with
      | String c s' =>
          if Ascii.eqb c "-" then (true, s')
          else if Ascii.eqb c "+" then (false, s') else (false, s)
      | EmptyString => (false, s)
      end in
    match s1 with
    | String c _ =>
        if isdigit c then
          let '(v, rest) := read_digits s1 0 in
          if v >? UINT64_MAX then (UINT64_MAX, mkIstream rest true)
          else ((if negative : bool then wrap64 (- v) else v),
                mkIstream rest false)
        else (0, mkIstream s1 true)
    | EmptyString => (0, mkIstream s1 true)
    end.

(** [operator>>(std::istream &, Side &)].  When the extraction fails the
    source compares the token of an earlier call; the fields read after
    it then fail too and leave a zero price, so the message is invalid
    whichever side comes out, and the model answers [SideInvalid]. *)
Definition get_side (ins : istream) : Side * istream :=
  match get_string ins with
  | (Some str, ins') =>
      (if String.eqb str "BUY" then Buy
       else if String.eqb str "SELL" then Sell else SideInvalid, ins')
  | (None, ins') => (SideInvalid, ins')
  end.

(** [operator>>(std::istream &, TIF &)], with the same remark. *)
Definition get_tif (ins : istream) : TIF * istream :=
  match get_string ins with
  | (Some str, ins') =>
      (if String.eqb str "GFD" then GFD
       else if String.eqb str "IOC" then IOC else TIFInvalid, ins')
  | (None, ins') => (TIFInvalid, ins')
  end.

(** [operator>>(std::istream &, OrderID &)] into a fresh message. *)
Definition get_order_id (ins : istream) : OrderID * istream :=
  match get_string ins with
  | (Some str, ins') => (str, ins')
  | (None, ins') => (EmptyString, ins')
  end.

(** [operator>>] of [BuyOrder] and [SellOrder] *)
Definition get_add_order (ins : istream) : AddOrder * istream :=
  let '(tif, ins1) := get_tif ins in
  let '(price, ins2) := get_uint64 ins1 in
  let '(qty, ins3) := get_uint64 ins2 in
  let '(id, ins4) := get_order_id ins3 in
  (mkAddOrder tif price qty id, ins4).

Definition get_cancel_order (ins : istream) : CancelOrder * istream :=
  let '(id, ins1) := get_order_id ins in (mkCancelOrder id, ins1).

Definition get_modify_order (ins : istream) : ModifyOrder * istream :=
  let '(id, ins1) := get_order_id ins in
  let '(side, ins2) := get_side ins1 in
  let '(price, ins3) := get_uint64 ins2 in
  let '(qty, ins4) := get_uint64 ins3 in
  (mkModifyOrder id side price qty, ins4).

(** ** 5. Command processor *)

Record CommandProcessor := mkProcessor {
  matching_engine_ : MatchingEngine;
  os_ : string
}.

Inductive Msg :=
| MsgBuy (msg : AddOrder)
| MsgSell (msg : AddOrder)
| MsgCancel (msg : CancelOrder)
| MsgModify (msg : ModifyOrder)
| MsgPrint
| MsgClear.

Module Msg.
Definition is_invalid (m : Msg) : bool :=
  match m with
  | MsgBuy msg | MsgSell msg => AddOrder.is_invalid msg
  | MsgCancel msg => CancelOrder.is_invalid msg
  | MsgModify msg => ModifyOrder.is_invalid msg
  | MsgPrint | MsgClear => false
  end.
Definition is_valid (m : Msg) : bool := negb (is_invalid m).
End Msg.

Module CommandProcessor.
Definition make (e : MatchingEngine) : CommandProcessor :=
  mkProcessor e EmptyString.

(** The handlers of the derived class [CommandProcessor]. *)
Definition handle_msg (m : Msg) (cp : CommandProcessor) : CommandProcessor :=
  match m with
  | MsgBuy msg =>
      let e := MatchingEngine.handle_buy msg (matching_engine_ cp) in
      mkProcessor e (os_ cp ++ write_trades (trades_ e))
  | MsgSell msg =>
      let e := MatchingEngine.handle_sell msg (matching_engine_ cp) in
      mkProcessor e (os_ cp ++ write_trades (trades_ e))
  | MsgCancel msg =>
      mkProcessor (MatchingEngine.handle_cancel msg (matching_engine_ cp))
                  (os_ cp)
  | MsgModify msg =>
      let e := MatchingEngine.handle_modify msg (matching_engine_ cp) in
      mkProcessor e (os_ cp ++ write_trades (trades_ e))
  | MsgPrint =>
      mkProcessor (matching_engine_ cp)
                  (os_ cp ++ write_book (book_ (matching_engine_ cp)))
  | MsgClear =>
      mkProcessor (MatchingEngine.handle_clear (matching_engine_ cp))
                  (os_ cp)
  end.

(** [cmd_to_handler_] with [is >> msg] of the handler found: [None] for
    an unknown command. *)
Definition decode (cmd : string) (ins : istream) : option (Msg * istream) :=
  if String.eqb cmd "BUY" then
    let '(msg, ins') := get_add_order ins in Some (MsgBuy msg, ins')
  else if String.eqb cmd "SELL" then
    let '(msg, ins') := get_add_order ins in Some (MsgSell msg, ins')
  else if String.eqb cmd "CANCEL" then
    let '(msg, ins') := get_cancel_order ins in Some (MsgCancel msg, ins')
  else if String.eqb cmd "MODIFY" then
    let '(msg, ins') := get_modify_order ins in Some (MsgModify msg, ins')
  else if String.eqb cmd "PRINT" then Some (MsgPrint, ins)
  else if String.eqb cmd "CLEAR" then Some (MsgClear, ins)
  else None.

(** [handle(cmd, is)] inside the [try] of [run]: both exceptions
    (unknown command, invalid message) are caught there and leave the
    processor as it was. *)
Definition handle (cmd : string) (ins : istream) (cp : CommandProcessor)
    : istream * CommandProcessor :=
  match decode cmd ins with
  | None => (ins, cp)
  | Some (m, ins') =>
      if Msg.is_invalid m then (ins', cp) else (ins', handle_msg m cp)
  end.

(** The loop [while (is >> cmd)] of [run], by the number of iterations
    allowed. *)
Fixpoint run_loop (fuel : nat) (ins : istream) (cp : CommandProcessor)
    : istream * CommandProcessor :=
  match fuel with
  | O => (ins, cp)
  | S fuel' =>
      match get_string ins with
      | (None, ins') => (ins', cp)
      | (Some cmd, ins1) =>
          let '(ins2, cp') := handle cmd ins1 cp in
          run_loop fuel' ins2 cp'
      end
  end.

(** [CommandProcessor_T::run]: every iteration reads at least one
    character, so the length of the input bounds the iterations. *)
Definition run (ins : istream) (cp : CommandProcessor)
    : istream * CommandProcessor :=
  run_loop (S (String.length (buf ins))) ins cp.
End CommandProcessor.

(** ** Normalized messages

    The [operator<<] of the data types and of the message types, and
    [CommandWriter], the command processor that writes every message it
    is given back as one line. *)

(** [operator<<(std::ostream &, Side)] *)
Definition write_side (side : Side) : string :=
  match side with
  | Buy => "BUY"
  | Sell => "SELL"
  | SideInvalid => "INVALID"
  end%string.

(** [operator<<(std::ostream &, TIF)] *)
Definition write_tif (tif : TIF) : string :=
  match tif with
  | GFD => "GFD"
  | IOC => "IOC"
  | TIFInvalid => "INVALID"
  end%string.

(** [operator<<] of [BuyOrder] and of [SellOrder], which differ by the
    command word. *)
Definition write_add_order (cmd : string) (msg : AddOrder) : string :=
  (cmd ++ sp ++ write_tif (add_tif msg)
   ++ sp ++ write_uint64 (add_price msg)
   ++ sp ++ write_uint64 (add_qty msg)
   ++ sp ++ add_order_id msg)%string.

Definition write_buy_order : AddOrder -> string := write_add_order "BUY".
Definition write_sell_order : AddOrder -> string := write_add_order "SELL".

(** [operator<<(std::ostream &, CancelOrder const &)] *)
Definition write_cancel_order (msg : CancelOrder) : string :=
  ("CANCEL" ++ sp ++ cancel_order_id msg)%string.

(** [operator<<(std::ostream &, ModifyOrder const &)] *)
Definition write_modify_order (msg : ModifyOrder) : string :=
  ("MODIFY" ++ sp ++ modify_order_id msg
   ++ sp ++ write_side (modify_side msg)
   ++ sp ++ write_uint64 (modify_price msg)
   ++ sp ++ write_uint64 (modify_qty msg))%string.

(** [os << msg] for the message types; [PrintBook] and [ClearBook] write
    their command word. *)
Definition write_msg (m : Msg) : string :=
  match m with
  | MsgBuy msg => write_buy_order msg
  | MsgSell msg => write_sell_order msg
  | MsgCancel msg => write_cancel_order msg
  | MsgModify msg => write_modify_order msg
  | MsgPrint => "PRINT"%string
  | MsgClear => "CLEAR"%string
  end.

(** [CommandWriter], whose only state is its output stream: the same
    [run] and [handle(cmd, is)] of [CommandProcessor_T], with the one
    handler [os_ << msg << std::endl] for every message type. *)
Module CommandWriter.
Definition handle_msg (m : Msg) (os : string) : string :=
  (os ++ write_msg m ++ nl)%string.

Definition handle (cmd : string) (ins : istream) (os : string)
    : istream * string :=
  match CommandProcessor.decode cmd ins with
  | None => (ins, os)
  | Some (m, ins') =>
      if Msg.is_invalid m then (ins', os) else (ins', handle_msg m os)
  end.

Fixpoint run_loop (fuel : nat) (ins : istream) (os : string)
    : istream * string :=
  match fuel with
  | O => (ins, os)
  | S fuel' =>
      match get_string ins with
      | (None, ins') => (ins', os)
      | (Some cmd, ins1) =>
          let '(ins2, os') := handle cmd ins1 os in
          run_loop fuel' ins2 os'
      end
  end.

Definition run (ins : istream) (os : string) : istream * string :=
  run_loop (S (String.length (buf ins))) ins os.
End CommandWriter.

(** What [CommandWriter] writes for an input. *)
Definition normalize (input : string) : string :=
  snd (CommandWriter.run (mkIstream input false) EmptyString).

(** ** The threads of [--run-threads]

    [main] then runs [QueueingCommandProcessor::run] over [std::cin] in
    a producer thread, which stores [is_producer_done] when [run]
    returns, and a consumer thread that executes the queued tasks.

    The producer alone reads the stream, the tasks alone use the
    matching engine and [std::cout], and the two threads share the task
    queue, whose operations hold its mutex, and the atomic flag.  So an
    execution is an interleaving of the steps below: an iteration of the
    loop of [run] and the store of the flag for the producer; a test of
    the flag, a [wait_and_pop] or a [try_pop], each with the call of the
    task it returns, for the consumer. *)

(** A [Task]: the closure a handler of [QueueingCommandProcessor]
    pushes. *)
Definition Task := CommandProcessor -> CommandProcessor.

Module ThreadsafeQueue.
Definition t := list Task.

(** [push]: [queue_.push_back] *)
Definition push (value : Task) (queue : t) : t := queue ++ [value].

(** [try_pop]; [wait_and_pop] returns the same once the queue is not
    empty, and blocks while it is. *)
Definition try_pop (queue : t) : option (Task * t) :=
  match queue with
  | [] => None
  | value :: queue' => Some (value, queue')
  end.
End ThreadsafeQueue.

Module QueueingCommandProcessor.
(** The closures of the handlers. *)
Definition task (m : Msg) : Task :=
  fun cp =>
    match m with
    | MsgBuy msg =>
        let e := MatchingEngine.handle_buy msg (matching_engine_ cp) in
        mkProcessor e (os_ cp ++ write_trades (trades_ e))
    | MsgSell msg =>
        let e := MatchingEngine.handle_sell msg (matching_engine_ cp) in
        mkProcessor e (os_ cp ++ write_trades (trades_ e))
    | MsgCancel msg =>
        mkProcessor (MatchingEngine.handle_cancel msg (matching_engine_ cp))
                    (os_ cp)
    | MsgModify msg =>
        let e := MatchingEngine.handle_modify msg (matching_engine_ cp) in
        mkProcessor e (os_ cp ++ write_trades (trades_ e))
    | MsgPrint =>
        mkProcessor (matching_engine_ cp)
                    (os_ cp ++ write_book (book_ (matching_engine_ cp)))
    | MsgClear =>
        mkProcessor (MatchingEngine.handle_clear (matching_engine_ cp))
                    (os_ cp)
    end.

(** The handlers: [task_queue_->push] of the closure. *)
Definition handle_msg (m : Msg) (queue : ThreadsafeQueue.t)
    : ThreadsafeQueue.t :=
  ThreadsafeQueue.push (task m) queue.

(** [handle(cmd, is)] inside the [try] of [run]. *)
Definition handle (cmd : string) (ins : istream) (queue : ThreadsafeQueue.t)
    : istream * ThreadsafeQueue.t :=
  match CommandProcessor.decode cmd ins with
  | None => (ins, queue)
  | Some (m, ins') =>
      if Msg.is_invalid m then (ins', queue) else (ins', handle_msg m queue)
  end.
End QueueingCommandProcessor.

(** Where the producer is: in the loop of [run], between [run] and the
    store of [is_producer_done], or at its end. *)
Inductive ProducerPc := Reading | Storing | ProducerEnd.

(** Where the consumer is: at the test of [while (not is_producer_done)],
    in [wait_and_pop], in the loop [while (task_queue->try_pop(task))],
    or at its end. *)
Inductive ConsumerPc := Testing | Waiting | Draining | ConsumerEnd.

Record Threads := mkThreads {
  cin_ : istream;
  producer_ : ProducerPc;
  task_queue_ : ThreadsafeQueue.t;
  is_producer_done : bool;
  consumer_ : ConsumerPc;
  cmd_processor_ : CommandProcessor
}.

Inductive thread_step : Threads -> Threads -> Prop :=
| producer_handles ins queue done c cp cmd ins1 ins2 queue' :
    get_string ins = (Some cmd, ins1) ->
    QueueingCommandProcessor.handle cmd ins1 queue = (ins2, queue') ->
    thread_step (mkThreads ins Reading queue done c cp)
                (mkThreads ins2 Reading queue' done c cp)
| producer_returns ins queue done c cp ins' :
    get_string ins = (None, ins') ->
    thread_step (mkThreads ins Reading queue done c cp)
                (mkThreads ins' Storing queue done c cp)
| producer_stores ins queue done c cp :
    thread_step (mkThreads ins Storing queue done c cp)
                (mkThreads ins ProducerEnd queue true c cp)
| consumer_tests ins pr queue done cp :
    thread_step (mkThreads ins pr queue done Testing cp)
                (mkThreads ins pr queue done
                   (if done then Draining else Waiting) cp)
| consumer_waits_and_pops ins pr queue done cp task queue' :
    ThreadsafeQueue.try_pop queue = Some (task, queue') ->
    thread_step (mkThreads ins pr queue done Waiting cp)
                (mkThreads ins pr queue' done Testing (task cp))
| consumer_try_pops ins pr queue done cp task queue' :
    ThreadsafeQueue.try_pop queue = Some (task, queue') ->
    thread_step (mkThreads ins pr queue done Draining cp)
                (mkThreads ins pr queue' done Draining (task cp))
| consumer_returns ins pr queue done cp :
    ThreadsafeQueue.try_pop queue = None ->
    thread_step (mkThreads ins pr queue done Draining cp)
                (mkThreads ins pr queue done ConsumerEnd cp).

(** [main] at the start of the two threads. *)
Definition threads_start (input : string) (cp : CommandProcessor) : Threads :=
  mkThreads (mkIstream input false) Reading [] false Testing cp.

(** [run_test] of the unit tests: the output for an input. *)
Definition run_test (input : string) : string :=
  os_ (snd (CommandProcessor.run (mkIstream input false)
              (CommandProcessor.make (MatchingEngine.make Book.empty)))).

(** * The vocabulary of the properties *)

(** ** The invariant of the book *)

(** The order that [CompareLevel] gives a set: strictly decreasing
    prices. *)
Fixpoint sorted_desc (ls : list Level) : Prop :=
  match ls with
  | [] => True
  | l :: ls' =>
      Forall (fun l' => level_price l' < level_price l) ls' /\ sorted_desc ls'
  end.

Definition sorted_book (b : Book) : Prop :=
  forall s, sorted_desc (Book.levels s b).

Definition queue_ids (q : list Order) : list OrderID := order_id <$> q.

Definition level_ids (l : Level) : list OrderID := queue_ids (level_orders l).

Fixpoint sum_qty (q : list Order) : Z :=
  match q with
  | [] => 0
  | o :: q' => order_qty o + sum_qty q'
  end.

(** A quantity that rests in the book: positive, and a [std::uint64_t]. *)
Definition qty_ok (q : Qty.t) : Prop := 0 < q <= UINT64_MAX.

(** A level of the book: its queue is not empty, holds an id once, holds
    positive quantities, and the cached quantity is the sum of the queue
    (in [std::uint64_t]). *)
Record level_ok (l : Level) : Prop := mk_level_ok {
  ok_nonempty : level_orders l <> [];
  ok_nodup : NoDup (level_ids l);
  ok_qty : Forall (fun o => qty_ok (order_qty o)) (level_orders l);
  ok_level_qty : level_qty l = wrap64 (sum_qty (level_orders l))
}.

(** The order [id] rests in the level [p] points to. *)
Definition resting_at (b : Book) (id : OrderID) (p : LevelPtr) : Prop :=
  exists l, Book.deref p b = Some l /\ id ∈ level_ids l.

(** The order with id [x] that rests in the level at [p], if any. *)
Definition order_at (b : Book) (p : LevelPtr) (x : OrderID) : option Order :=
  match Book.deref p b with
  | Some l => find_order x (level_orders l)
  | None => None
  end.

(** No price of the buy side reaches a price of the sell side. *)
Definition uncrossed (b : Book) : Prop :=
  forall pb ps,
    is_Some (Book.deref (mkLevelPtr BuyLevels pb) b) ->
    is_Some (Book.deref (mkLevelPtr SellLevels ps) b) ->
    pb < ps.

(** The invariant: both sets are in their order, every level is well
    formed, the index [orders_by_id_] has exactly the orders that rest in
    the levels, each with the level it rests in, and the book is
    uncrossed. *)
Record book_inv (b : Book) : Prop := mk_book_inv {
  inv_sorted : forall s, sorted_desc (Book.levels s b);
  inv_level : forall p l, Book.deref p b = Some l -> level_ok l;
  inv_index : forall id p, orders_by_id_ b !! id = Some p <-> resting_at b id p;
  inv_uncrossed : uncrossed b
}.

(** [levels.erase(level.iterator_)] *)
Definition erase_level (p : LevelPtr) (b : Book) : Book :=
  Book.set_levels (ptr_levels p)
    (LevelSet.erase (ptr_price p) (Book.levels (ptr_levels p) b)) b.

(** [levels.emplace_hint(level_iter, price)] *)
Definition emplace_level (p : LevelPtr) (b : Book) : Book :=
  Book.set_levels (ptr_levels p)
    (LevelSet.emplace (ptr_price p) (Book.levels (ptr_levels p) b)) b.

(** A level at the price of [np] would not cross the other side. *)
Definition no_cross (np : LevelPtr) (b : Book) : Prop :=
  match ptr_levels np with
  | BuyLevels =>
      forall ps, is_Some (Book.deref (mkLevelPtr SellLevels ps) b) ->
                 ptr_price np < ps
  | SellLevels =>
      forall pb, is_Some (Book.deref (mkLevelPtr BuyLevels pb) b) ->
                 pb < ptr_price np
  end.

(** ** Price-time priority, in the words of the specification

    The walk of [match] as one sequence: the levels of the opposite side
    from the best price outward, up to the first level whose price is not
    compatible; inside a level the resting orders in queue order, the
    order that carries the aggressive id left out.  The nested loops of
    the source ([Book.match_range], [Book.match_queue]) are compared with
    it below. *)

(** The set an order of [side] rests in, and the set it matches with. *)
Definition own_set (side : Side) : SetRef :=
  match side with Sell => SellLevels | _ => BuyLevels end.

Definition opposite_set (side : Side) : SetRef :=
  match side with Buy => SellLevels | _ => BuyLevels end.

(** [Buy] requires [price >= level.price], [Sell] requires
    [price <= level.price]. *)
Definition compatible (side : Side) (price level_price : Price) : bool :=
  match side with
  | Buy => price >=? level_price
  | Sell => price <=? level_price
  | SideInvalid => false
  end.

(** The opposite side from the best price outward. *)
Definition best_first (side : Side) (b : Book) : list Level :=
  match side with
  | Buy => reverse (sell_levels_ b)
  | Sell => buy_levels_ b
  | SideInvalid => []
  end.

(** The queue without the orders that carry [id]. *)
Fixpoint others (id : OrderID) (queue : list Order) : list Order :=
  match queue with
  | [] => []
  | o :: rest =>
      if String.eqb id (order_id o) then others id rest
      else o :: others id rest
  end.

Definition eligible_level (id : OrderID) (s : SetRef) (l : Level)
    : list (LevelPtr * Order) :=
  (fun o => (mkLevelPtr s (level_price l), o)) <$> others id (level_orders l).

Fixpoint eligible (id : OrderID) (price : Price) (s : SetRef)
    (compatible : Price -> Price -> bool) (range : list Level)
    : list (LevelPtr * Order) :=
  match range with
  | [] => []
  | l :: rest =>
      if compatible price (level_price l)
      then eligible_level id s l ++ eligible id price s compatible rest
      else []
  end.

Definition walk (side : Side) (id : OrderID) (price : Price) (b : Book)
    : list (LevelPtr * Order) :=
  eligible id price (opposite_set side) (compatible side) (best_first side b).

(** The trade of an aggressive order with [leaves_qty] left against a
    resting order: the fill is the minimum of the two quantities. *)
Definition trade_with (id : OrderID) (price : Price) (leaves_qty : Qty.t)
    (e : LevelPtr * Order) : Trade :=
  mkTrade (ptr_price (fst e)) (snd e) (fst e) price
          (mkOrder id (Z.min leaves_qty (order_qty (snd e)))).

(** Filling along a sequence of resting orders until nothing is left; the
    flag tells that the quantity left became zero. *)
Fixpoint fill_walk (id : OrderID) (price : Price)
    (es : list (LevelPtr * Order)) (leaves_qty : Qty.t)
    : Qty.t * Trades * bool :=
  match es with
  | [] => (leaves_qty, [], false)
  | e :: rest =>
      let t := trade_with id price leaves_qty e in
      let leaves' := Qty.sub leaves_qty (order_qty (aggressive_order t)) in
      if Qty.is_zero leaves' then (leaves', [t], true)
      else
        let '(leaves'', ts, stop) := fill_walk id price rest leaves' in
        (leaves'', t :: ts, stop)
  end.

(** [p1] is a better price than [p2] to match an order of [side] with. *)
Definition price_before (side : Side) (p1 p2 : Price) : Prop :=
  match side with
  | Buy => p1 < p2
  | Sell => p2 < p1
  | SideInvalid => True
  end.

Definition price_not_after (side : Side) (p1 p2 : Price) : Prop :=
  match side with
  | Buy => p1 <= p2
  | Sell => p2 <= p1
  | SideInvalid => True
  end.

(** ** Trades *)

Definition passive_id (t : Trade) : OrderID := order_id (passive_order t).

(** The resting order a trade was made with, and its level. *)
Definition entry_of (t : Trade) : LevelPtr * Order :=
  (passive_level t, passive_order t).

(** The fill of a trade took the whole of the resting order. *)
Definition full_fill (t : Trade) : Prop :=
  order_qty (aggressive_order t) = order_qty (passive_order t).

(** What [match] writes in a trade. *)
Record trade_ok (id : OrderID) (price : Price) (t : Trade) : Prop := mk_trade_ok {
  tr_fill_le :
    0 <= order_qty (aggressive_order t) <= order_qty (passive_order t);
  tr_passive_qty : qty_ok (order_qty (passive_order t));
  tr_aggressive_id : order_id (aggressive_order t) = id;
  tr_aggressive_price : aggressive_price t = price;
  tr_passive_price : passive_price t = ptr_price (passive_level t)
}.

(** The trade as [fill_orders] leaves it in the buffer: the quantity of
    the passive copy is the fill. *)
Definition normalized (t : Trade) : Trade :=
  mkTrade (passive_price t)
          (mkOrder (passive_id t) (order_qty (aggressive_order t)))
          (passive_level t) (aggressive_price t) (aggressive_order t).

(** The sum of the fills of a sequence of trades. *)
Fixpoint sum_fills (ts : Trades) : Z :=
  match ts with
  | [] => 0
  | t :: ts' => order_qty (aggressive_order t) + sum_fills ts'
  end.

(** ** Commands and the states they lead to *)

(** The values a decoded message carries: the message is valid and its
    price and quantity are [std::uint64_t]. *)
Definition add_order_ok (msg : AddOrder) : Prop :=
  AddOrder.is_valid msg = true
  /\ is_uint64 (add_price msg) /\ is_uint64 (add_qty msg).

Definition modify_order_ok (msg : ModifyOrder) : Prop :=
  ModifyOrder.is_valid msg = true
  /\ is_uint64 (modify_price msg) /\ is_uint64 (modify_qty msg).

Definition msg_ok (m : Msg) : Prop :=
  match m with
  | MsgBuy msg | MsgSell msg => add_order_ok msg
  | MsgCancel msg => CancelOrder.is_valid msg = true
  | MsgModify msg => modify_order_ok msg
  | MsgPrint | MsgClear => True
  end.

(** What a command does to the engine. *)
Definition engine_step (m : Msg) (e : MatchingEngine) : MatchingEngine :=
  match m with
  | MsgBuy msg => MatchingEngine.handle_buy msg e
  | MsgSell msg => MatchingEngine.handle_sell msg e
  | MsgCancel msg => MatchingEngine.handle_cancel msg e
  | MsgModify msg => MatchingEngine.handle_modify msg e
  | MsgPrint => e
  | MsgClear => MatchingEngine.handle_clear e
  end.

(** The engines that a sequence of commands leads to, from the empty
    book. *)
Inductive reachable : MatchingEngine -> Prop :=
| reachable_init : reachable (MatchingEngine.make Book.empty)
| reachable_step e m :
    reachable e -> msg_ok m -> reachable (engine_step m e).

(** What is left to read of a stream: nothing once it has failed. *)
Definition stream_left (ins : istream) : nat :=
  if failbit ins then O else S (String.length (buf ins)).

(** ** Quantities at rest *)

(** The quantity that rests in the levels of one side: the sum over the
    queues (an integer, not reduced to [std::uint64_t]). *)
Fixpoint levels_qty (ls : list Level) : Z :=
  match ls with
  | [] => 0
  | l :: ls' => sum_qty (level_orders l) + levels_qty ls'
  end.

(** ** Commands as text *)

Fixpoint no_space (s : string) : bool :=
  match s with
  | EmptyString => true
  | String c s' => negb (isspace c) && no_space s'
  end.

(** A token that [is >> str] reads back whole: it is not empty and has
    no white space. *)
Definition is_word (s : string) : bool := negb (string_empty s) && no_space s.

(** What may follow a token: the end of the input, or white space. *)
Definition at_break (s : string) : bool :=
  match s with
  | EmptyString => true
  | String c _ => isspace c
  end.

(** A message whose text reads back: its numbers are [std::uint64_t] and
    its id is a word. *)
Definition printable (m : Msg) : Prop :=
  match m with
  | MsgBuy msg | MsgSell msg =>
      is_uint64 (add_price msg) /\ is_uint64 (add_qty msg)
      /\ is_word (add_order_id msg) = true
  | MsgCancel msg => is_word (cancel_order_id msg) = true
  | MsgModify msg =>
      is_uint64 (modify_price msg) /\ is_uint64 (modify_qty msg)
      /\ is_word (modify_order_id msg) = true
  | MsgPrint | MsgClear => True
  end.

(** The number a sequence of decimal digits denotes, read from the left
    onto [acc]. *)
Fixpoint uint_value (d : Decimal.uint) (acc : Z) : Z :=
  match d with
  | Decimal.Nil => acc
  | Decimal.D0 l => uint_value l (acc * 10 + 0)
  | Decimal.D1 l => uint_value l (acc * 10 + 1)
  | Decimal.D2 l => uint_value l (acc * 10 + 2)
  | Decimal.D3 l => uint_value l (acc * 10 + 3)
  | Decimal.D4 l => uint_value l (acc * 10 + 4)
  | Decimal.D5 l => uint_value l (acc * 10 + 5)
  | Decimal.D6 l => uint_value l (acc * 10 + 6)
  | Decimal.D7 l => uint_value l (acc * 10 + 7)
  | Decimal.D8 l => uint_value l (acc * 10 + 8)
  | Decimal.D9 l => uint_value l (acc * 10 + 9)
  end.

(** The loop of [CommandProcessor_T::run] with a derived class that
    records the messages its handlers are given: the messages [run]
    dispatches, in order. *)
Fixpoint dispatched_loop (fuel : nat) (ins : istream) : list Msg :=
  match fuel with
  | O => []
  | S fuel' =>
      match get_string ins with
      | (None, _) => []
      | (Some cmd, ins1) =>
          match CommandProcessor.decode cmd ins1 with
          | None => dispatched_loop fuel' ins1
          | Some (m, ins2) =>
              if Msg.is_invalid m then dispatched_loop fuel' ins2
              else m :: dispatched_loop fuel' ins2
          end
      end
  end.

Definition dispatched (ins : istream) : list Msg :=
  dispatched_loop (S (String.length (buf ins))) ins.

(** The lines of a sequence of messages, and the handlers called on
    them in turn. *)
Fixpoint write_msgs (ms : list Msg) : string :=
  match ms with
  | [] => EmptyString
  | m :: ms' => (write_msg m ++ nl ++ write_msgs ms')%string
  end.

Definition handle_msgs (ms : list Msg) (cp : CommandProcessor)
    : CommandProcessor :=
  foldl (fun cp m => CommandProcessor.handle_msg m cp) cp ms.

(** ** Time priority *)

(** The ids of the queue behind a level pointer, in queue order; none
    when the book has no such level. *)
Definition ids_at (b : Book) (p : LevelPtr) : list OrderID :=
  match Book.deref p b with
  | Some l => level_ids l
  | None => []
  end.

(** [x] is queued before [y] in the level at [p]. *)
Definition queued_before (b : Book) (p : LevelPtr) (x y : OrderID) : Prop :=
  [x; y] `sublist_of` ids_at b p.

(** The order id a command names. *)
Definition msg_id (m : Msg) : option OrderID :=
  match m with
  | MsgBuy msg | MsgSell msg => Some (add_order_id msg)
  | MsgCancel msg => Some (cancel_order_id msg)
  | MsgModify msg => Some (modify_order_id msg)
  | MsgPrint | MsgClear => None
  end.

(** No pair of orders other than [id] is queued in [b'] in another order
    than in [b]. *)
Definition keeps_order (id : OrderID) (b b' : Book) : Prop :=
  forall p x y, x <> id -> y <> id ->
    queued_before b' p x y -> queued_before b p x y.

(** ** Executions of the threads *)

(** The states an interleaving of the two threads leads to. *)
Definition threads_reach (input : string) (cp : CommandProcessor)
    (st : Threads) : Prop :=
  rtc thread_step (threads_start input cp) st.

(** No thread can take a step. *)
Definition threads_stuck (st : Threads) : Prop :=
  forall st', ~ thread_step st st'.

(** What holds of every state of an execution from [input] and [cp0]:
    the tasks executed, the tasks queued and the messages still to come
    from the stream are, in this order, the messages of the input; the
    flag is set by the producer at its end only, and the consumer leaves
    its first loop after it has read the flag set. *)
Definition threads_inv (input : string) (cp0 : CommandProcessor)
    (st : Threads) : Prop :=
  exists done todo,
    cmd_processor_ st = handle_msgs done cp0
    /\ task_queue_ st = QueueingCommandProcessor.task <$> todo
    /\ dispatched (mkIstream input false)
       = done ++ todo
         ++ match producer_ st with
            | Reading => dispatched (cin_ st)
            | _ => []
            end
    /\ (is_producer_done st = true -> producer_ st = ProducerEnd)
    /\ (consumer_ st = Draining \/ consumer_ st = ConsumerEnd ->
        is_producer_done st = true)
    /\ (consumer_ st = ConsumerEnd -> todo = []).

(** ** The asserts of the source

    The functions of the embedding follow the build in which [assert]
    is compiled out.  The conditions below are those of the asserts a
    call goes through, evaluated on the state the call starts from:
    where they hold, the build with asserts does what the embedding
    does; where one fails, that build aborts at the assert.

    The asserts that can fail are those of the subtractions
    ([Qty::operator-=]) and [assert(not qty.is_zero())] of
    [Level::modify_qty].  The asserts on the pointers that an order and a
    level keep ([order.level_ == this] and the like) hold by the way
    pointers are modelled, [assert(not cmd.empty())] holds of every token
    that [is >> cmd] extracts, and the subtraction of the walk of [match]
    takes off a minimum of the quantity left. *)
Module Asserts.
(** [Qty::operator-=]: [assert(value_ >= rhs.value_)], the predicate
    [Qty.sub_pre] as a test. *)
Definition sub (lhs rhs : Qty.t) : bool := rhs <=? lhs.

(** [Level::cancel]: [qty_ -= order.qty()] *)
Definition level_cancel (id : OrderID) (l : Level) : bool :=
  match find_order id (level_orders l) with
  | Some order => sub (level_qty l) (order_qty order)
  | None => true
  end.

(** [Level::modify_qty]: [assert(not qty.is_zero())], then
    [qty_ -= order.qty()]; [qty_ += qty] has no assert. *)
Definition level_modify_qty (id : OrderID) (qty : Qty.t) (l : Level) : bool :=
  negb (Qty.is_zero qty) && level_cancel id l.

(** [Level::modify] calls [modify_qty]. *)
Definition level_modify (id : OrderID) (qty : Qty.t) (l : Level) : bool :=
  level_modify_qty id qty l.

(** A member function called through a [Level *]. *)
Definition at_level (p : LevelPtr) (f : Level -> bool) (b : Book) : bool :=
  match Book.deref p b with
  | Some l => f l
  | None => true
  end.

(** [Book::cancel]: [level.cancel(order)] *)
Definition cancel (id : OrderID) (b : Book) : bool :=
  match orders_by_id_ b !! id with
  | None => true
  | Some p => at_level p (level_cancel id) b
  end.

(** [Book::modify(order_id, qty, price, levels)]: [level.modify(order,
    qty)] in the same level; for a new side or price
    [level.qty_ -= order.qty()], unless the old level became empty. *)
Definition modify_in (id : OrderID) (qty : Qty.t) (price : Price)
    (s : SetRef) (b : Book) : bool :=
  match orders_by_id_ b !! id with
  | None => true
  | Some p =>
      match Book.deref p b with
      | None => true
      | Some level =>
          match find_order id (level_orders level) with
          | None => true
          | Some order =>
              if bool_decide (ptr_levels p = s) && (level_price level =? price)
              then
                if qty =? order_qty order then true
                else level_modify id qty level
              else
                match erase_order id (level_orders level) with
                | [] => true
                | _ :: _ => sub (level_qty level) (order_qty order)
                end
          end
      end
  end.

(** [Book::modify(side, order_id, qty, price)] *)
Definition modify (side : Side) (id : OrderID) (qty : Qty.t) (price : Price)
    (b : Book) : bool :=
  match side with
  | Buy => modify_in id qty price BuyLevels b
  | Sell => modify_in id qty price SellLevels b
  | SideInvalid => true
  end.

(** The body of the loop of [Book::fill_orders]: the subtraction
    [trade.passive_order.qty() - trade.aggressive_order.qty()], then
    [cancel] or [level->modify_qty]. *)
Definition fill_order (trade : Trade) (b : Book) : bool :=
  sub (order_qty (passive_order trade)) (order_qty (aggressive_order trade))
  && (let leaves_qty :=
        Qty.sub (order_qty (passive_order trade))
                (order_qty (aggressive_order trade)) in
      if Qty.is_zero leaves_qty
      then cancel (order_id (passive_order trade)) b
      else at_level (passive_level trade)
             (level_modify_qty (order_id (passive_order trade)) leaves_qty) b).

(** [Book::fill_orders], each trade on the book the trades before it
    left. *)
Fixpoint fill_orders (trades : Trades) (b : Book) : bool :=
  match trades with
  | [] => true
  | trade :: rest =>
      fill_order trade b && fill_orders rest (snd (Book.fill_order trade b))
  end.

(** [Book::match]: the asserts of [fill_orders] on the trades of the
    walk. *)
Definition match_ (side : Side) (id : OrderID) (qty : Qty.t) (price : Price)
    (trades : Trades) (b : Book) : bool :=
  let '(_, trades1) := Book.match_side side id qty price trades b in
  fill_orders trades1 b.

(** [MatchingEngine::handle_add]: [Book::add] has no assert. *)
Definition handle_add (side : Side) (msg : AddOrder) (e : MatchingEngine)
    : bool :=
  match_ side (add_order_id msg) (add_qty msg) (add_price msg) [] (book_ e).

(** [MatchingEngine::handle(CancelOrder)] *)
Definition handle_cancel (msg : CancelOrder) (e : MatchingEngine) : bool :=
  cancel (cancel_order_id msg) (book_ e).

(** [MatchingEngine::handle(ModifyOrder)]: [match], then [cancel] or
    [modify] on the book [match] left. *)
Definition handle_modify (msg : ModifyOrder) (e : MatchingEngine) : bool :=
  match_ (modify_side msg) (modify_order_id msg) (modify_qty msg)
    (modify_price msg) [] (book_ e)
  && (let '(leaves_qty, _, b) :=
        Book.match_ (modify_side msg) (modify_order_id msg) (modify_qty msg)
          (modify_price msg) [] (book_ e) in
      if Qty.is_zero leaves_qty then cancel (modify_order_id msg) b
      else modify (modify_side msg) (modify_order_id msg) leaves_qty
             (modify_price msg) b).

(** The handler of a message. *)
Definition engine_step (m : Msg) (e : MatchingEngine) : bool :=
  match m with
  | MsgBuy msg => handle_add Buy msg e
  | MsgSell msg => handle_add Sell msg e
  | MsgCancel msg => handle_cancel msg e
  | MsgModify msg => handle_modify msg e
  | MsgPrint | MsgClear => true
  end.

(** The handlers of a sequence of messages, each on the state the
    messages before it left. *)
Fixpoint handle_msgs (ms : list Msg) (cp : CommandProcessor) : bool :=
  match ms with
  | [] => true
  | m :: ms' =>
      engine_step m (matching_engine_ cp)
      && handle_msgs ms' (CommandProcessor.handle_msg m cp)
  end.
End Asserts.

(** An input with a trade, and the state in which both threads have
    returned from it. *)
Definition ex_input : string :=
  "BUY GFD 1000 10 order1
SELL GFD 900 4 order2
".

Definition ex_threads_end : Threads :=
  mkThreads (mkIstream EmptyString true) ProducerEnd [] true ConsumerEnd
    (QueueingCommandProcessor.task
       (MsgSell (mkAddOrder GFD 900 4 "order2"))
       (QueueingCommandProcessor.task
          (MsgBuy (mkAddOrder GFD 1000 10 "order1"))
          (CommandProcessor.make (MatchingEngine.make Book.empty)))).

(** ** Examples *)

Definition ex_order1 : AddOrder := mkAddOrder GFD 1000 10 "order1".
Definition ex_order2 : AddOrder := mkAddOrder GFD 1000 5 "order2".
Definition ex_order3 : AddOrder := mkAddOrder GFD 1100 7 "order3".

(** Two buys at 1000 ([order1] before [order2]) and a sell at 1100. *)
Definition ex_engine : MatchingEngine :=
  engine_step (MsgSell ex_order3)
    (engine_step (MsgBuy ex_order2)
       (engine_step (MsgBuy ex_order1) (MatchingEngine.make Book.empty))).

Definition ex_book : Book := book_ ex_engine.

(** Two sells, at 1000 then at 1100. *)
Definition ex_two_sells : MatchingEngine :=
  engine_step (MsgSell (mkAddOrder GFD 1100 10 "order2"))
    (engine_step (MsgSell (mkAddOrder GFD 1000 10 "order1"))
       (MatchingEngine.make Book.empty)).

(** * Properties *)

Ltac zbool :=
  repeat match goal with
  | |- context [Level.CompareLevel ?a ?b] =>
      unfold Level.CompareLevel; destruct (Z.gtb_spec a b) as [?|?]
  | |- context [?a =? ?b] => destruct (Z.eqb_spec a b) as [?|?]
  | |- context [?a >? ?b] => destruct (Z.gtb_spec a b) as [?|?]
  | |- context [?a >=? ?b] => destruct (Z.geb_spec a b) as [?|?]
  | |- context [?a <=? ?b] => destruct (Z.leb_spec a b) as [?|?]
  end.


(** ** Level sets: the iteration order and the lookup by price *)

Section LevelSetFacts.
Implicit Types (ls : list Level) (l : Level) (p : Price) (f : Level -> Level).

Lemma find_cons p x ls :
  LevelSet.find p (x :: ls)
  = if level_price x >? p then LevelSet.find p ls
    else if level_price x =? p then Some x else None.
Proof.
  unfold LevelSet.find. simpl. unfold Level.CompareLevel.
  by destruct (level_price x >? p).
Qed.

Lemma find_Some p ls l :
  LevelSet.find p ls = Some l -> l ∈ ls /\ level_price l = p.
Proof.
  induction ls as [|x ls IH]; [done|]. rewrite find_cons.
  destruct (Z.gtb_spec (level_price x) p).
  - intros Hfd. destruct (IH Hfd). split; [by right | done].
  - destruct (Z.eqb_spec (level_price x) p); [|done].
    intros [= ->]. split; [by left | done].
Qed.

Lemma find_below p ls :
  Forall (fun l => level_price l < p) ls -> LevelSet.find p ls = None.
Proof.
  destruct ls as [|x ls]; [done|]. rewrite find_cons.
  intros [Hlt _]%Forall_cons. zbool; try lia. done.
Qed.

Lemma find_elem ls l :
  sorted_desc ls -> l ∈ ls -> LevelSet.find (level_price l) ls = Some l.
Proof.
  induction ls as [|x ls IH]; simpl.
  - intros _ Hin. by apply elem_of_nil in Hin.
  - rewrite find_cons. intros [Hx Hs] [->|Hin]%elem_of_cons.
    + zbool; try lia. done.
    + rewrite Forall_forall in Hx. specialize (Hx _ Hin).
      zbool; try lia. by apply IH.
Qed.

Lemma find_update p p' f ls :
  (forall l, level_price (f l) = level_price l) ->
  LevelSet.find p' (LevelSet.update p f ls)
  = if decide (p' = p) then f <$> LevelSet.find p ls
    else LevelSet.find p' ls.
Proof.
  intros Hf.
  induction ls as [|x ls IH]; simpl; [by case_decide|].
  destruct (Z.eqb_spec (level_price x) p) as [Hx|Hx];
    rewrite !find_cons, ?Hf.
  - case_decide; subst; zbool; try done; lia.
  - rewrite IH. case_decide; subst; zbool; try done; lia.
Qed.

Lemma find_erase p p' ls :
  sorted_desc ls ->
  LevelSet.find p' (LevelSet.erase p ls)
  = if decide (p' = p) then None else LevelSet.find p' ls.
Proof.
  induction ls as [|x ls IH]; simpl; [by case_decide|].
  intros [Hx Hs].
  destruct (Z.eqb_spec (level_price x) p) as [Hp|Hp]; rewrite !find_cons.
  - subst p. case_decide.
    + subst. by apply find_below.
    + zbool; try done; try lia. apply find_below.
      eapply Forall_impl; [exact Hx|]. simpl. intros. lia.
  - rewrite (IH Hs). case_decide; subst; zbool; try done; lia.
Qed.

Lemma find_emplace p p' ls :
  LevelSet.find p' (LevelSet.emplace p ls)
  = if decide (p' = p)
    then Some (default (Level.make p) (LevelSet.find p ls))
    else LevelSet.find p' ls.
Proof.
  induction ls as [|x ls IH]; simpl.
  - rewrite find_cons. simpl. case_decide; subst; zbool; try done; lia.
  - unfold Level.CompareLevel.
    destruct (Z.gtb_spec (level_price x) p).
    + rewrite !find_cons, IH.
      case_decide; subst; zbool; try done; lia.
    + destruct (Z.gtb_spec p (level_price x)); rewrite !find_cons; simpl.
      * case_decide; subst; zbool; try done; lia.
      * assert (level_price x = p) by lia. subst.
        case_decide; subst; zbool; try done; lia.
Qed.

Lemma Forall_update (P : Level -> Prop) p f ls :
  (forall l, P l -> P (f l)) -> Forall P ls -> Forall P (LevelSet.update p f ls).
Proof.
  intros Hf. induction 1; simpl; [done|].
  zbool; constructor; auto.
Qed.

Lemma Forall_erase (P : Level -> Prop) p ls :
  Forall P ls -> Forall P (LevelSet.erase p ls).
Proof. induction 1; simpl; [done|]. zbool; [done|]. by constructor. Qed.

Lemma Forall_emplace (P : Level -> Prop) p ls :
  P (Level.make p) -> Forall P ls -> Forall P (LevelSet.emplace p ls).
Proof.
  intros Hp. induction 1; simpl; [by constructor|].
  zbool; repeat constructor; auto.
Qed.

Lemma sorted_update p f ls :
  (forall l, level_price (f l) = level_price l) ->
  sorted_desc ls -> sorted_desc (LevelSet.update p f ls).
Proof.
  intros Hf. induction ls as [|x ls IH]; simpl; [done|].
  intros [Hx Hs]. zbool; simpl.
  - rewrite Hf. done.
  - split; [|by apply IH]. apply Forall_update; [|done].
    intros l. by rewrite Hf.
Qed.

Lemma sorted_erase p ls : sorted_desc ls -> sorted_desc (LevelSet.erase p ls).
Proof.
  induction ls as [|x ls IH]; simpl; [done|].
  intros [Hx Hs]. zbool; simpl; [done|].
  split; [by apply Forall_erase | by apply IH].
Qed.

Lemma sorted_emplace p ls :
  sorted_desc ls -> sorted_desc (LevelSet.emplace p ls).
Proof.
  induction ls as [|x ls IH]; simpl; [done|].
  intros [Hx Hs]. zbool; simpl.
  - split; [|by apply IH]. apply Forall_emplace; [simpl; lia | done].
  - split; [|done]. constructor; [done|].
    eapply Forall_impl; [exact Hx|]. simpl. intros. lia.
  - done.
Qed.
End LevelSetFacts.

(** ** Queues *)

Section QueueFacts.
Implicit Types (q : list Order) (o : Order) (id : OrderID).

Lemma find_order_Some id q o :
  find_order id q = Some o -> o ∈ q /\ order_id o = id.
Proof.
  induction q as [|x q IH]; simpl; [done|].
  destruct (String.eqb_spec id (order_id x)) as [->|Hne].
  - intros [= ->]. split; [by left | done].
  - intros Hfd. destruct (IH Hfd). split; [by right | done].
Qed.

Lemma find_order_None id q : find_order id q = None <-> id ∉ queue_ids q.
Proof.
  unfold queue_ids. induction q as [|x q IH]; simpl.
  - split; [intros _; apply not_elem_of_nil | done].
  - rewrite not_elem_of_cons.
    destruct (String.eqb_spec id (order_id x)); [|tauto].
    split; [done | tauto].
Qed.

Lemma find_order_is_Some id q :
  id ∈ queue_ids q -> exists o, find_order id q = Some o.
Proof.
  intros Hin. destruct (find_order id q) eqn:E; [eauto|].
  by apply find_order_None in E.
Qed.

Lemma find_order_elem q o :
  NoDup (queue_ids q) -> o ∈ q -> find_order (order_id o) q = Some o.
Proof.
  unfold queue_ids. induction q as [|x q IH]; simpl.
  - intros _ Hin. by apply elem_of_nil in Hin.
  - intros [Hx Hnd]%NoDup_cons [->|Hin]%elem_of_cons.
    + by rewrite String.eqb_refl.
    + destruct (String.eqb_spec (order_id o) (order_id x)) as [Heq|Hne];
        [|by apply IH].
      destruct Hx. rewrite <- Heq. by apply list_elem_of_fmap_2.
Qed.

Lemma erase_order_None id q : id ∉ queue_ids q -> erase_order id q = q.
Proof.
  unfold queue_ids. induction q as [|x q IH]; simpl; [done|].
  rewrite not_elem_of_cons. intros [Hne Hq].
  destruct (String.eqb_spec id (order_id x)); [done|]. by rewrite IH.
Qed.

Lemma elem_of_erase_order id q o :
  NoDup (queue_ids q) ->
  o ∈ erase_order id q <-> o ∈ q /\ order_id o <> id.
Proof.
  unfold queue_ids. induction q as [|x q IH]; simpl.
  - intros _. split; [intros Hin; by apply elem_of_nil in Hin | intros [Hin _]; done].
  - intros [Hx Hnd]%NoDup_cons.
    destruct (String.eqb_spec id (order_id x)) as [->|Hne].
    + rewrite elem_of_cons. split.
      * intros Hin. split; [by right|]. intros Heq. destruct Hx.
        rewrite <- Heq. by apply list_elem_of_fmap_2.
      * intros [[->|Hin] Hne]; done.
    + rewrite !elem_of_cons, (IH Hnd). split.
      * intros [->|[Hin Hne']]; [split; [by left | congruence] | split; [by right | done]].
      * intros [[->|Hin] Hne']; [by left | by right].
Qed.

Lemma erase_order_sublist id q : erase_order id q `sublist_of` q.
Proof.
  induction q as [|x q IH]; simpl; [done|].
  destruct (String.eqb id (order_id x)).
  - by apply sublist_cons.
  - by apply sublist_skip.
Qed.

Lemma Forall_erase_order (P : Order -> Prop) id q :
  Forall P q -> Forall P (erase_order id q).
Proof.
  induction 1; simpl; [done|].
  destruct (String.eqb id (order_id x)); [done | by constructor].
Qed.

Lemma NoDup_erase_order id q :
  NoDup (queue_ids q) -> NoDup (queue_ids (erase_order id q)).
Proof.
  intros Hnd. eapply sublist_NoDup; [exact Hnd|].
  apply fmap_sublist, erase_order_sublist.
Qed.

Lemma erase_order_not_elem id q :
  NoDup (queue_ids q) -> id ∉ queue_ids (erase_order id q).
Proof.
  intros Hnd (o & Hid & Hin)%list_elem_of_fmap.
  apply elem_of_erase_order in Hin as [_ Hne]; done.
Qed.

Lemma sum_qty_erase_order id q o :
  find_order id q = Some o ->
  sum_qty (erase_order id q) = sum_qty q - order_qty o.
Proof.
  induction q as [|x q IH]; simpl; [done|].
  destruct (String.eqb id (order_id x)).
  - intros [= ->]. lia.
  - intros Hfd. simpl. rewrite (IH Hfd). lia.
Qed.

Lemma queue_ids_set_order_qty id qty q :
  queue_ids (set_order_qty id qty q) = queue_ids q.
Proof.
  unfold queue_ids. induction q as [|x q IH]; csimpl; [done|].
  destruct (String.eqb id (order_id x)); csimpl; [done|]. by rewrite IH.
Qed.

Lemma sum_qty_set_order_qty id qty q o :
  find_order id q = Some o ->
  sum_qty (set_order_qty id qty q) = sum_qty q - order_qty o + qty.
Proof.
  induction q as [|x q IH]; simpl; [done|].
  destruct (String.eqb id (order_id x)); simpl.
  - intros [= ->]. lia.
  - intros Hfd. rewrite (IH Hfd). lia.
Qed.

Lemma elem_of_set_order_qty id qty q o :
  NoDup (queue_ids q) ->
  o ∈ set_order_qty id qty q
  <-> (o ∈ q /\ order_id o <> id) \/ (o = mkOrder id qty /\ id ∈ queue_ids q).
Proof.
  unfold queue_ids. induction q as [|x q IH]; simpl.
  - intros _. split.
    + intros Hin. by apply elem_of_nil in Hin.
    + intros [[Hin _]|[_ Hin]]; by apply elem_of_nil in Hin.
  - intros [Hx Hnd]%NoDup_cons.
    destruct (String.eqb_spec id (order_id x)) as [->|Hne].
    + rewrite !elem_of_cons. split.
      * intros [->|Hin]; [right; split; [done | by left]|].
        left. split; [by right|]. intros Heq. destruct Hx.
        rewrite <- Heq. by apply list_elem_of_fmap_2.
      * intros [[[->|Hin] Hne]|[-> _]]; [done | by right | by left].
    + rewrite !elem_of_cons, (IH Hnd). split.
      * intros [->|[[Hin Hne']|[-> Hin]]].
        -- left. split; [by left | congruence].
        -- left. split; [by right | done].
        -- right. split; [done | by right].
      * intros [[[->|Hin] Hne']|[-> [Heq|Hin]]].
        -- by left.
        -- right. left. done.
        -- done.
        -- right. right. done.
Qed.

Lemma find_order_set_order_qty id id' qty q :
  find_order id' (set_order_qty id qty q)
  = if decide (id' = id) then (fun _ => mkOrder id qty) <$> find_order id q
    else find_order id' q.
Proof.
  induction q as [|x q IH]; simpl; [by case_decide|].
  destruct (String.eqb_spec id (order_id x)) as [->|Hne]; simpl.
  - case_decide as Hd.
    + subst. by rewrite String.eqb_refl.
    + destruct (String.eqb_spec id' (order_id x)); done.
  - rewrite IH. case_decide as Hd.
    + subst. destruct (String.eqb_spec id (order_id x)); done.
    + done.
Qed.

Lemma find_order_erase_order id id' q :
  NoDup (queue_ids q) ->
  find_order id' (erase_order id q)
  = if decide (id' = id) then None else find_order id' q.
Proof.
  intros Hnd. case_decide as Hd.
  - subst. apply find_order_None. by apply erase_order_not_elem.
  - induction q as [|x q IH]; simpl; [done|].
    apply NoDup_cons in Hnd as [Hx Hnd].
    destruct (String.eqb_spec id (order_id x)) as [->|Hne]; simpl.
    + destruct (String.eqb_spec id' (order_id x)); done.
    + rewrite (IH Hnd). done.
Qed.

Lemma find_order_app id q1 q2 :
  find_order id (q1 ++ q2)
  = match find_order id q1 with Some o => Some o | None => find_order id q2 end.
Proof.
  induction q1 as [|x q1 IH]; simpl; [done|].
  by destruct (String.eqb id (order_id x)).
Qed.

Lemma sum_qty_app q1 q2 : sum_qty (q1 ++ q2) = sum_qty q1 + sum_qty q2.
Proof. induction q1 as [|x q1 IH]; simpl; lia. Qed.
End QueueFacts.

(** ** Pointers into the book: what an update leaves to be found *)

Section BookFacts.
Implicit Types (b : Book) (p : LevelPtr) (l : Level) (s : SetRef).

Lemma levels_set_levels s s' ls b :
  Book.levels s' (Book.set_levels s ls b)
  = if decide (s' = s) then ls else Book.levels s' b.
Proof. by destruct s, s'. Qed.

Lemma orders_set_levels s ls b :
  orders_by_id_ (Book.set_levels s ls b) = orders_by_id_ b.
Proof. by destruct s. Qed.

Lemma levels_set_orders s m b :
  Book.levels s (Book.set_orders_by_id m b) = Book.levels s b.
Proof. by destruct s. Qed.

Lemma deref_set_orders p m b :
  Book.deref p (Book.set_orders_by_id m b) = Book.deref p b.
Proof. unfold Book.deref. by rewrite levels_set_orders. Qed.

Lemma sorted_set_orders m b :
  sorted_book b -> sorted_book (Book.set_orders_by_id m b).
Proof. intros Hs s. rewrite levels_set_orders. apply Hs. Qed.

Lemma deref_price p b l : Book.deref p b = Some l -> level_price l = ptr_price p.
Proof. intros Hd. by apply find_Some in Hd as [_ ?]. Qed.

Lemma deref_elem p b l :
  Book.deref p b = Some l -> l ∈ Book.levels (ptr_levels p) b.
Proof. intros Hd. by apply find_Some in Hd as [? _]. Qed.

Lemma elem_deref s b l :
  sorted_book b -> l ∈ Book.levels s b ->
  Book.deref (mkLevelPtr s (level_price l)) b = Some l.
Proof. intros Hs Hin. apply find_elem; [apply Hs | done]. Qed.

Lemma ptr_neq p p' :
  p' <> p -> ptr_levels p' = ptr_levels p -> ptr_price p' <> ptr_price p.
Proof. destruct p, p'; simpl. congruence. Qed.

Lemma deref_with_level p p' f b :
  (forall l, level_price (f l) = level_price l) ->
  Book.deref p' (Book.with_level p f b)
  = if decide (p' = p) then f <$> Book.deref p b else Book.deref p' b.
Proof.
  intros Hf. unfold Book.deref, Book.with_level.
  rewrite levels_set_levels.
  destruct (decide (ptr_levels p' = ptr_levels p)) as [Hs|Hs].
  - rewrite find_update by done. rewrite Hs.
    case_decide as Hp.
    + rewrite decide_True; [done|].
      destruct p, p'; simpl in *; congruence.
    + rewrite decide_False; [done|]. intros ->. done.
  - rewrite decide_False; [done|]. intros ->. done.
Qed.

Lemma sorted_with_level p f b :
  (forall l, level_price (f l) = level_price l) ->
  sorted_book b -> sorted_book (Book.with_level p f b).
Proof.
  intros Hf Hs s. unfold Book.with_level. rewrite levels_set_levels.
  case_decide; [|apply Hs]. apply sorted_update; [done | apply Hs].
Qed.

Lemma orders_with_level p f b :
  orders_by_id_ (Book.with_level p f b) = orders_by_id_ b.
Proof. apply orders_set_levels. Qed.

Lemma deref_erase_level p p' b :
  sorted_book b ->
  Book.deref p' (erase_level p b)
  = if decide (p' = p) then None else Book.deref p' b.
Proof.
  intros Hsb. unfold Book.deref, erase_level.
  rewrite levels_set_levels.
  destruct (decide (ptr_levels p' = ptr_levels p)) as [Hs|Hs].
  - rewrite find_erase by apply Hsb. rewrite Hs.
    case_decide as Hp.
    + rewrite decide_True; [done|].
      destruct p, p'; simpl in *; congruence.
    + rewrite decide_False; [done|]. intros ->. done.
  - rewrite decide_False; [done|]. intros ->. done.
Qed.

Lemma sorted_erase_level p b : sorted_book b -> sorted_book (erase_level p b).
Proof.
  intros Hs s. unfold erase_level. rewrite levels_set_levels.
  case_decide; [|apply Hs]. apply sorted_erase, Hs.
Qed.

Lemma deref_emplace_level p p' b :
  Book.deref p' (emplace_level p b)
  = if decide (p' = p)
    then Some (default (Level.make (ptr_price p)) (Book.deref p b))
    else Book.deref p' b.
Proof.
  unfold Book.deref, emplace_level.
  rewrite levels_set_levels.
  destruct (decide (ptr_levels p' = ptr_levels p)) as [Hs|Hs].
  - rewrite find_emplace. rewrite Hs.
    case_decide as Hp.
    + rewrite decide_True; [done|].
      destruct p, p'; simpl in *; congruence.
    + rewrite decide_False; [done|]. intros ->. done.
  - rewrite decide_False; [done|]. intros ->. done.
Qed.

Lemma sorted_emplace_level p b :
  sorted_book b -> sorted_book (emplace_level p b).
Proof.
  intros Hs s. unfold emplace_level. rewrite levels_set_levels.
  case_decide; [|apply Hs]. apply sorted_emplace, Hs.
Qed.

Lemma erase_if_empty_eq p b :
  Book.erase_if_empty p b
  = match Book.deref p b with
    | Some l => if Level.empty l then erase_level p b else b
    | None => b
    end.
Proof. done. Qed.
End BookFacts.

(** ** The operations of a level keep a level well formed *)

Section LevelFacts.
Implicit Types (l : Level) (id x : OrderID) (q : Qty.t).

Lemma wrap64_add_l a b : wrap64 (wrap64 a + b) = wrap64 (a + b).
Proof. unfold wrap64. apply Zplus_mod_idemp_l. Qed.

Lemma wrap64_sub_l a b : wrap64 (wrap64 a - b) = wrap64 (a - b).
Proof. unfold wrap64. apply Zminus_mod_idemp_l. Qed.

Lemma wrap64_small a : 0 <= a <= UINT64_MAX -> wrap64 a = a.
Proof. unfold wrap64, UINT64_MAX. intros. apply Z.mod_small. lia. Qed.

Lemma elem_of_queue_ids id (qu : list Order) :
  id ∈ queue_ids qu <-> is_Some (find_order id qu).
Proof.
  split.
  - intros [o Ho]%find_order_is_Some. eauto.
  - intros [o Ho]. destruct (decide (id ∈ queue_ids qu)) as [|Hn]; [done|].
    apply find_order_None in Hn. congruence.
Qed.

Lemma level_price_cancel x l : level_price (Level.cancel x l) = level_price l.
Proof. unfold Level.cancel. by destruct (find_order x (level_orders l)). Qed.

Lemma level_price_modify_qty x q l :
  level_price (Level.modify_qty x q l) = level_price l.
Proof. unfold Level.modify_qty. by destruct (find_order x (level_orders l)). Qed.

Lemma level_price_modify x q l :
  level_price (Level.modify x q l) = level_price l.
Proof.
  unfold Level.modify.
  destruct (find_order x (level_orders (Level.modify_qty x q l)));
    simpl; apply level_price_modify_qty.
Qed.

Lemma level_orders_cancel x l :
  level_orders (Level.cancel x l) = erase_order x (level_orders l).
Proof.
  unfold Level.cancel.
  destruct (find_order x (level_orders l)) eqn:E; [done|].
  symmetry. apply erase_order_None. by apply find_order_None.
Qed.

Lemma level_ids_cancel x id l :
  NoDup (level_ids l) ->
  id ∈ level_ids (Level.cancel x l) <-> id ∈ level_ids l /\ id <> x.
Proof.
  intros Hnd. unfold level_ids. rewrite level_orders_cancel.
  rewrite !elem_of_queue_ids, find_order_erase_order by done.
  case_decide; [|by intuition].
  split; [by intros [? ?] | by intros [_ ?]].
Qed.

Lemma level_ok_cancel x l :
  level_ok l -> Level.empty (Level.cancel x l) = false ->
  level_ok (Level.cancel x l).
Proof.
  intros [Hne Hnd Hq Hs] Hemp. unfold Level.empty in Hemp.
  unfold Level.cancel in *.
  destruct (find_order x (level_orders l)) as [o|] eqn:E;
    [|by constructor].
  simpl in *. constructor; simpl.
  - by destruct (erase_order x (level_orders l)).
  - by apply NoDup_erase_order.
  - by apply Forall_erase_order.
  - rewrite (sum_qty_erase_order _ _ _ E), Hs.
    unfold Qty.sub. apply wrap64_sub_l.
Qed.

Lemma level_ids_add x q l :
  level_ids (Level.add x q l) = level_ids l ++ [x].
Proof. unfold level_ids, queue_ids. simpl. by rewrite fmap_app. Qed.

Lemma level_ok_add x q l :
  level_ok l \/ l = Level.make (level_price l) ->
  x ∉ level_ids l -> qty_ok q -> level_ok (Level.add x q l).
Proof.
  intros Hl Hx Hq.
  assert (NoDup (level_ids l) /\
          Forall (fun o => qty_ok (order_qty o)) (level_orders l) /\
          level_qty l = wrap64 (sum_qty (level_orders l))) as (Hnd & Hqs & Hs).
  { destruct Hl as [[]| ->]; [done|]. simpl.
    split; [constructor | split; [constructor | done]]. }
  constructor.
  - simpl. by destruct (level_orders l).
  - rewrite level_ids_add. apply NoDup_app. split; [done|].
    split; [|apply NoDup_singleton].
    intros y Hy ->%list_elem_of_singleton. done.
  - simpl. apply Forall_app_2; [done | by apply Forall_singleton].
  - simpl. rewrite sum_qty_app, Hs. simpl. unfold Qty.add.
    rewrite wrap64_add_l. f_equal. lia.
Qed.

Lemma level_ids_modify_qty x q l :
  level_ids (Level.modify_qty x q l) = level_ids l.
Proof.
  unfold Level.modify_qty, level_ids.
  destruct (find_order x (level_orders l)); [|done].
  simpl. apply queue_ids_set_order_qty.
Qed.

Lemma level_ok_modify_qty x q l :
  level_ok l -> qty_ok q -> level_ok (Level.modify_qty x q l).
Proof.
  intros Hl Hq. pose proof (level_ids_modify_qty x q l) as Hids.
  destruct Hl as [Hne Hnd Hqs Hs].
  unfold Level.modify_qty in *.
  destruct (find_order x (level_orders l)) as [o|] eqn:E;
    [|by constructor].
  constructor; simpl.
  - intros Heq. apply (f_equal queue_ids) in Heq.
    rewrite queue_ids_set_order_qty in Heq.
    destruct (level_orders l); [done|]. discriminate.
  - unfold level_ids. simpl. by rewrite queue_ids_set_order_qty.
  - apply Forall_forall. intros o' Ho'.
    apply elem_of_set_order_qty in Ho' as [[Hin _]|[-> _]]; [|done|done].
    rewrite Forall_forall in Hqs. by apply Hqs.
  - rewrite (sum_qty_set_order_qty _ _ _ _ E), Hs.
    unfold Qty.add, Qty.sub. rewrite wrap64_sub_l, wrap64_add_l. done.
Qed.

Lemma level_modify_eq x q l o :
  NoDup (level_ids l) ->
  find_order x (level_orders l) = Some o ->
  Level.modify x q l
  = mkLevel (Qty.add (Qty.sub (level_qty l) (order_qty o)) q) (level_price l)
            (erase_order x (level_orders l) ++ [mkOrder x q]).
Proof.
  intros Hnd E. unfold Level.modify, Level.modify_qty. rewrite E. simpl.
  rewrite find_order_set_order_qty, decide_True, E by done. simpl.
  f_equal. f_equal.
  clear E. unfold level_ids in Hnd. induction (level_orders l) as [|y qu IH]; simpl; [done|].
  apply NoDup_cons in Hnd as [Hy Hnd].
  destruct (String.eqb_spec x (order_id y)) as [->|Hne]; simpl.
  - by rewrite String.eqb_refl.
  - destruct (String.eqb_spec x (order_id y)); [done|]. by rewrite IH.
Qed.

Lemma level_modify_None x q l :
  find_order x (level_orders l) = None -> Level.modify x q l = l.
Proof.
  intros E. unfold Level.modify, Level.modify_qty. rewrite E. by rewrite E.
Qed.

Lemma level_ids_modify x q id l :
  NoDup (level_ids l) ->
  id ∈ level_ids (Level.modify x q l) <-> id ∈ level_ids l.
Proof.
  intros Hnd.
  destruct (find_order x (level_orders l)) as [o|] eqn:E.
  - rewrite (level_modify_eq _ _ _ _ Hnd E). unfold level_ids. simpl.
    rewrite !elem_of_queue_ids, find_order_app, find_order_erase_order by done.
    case_decide as Hd; simpl.
    + subst. rewrite String.eqb_refl, E. split; eauto.
    + destruct (find_order id (level_orders l)) eqn:E'; [done|].
      destruct (String.eqb_spec id x); [done|]. done.
  - by rewrite level_modify_None.
Qed.

Lemma level_ok_modify x q l :
  level_ok l -> qty_ok q -> level_ok (Level.modify x q l).
Proof.
  intros Hl Hq.
  destruct (find_order x (level_orders l)) as [o|] eqn:E;
    [|by rewrite level_modify_None].
  destruct Hl as [Hne Hnd Hqs Hs].
  rewrite (level_modify_eq _ _ _ _ Hnd E).
  constructor; simpl.
  - by destruct (erase_order x (level_orders l)).
  - unfold level_ids, queue_ids. simpl. rewrite fmap_app. apply NoDup_app.
    split; [by apply NoDup_erase_order|].
    split; [|apply NoDup_singleton].
    intros y Hy ->%list_elem_of_singleton.
    by apply erase_order_not_elem in Hy.
  - apply Forall_app_2; [by apply Forall_erase_order|].
    by apply Forall_singleton.
  - rewrite sum_qty_app, (sum_qty_erase_order _ _ _ E), Hs. simpl.
    unfold Qty.add, Qty.sub. rewrite wrap64_sub_l, wrap64_add_l.
    f_equal. lia.
Qed.
End LevelFacts.

(** ** Three changes of the book that keep its invariant *)

Section InvariantSteps.
Implicit Types (b : Book) (p : LevelPtr) (l : Level) (x id : OrderID).

(** The level at [p] changes in place and keeps its ids. *)
Lemma inv_update b b' p l l' :
  book_inv b -> Book.deref p b = Some l ->
  sorted_book b' ->
  (forall p', Book.deref p' b'
              = if decide (p' = p) then Some l' else Book.deref p' b) ->
  orders_by_id_ b' = orders_by_id_ b ->
  level_ok l' -> (forall id, id ∈ level_ids l' <-> id ∈ level_ids l) ->
  book_inv b'.
Proof.
  intros [Hs Hl Hi Hu] Hd Hs' Hd' Hm Hok Hids. constructor.
  - done.
  - intros p' l0. rewrite Hd'. case_decide; [by intros [= <-] | apply Hl].
  - intros id p'. rewrite Hm, Hi. unfold resting_at. rewrite Hd'.
    case_decide as Hp; [|done]. subst p'. rewrite Hd. split.
    + intros (l0 & [= <-] & Hin). exists l'. by rewrite Hids.
    + intros (l0 & [= <-] & Hin). exists l. by rewrite <- Hids.
  - intros pb ps. rewrite !Hd'. intros Hb Hsell. apply Hu.
    + destruct (decide (mkLevelPtr BuyLevels pb = p)) as [->|];
        [by rewrite Hd | done].
    + destruct (decide (mkLevelPtr SellLevels ps = p)) as [->|];
        [by rewrite Hd | done].
Qed.

(** The order [x] leaves its level, and the level leaves the set when
    it is empty. *)
Lemma inv_remove b b' x p l :
  book_inv b -> orders_by_id_ b !! x = Some p -> Book.deref p b = Some l ->
  sorted_book b' ->
  (forall p', Book.deref p' b'
              = if decide (p' = p)
                then (if Level.empty (Level.cancel x l) then None
                      else Some (Level.cancel x l))
                else Book.deref p' b) ->
  orders_by_id_ b' = delete x (orders_by_id_ b) ->
  book_inv b'.
Proof.
  intros [Hs Hl Hi Hu] Hx Hd Hs' Hd' Hm. constructor.
  - done.
  - intros p' l0. rewrite Hd'. case_decide; [|apply Hl].
    destruct (Level.empty (Level.cancel x l)) eqn:E; [done|].
    intros [= <-]. apply level_ok_cancel; [by eapply Hl | done].
  - intros id p'. rewrite Hm, lookup_delete. unfold resting_at.
    rewrite Hd'. case_decide as Hid.
    + subst id. split; [done|]. intros (l0 & Hl0 & Hin).
      case_decide as Hp.
      * destruct (Level.empty (Level.cancel x l)); [done|].
        injection Hl0 as <-.
        apply level_ids_cancel in Hin as [_ ?]; [done|].
        by eapply ok_nodup, Hl.
      * assert (orders_by_id_ b !! x = Some p') as Hx'
          by (apply Hi; by exists l0).
        congruence.
    + rewrite Hi. unfold resting_at. case_decide as Hp; [|done].
      subst p'. rewrite Hd.
      assert (NoDup (level_ids l)) as Hnd by (by eapply ok_nodup, Hl).
      split.
      * intros (l0 & [= <-] & Hin).
        assert (id ∈ level_ids (Level.cancel x l)) as Hin'
          by (apply level_ids_cancel; [done | split; [done | congruence]]).
        destruct (Level.empty (Level.cancel x l)) eqn:E; [|eauto].
        unfold Level.empty, level_ids in *.
        destruct (level_orders (Level.cancel x l)); [|done].
        by apply elem_of_nil in Hin'.
      * intros (l0 & Hl0 & Hin).
        destruct (Level.empty (Level.cancel x l)); [done|].
        injection Hl0 as <-. exists l. split; [done|].
        by apply level_ids_cancel in Hin as [? _].
  - intros pb ps. rewrite !Hd'. intros Hb Hsell. apply Hu.
    + destruct (decide (mkLevelPtr BuyLevels pb = p)) as [->|];
        [by rewrite Hd | done].
    + destruct (decide (mkLevelPtr SellLevels ps = p)) as [->|];
        [by rewrite Hd | done].
Qed.

(** The order [(x, q)] comes at the back of the level at [np], which is
    made when the set does not have it. *)
Lemma inv_append b b' x q np :
  book_inv b -> orders_by_id_ b !! x = None -> qty_ok q ->
  sorted_book b' ->
  (forall p', Book.deref p' b'
              = if decide (p' = np)
                then Some (Level.add x q
                             (default (Level.make (ptr_price np))
                                      (Book.deref np b)))
                else Book.deref p' b) ->
  orders_by_id_ b' = <[x := np]> (orders_by_id_ b) ->
  no_cross np b ->
  book_inv b'.
Proof.
  intros [Hs Hl Hi Hu] Hx Hq Hs' Hd' Hm Hnc.
  assert (x ∉ level_ids (default (Level.make (ptr_price np))
                                 (Book.deref np b))) as Hfresh.
  { destruct (Book.deref np b) as [l0|] eqn:E; simpl.
    - intros Hin.
      assert (orders_by_id_ b !! x = Some np) as Hx'
        by (apply Hi; by exists l0).
      congruence.
    - apply not_elem_of_nil. }
  constructor.
  - done.
  - intros p' l0. rewrite Hd'. case_decide; [|apply Hl].
    intros [= <-]. apply level_ok_add; [|done|done].
    destruct (Book.deref np b) as [l0|] eqn:E; simpl; [|by right].
    left. by eapply Hl.
  - intros id p'. rewrite Hm, lookup_insert. unfold resting_at.
    rewrite Hd'. case_decide as Hid.
    + subst id. split.
      * intros [= <-]. rewrite decide_True by done.
        eexists. split; [done|]. rewrite level_ids_add.
        apply elem_of_app. right. by apply list_elem_of_singleton.
      * intros (l0 & Hl0 & Hin). case_decide as Hp; [by subst|].
        assert (orders_by_id_ b !! x = Some p') as Hx'
          by (apply Hi; by exists l0).
        congruence.
    + rewrite Hi. unfold resting_at. case_decide as Hp; [|done].
      subst p'. split.
      * intros (l0 & Hl0 & Hin). eexists. split; [done|].
        rewrite level_ids_add, Hl0. simpl. apply elem_of_app. by left.
      * intros (l0 & [= <-] & Hin). rewrite level_ids_add in Hin.
        apply elem_of_app in Hin as [Hin|Hin%list_elem_of_singleton];
          [|congruence].
        destruct (Book.deref np b) as [l0|]; simpl in Hin; [eauto|].
        by apply elem_of_nil in Hin.
  - intros pb ps. rewrite !Hd'. intros Hb Hsell.
    unfold no_cross in Hnc.
    destruct (decide (mkLevelPtr BuyLevels pb = np)) as [Hb'|Hnb];
      destruct (decide (mkLevelPtr SellLevels ps = np)) as [Hs''|Hns].
    + congruence.
    + rewrite <- Hb' in Hnc. simpl in Hnc. by apply Hnc.
    + rewrite <- Hs'' in Hnc. simpl in Hnc. by apply Hnc.
    + by apply Hu.
Qed.
End InvariantSteps.

(** ** The operations of the book keep its invariant *)

Section BookOperations.
Implicit Types (b : Book) (p : LevelPtr) (l : Level) (x id : OrderID).

Lemma inv_same b b' :
  book_inv b -> sorted_book b' ->
  (forall p', Book.deref p' b' = Book.deref p' b) ->
  orders_by_id_ b' = orders_by_id_ b ->
  book_inv b'.
Proof.
  intros [Hs Hl Hi Hu] Hs' Hd' Hm. constructor.
  - done.
  - intros p' l0. rewrite Hd'. apply Hl.
  - intros id p'. rewrite Hm, Hi. unfold resting_at. by rewrite Hd'.
  - intros pb ps. rewrite !Hd'. apply Hu.
Qed.

Lemma inv_empty : book_inv Book.empty.
Proof.
  constructor.
  - by intros [].
  - by intros [[] ?] l.
  - intros id p. simpl. rewrite lookup_empty. split; [done|].
    by intros (l & Hl & _); destruct p as [[] ?].
  - intros pb ps [l Hl]. done.
Qed.

Lemma cancel_unknown b x :
  orders_by_id_ b !! x = None -> Book.cancel x b = b.
Proof. intros Hx. unfold Book.cancel. by rewrite Hx. Qed.

Lemma cancel_view b x p l :
  sorted_book b -> orders_by_id_ b !! x = Some p ->
  Book.deref p b = Some l ->
  sorted_book (Book.cancel x b)
  /\ (forall p', Book.deref p' (Book.cancel x b)
                 = if decide (p' = p)
                   then (if Level.empty (Level.cancel x l) then None
                         else Some (Level.cancel x l))
                   else Book.deref p' b)
  /\ orders_by_id_ (Book.cancel x b) = delete x (orders_by_id_ b).
Proof.
  intros Hs Hx Hd. unfold Book.cancel. rewrite Hx.
  rewrite erase_if_empty_eq.
  pose proof (sorted_with_level p _ b (level_price_cancel x) Hs) as Hs1.
  pose proof (fun p' => deref_with_level p p' _ b (level_price_cancel x))
    as Hd1.
  rewrite (Hd1 p), decide_True, Hd by done. simpl.
  destruct (Level.empty (Level.cancel x l)) eqn:E.
  - split; [by apply sorted_set_orders, sorted_erase_level|].
    split.
    + intros p'. rewrite deref_set_orders, deref_erase_level by done.
      case_decide; [done|]. rewrite Hd1. by rewrite decide_False.
    + simpl. unfold erase_level. by rewrite orders_set_levels, orders_with_level.
  - split; [by apply sorted_set_orders|].
    split.
    + intros p'. rewrite deref_set_orders, Hd1.
      case_decide; [by rewrite Hd | done].
    + simpl. by rewrite orders_with_level.
Qed.

Lemma inv_cancel b x : book_inv b -> book_inv (Book.cancel x b).
Proof.
  intros Hinv. destruct (orders_by_id_ b !! x) as [p|] eqn:Hx;
    [|by rewrite cancel_unknown].
  destruct (proj1 (inv_index b Hinv x p) Hx) as (l & Hd & Hin).
  destruct (cancel_view b x p l (inv_sorted b Hinv) Hx Hd) as (Hs' & Hd' & Hm).
  by eapply inv_remove.
Qed.

Lemma inv_modify_qty b p x q :
  book_inv b -> qty_ok q ->
  book_inv (Book.with_level p (Level.modify_qty x q) b).
Proof.
  intros Hinv Hq.
  pose proof (sorted_with_level p _ b (level_price_modify_qty x q)
                (inv_sorted b Hinv)) as Hs1.
  pose proof (fun p' => deref_with_level p p' _ b (level_price_modify_qty x q))
    as Hd1.
  destruct (Book.deref p b) as [l|] eqn:Hd.
  - apply (inv_update b _ p l (Level.modify_qty x q l) Hinv Hd Hs1).
    + intros p'. rewrite Hd1. by case_decide.
    + apply orders_with_level.
    + apply level_ok_modify_qty; [by eapply inv_level | done].
    + intros id. by rewrite level_ids_modify_qty.
  - apply (inv_same b _ Hinv Hs1).
    + intros p'. rewrite Hd1. case_decide; [by subst | done].
    + apply orders_with_level.
Qed.

Lemma inv_level_modify b p x q :
  book_inv b -> qty_ok q ->
  book_inv (Book.with_level p (Level.modify x q) b).
Proof.
  intros Hinv Hq.
  pose proof (sorted_with_level p _ b (level_price_modify x q)
                (inv_sorted b Hinv)) as Hs1.
  pose proof (fun p' => deref_with_level p p' _ b (level_price_modify x q))
    as Hd1.
  destruct (Book.deref p b) as [l|] eqn:Hd.
  - apply (inv_update b _ p l (Level.modify x q l) Hinv Hd Hs1).
    + intros p'. rewrite Hd1. by case_decide.
    + apply orders_with_level.
    + apply level_ok_modify; [by eapply inv_level | done].
    + intros id. apply level_ids_modify. by eapply ok_nodup, inv_level.
  - apply (inv_same b _ Hinv Hs1).
    + intros p'. rewrite Hd1. case_decide; [by subst | done].
    + apply orders_with_level.
Qed.

Lemma add_to_live b x q price s :
  is_Some (orders_by_id_ b !! x) -> Book.add_to x q price s b = b.
Proof. intros [p Hx]. unfold Book.add_to. by rewrite Hx. Qed.

Lemma add_to_view b x q price s :
  sorted_book b -> orders_by_id_ b !! x = None ->
  let np := mkLevelPtr s price in
  sorted_book (Book.add_to x q price s b)
  /\ (forall p', Book.deref p' (Book.add_to x q price s b)
                 = if decide (p' = np)
                   then Some (Level.add x q
                                (default (Level.make price) (Book.deref np b)))
                   else Book.deref p' b)
  /\ orders_by_id_ (Book.add_to x q price s b) = <[x := np]> (orders_by_id_ b).
Proof.
  intros Hs Hx np. unfold Book.add_to. rewrite Hx.
  change (Book.set_levels s (LevelSet.emplace price (Book.levels s b)) b)
    with (emplace_level np b).
  fold np.
  assert (forall l, level_price (Level.add x q l) = level_price l) as Hf by done.
  split; [|split].
  - by apply sorted_set_orders, sorted_with_level, sorted_emplace_level.
  - intros p'. rewrite deref_set_orders, deref_with_level by done.
    rewrite !deref_emplace_level. case_decide; [|done].
    by rewrite decide_True.
  - simpl. unfold emplace_level. by rewrite orders_with_level, orders_set_levels.
Qed.

Lemma inv_add_to b x q price s :
  book_inv b -> qty_ok q ->
  (orders_by_id_ b !! x = None -> no_cross (mkLevelPtr s price) b) ->
  book_inv (Book.add_to x q price s b).
Proof.
  intros Hinv Hq Hnc. destruct (orders_by_id_ b !! x) as [p|] eqn:Hx.
  - by rewrite add_to_live.
  - destruct (add_to_view b x q price s (inv_sorted b Hinv) Hx)
      as (Hs' & Hd' & Hm).
    eapply (inv_append b _ x q (mkLevelPtr s price)); try done.
    by apply Hnc.
Qed.
End BookOperations.

Section BookModify.
Implicit Types (b : Book) (p : LevelPtr) (l : Level) (x id : OrderID).

Lemma modify_in_unknown b x q price s :
  orders_by_id_ b !! x = None -> Book.modify_in x q price s b = b.
Proof. intros Hx. unfold Book.modify_in. by rewrite Hx. Qed.

Lemma modify_in_same b x q price s l o :
  orders_by_id_ b !! x = Some (mkLevelPtr s price) ->
  Book.deref (mkLevelPtr s price) b = Some l ->
  find_order x (level_orders l) = Some o ->
  Book.modify_in x q price s b
  = if q =? order_qty o then b
    else Book.with_level (mkLevelPtr s price) (Level.modify x q) b.
Proof.
  intros Hx Hd Ho. unfold Book.modify_in. rewrite Hx, Hd, Ho. simpl.
  rewrite bool_decide_eq_true_2 by done.
  apply deref_price in Hd. simpl in Hd. rewrite Hd, Z.eqb_refl. done.
Qed.

(** Moving the order to another level comes to the same book, seen
    through its pointers, as [cancel] followed by [add] (the variant
    [USE_CANCEL_ADD_FOR_MODIFY] of the source). *)
Lemma modify_in_move_view b x q price s p l :
  book_inv b -> orders_by_id_ b !! x = Some p ->
  Book.deref p b = Some l -> p <> mkLevelPtr s price ->
  let np := mkLevelPtr s price in
  let b' := Book.modify_in x q price s b in
  sorted_book b'
  /\ (forall p', Book.deref p' b'
                 = if decide (p' = np)
                   then Some (Level.add x q
                                (default (Level.make price)
                                   (Book.deref np (Book.cancel x b))))
                   else Book.deref p' (Book.cancel x b))
  /\ orders_by_id_ b' = <[x := np]> (orders_by_id_ (Book.cancel x b)).
Proof.
  intros Hinv Hx Hd Hne np b'.
  pose proof (inv_sorted b Hinv) as Hs.
  destruct (cancel_view b x p l Hs Hx Hd) as (_ & Hdc & Hmc).
  assert (exists o, find_order x (level_orders l) = Some o) as [o Ho].
  { apply find_order_is_Some.
    destruct (proj1 (inv_index b Hinv x p) Hx) as (l0 & Hl0 & Hin).
    assert (l0 = l) as -> by congruence. done. }
  assert (Level.cancel x l
          = mkLevel (Qty.sub (level_qty l) (order_qty o)) (level_price l)
                    (erase_order x (level_orders l))) as Hcl
    by (unfold Level.cancel; by rewrite Ho).
  subst b'. unfold Book.modify_in. rewrite Hx, Hd, Ho.
  replace (bool_decide (ptr_levels p = s) && (level_price l =? price))
    with false; cycle 1.
  { symmetry. apply andb_false_iff.
    destruct (decide (ptr_levels p = s)) as [Hps|Hps];
      [right | left; by apply bool_decide_eq_false_2].
    apply Z.eqb_neq. rewrite (deref_price _ _ _ Hd).
    intros Hpp. apply Hne. destruct p; simpl in *; congruence. }
  change (Book.set_levels s (LevelSet.emplace price (Book.levels s b)) b)
    with (emplace_level np b).
  fold np.
  set (fa := fun nl : Level =>
               mkLevel (Qty.add (level_qty nl) q) (level_price nl)
                       (level_orders nl ++ [mkOrder x q])).
  set (fe := fun l0 : Level =>
               mkLevel (level_qty l0) (level_price l0)
                       (erase_order x (level_orders l0))).
  set (fs := fun l0 : Level =>
               mkLevel (Qty.sub (level_qty l0) (order_qty o))
                       (level_price l0) (level_orders l0)).
  set (b2 := Book.with_level np fa (emplace_level np b)).
  set (b3 := Book.with_level p fe b2).
  assert (sorted_book b3) as Hs3.
  { apply sorted_with_level; [done|].
    apply sorted_with_level; [done|]. by apply sorted_emplace_level. }
  assert (forall p', Book.deref p' b3
                     = if decide (p' = p) then Some (fe l)
                       else if decide (p' = np)
                            then Some (fa (default (Level.make price)
                                             (Book.deref np b)))
                            else Book.deref p' b) as Hd3.
  { intros p'. unfold b3, b2.
    rewrite !deref_with_level by done.
    rewrite !deref_emplace_level.
    rewrite (decide_False (P := p = np)) by done.
    rewrite (decide_True (P := np = np)) by done.
    rewrite Hd. simpl. repeat case_decide; first [done | by subst]. }
  change (Book.set_levels (ptr_levels p)
            (LevelSet.erase (ptr_price p) (Book.levels (ptr_levels p) b3)) b3)
    with (erase_level p b3).
  rewrite (Hd3 p), decide_True by done.
  assert (Book.deref np (Book.cancel x b) = Book.deref np b) as Hnp.
  { rewrite Hdc. by rewrite decide_False. }
  rewrite Hnp.
  replace (Level.empty (fe l)) with (Level.empty (Level.cancel x l))
    by (by rewrite Hcl).
  destruct (Level.empty (Level.cancel x l)) eqn:E.
  - split; [by apply sorted_set_orders, sorted_erase_level|].
    split.
    + intros p'. rewrite deref_set_orders, deref_erase_level, Hd3, Hdc by done.
      repeat case_decide; first [done | by subst].
    + simpl. unfold erase_level.
      rewrite orders_set_levels. unfold b3, b2, emplace_level.
      rewrite !orders_with_level, orders_set_levels, Hmc.
      by rewrite insert_delete_eq.
  - split; [by apply sorted_set_orders, sorted_with_level|].
    split.
    + intros p'.
      rewrite deref_set_orders, deref_with_level, !Hd3, Hdc by done.
      rewrite (decide_True (P := p = p)) by done.
      repeat case_decide; first [done | by subst | idtac].
      simpl. by rewrite Hcl.
    + simpl. unfold b3, b2, emplace_level.
      rewrite !orders_with_level, orders_set_levels, Hmc.
      by rewrite insert_delete_eq.
Qed.

Lemma inv_modify_in b x q price s :
  book_inv b -> qty_ok q ->
  no_cross (mkLevelPtr s price) (Book.cancel x b) ->
  book_inv (Book.modify_in x q price s b).
Proof.
  intros Hinv Hq Hnc.
  destruct (orders_by_id_ b !! x) as [p|] eqn:Hx;
    [|by rewrite modify_in_unknown].
  destruct (proj1 (inv_index b Hinv x p) Hx) as (l & Hd & Hin).
  destruct (decide (p = mkLevelPtr s price)) as [->|Hne].
  - apply find_order_is_Some in Hin as [o Ho].
    rewrite (modify_in_same _ _ _ _ _ _ _ Hx Hd Ho).
    destruct (q =? order_qty o); [done|]. by apply inv_level_modify.
  - destruct (modify_in_move_view b x q price s p l Hinv Hx Hd Hne)
      as (Hs' & Hd' & Hm).
    eapply (inv_append (Book.cancel x b) _ x q (mkLevelPtr s price)); try done.
    + by apply inv_cancel.
    + destruct (cancel_view b x p l (inv_sorted b Hinv) Hx Hd) as (_ & _ & Hmc).
      rewrite Hmc. apply lookup_delete_eq.
Qed.
End BookModify.

(** ** The loops of [match] are the walk *)

Section Walk.
Implicit Types (es : list (LevelPtr * Order)) (id : OrderID).

Lemma fill_walk_app id price es1 es2 leaves :
  fill_walk id price (es1 ++ es2) leaves
  = match fill_walk id price es1 leaves with
    | (l1, ts1, true) => (l1, ts1, true)
    | (l1, ts1, false) =>
        let '(l2, ts2, stop) := fill_walk id price es2 l1 in
        (l2, ts1 ++ ts2, stop)
    end.
Proof.
  revert leaves. induction es1 as [|e es1 IH]; intros leaves; simpl.
  - by destruct (fill_walk id price es2 leaves) as [[? ?] ?].
  - destruct (Qty.is_zero _); [done|]. rewrite IH.
    destruct (fill_walk id price es1 _) as [[l1 ts1] [|]]; [done|].
    by destruct (fill_walk id price es2 l1) as [[? ?] ?].
Qed.

Lemma match_queue_walk id price s l leaves trades :
  Book.match_queue id price (mkLevelPtr s (level_price l))
    (level_orders l) leaves trades
  = let '(leaves', ts, stop) :=
      fill_walk id price (eligible_level id s l) leaves in
    (leaves', trades ++ ts, stop).
Proof.
  unfold eligible_level.
  generalize (level_orders l) as queue. intros queue.
  revert leaves trades. induction queue as [|o queue IH];
    intros leaves trades; simpl.
  - by rewrite app_nil_r.
  - destruct (String.eqb id (order_id o)); [apply IH|]. csimpl.
    unfold trade_with at 1 2. simpl.
    destruct (Qty.is_zero _); [done|]. rewrite IH.
    destruct (fill_walk id price _ _) as [[l1 ts1] st].
    by rewrite <- app_assoc.
Qed.

Lemma match_range_walk id price s compatible range leaves trades :
  Book.match_range id price s compatible range leaves trades
  = let '(leaves', ts, _) :=
      fill_walk id price (eligible id price s compatible range) leaves in
    (leaves', trades ++ ts).
Proof.
  revert leaves trades. induction range as [|l range IH];
    intros leaves trades; simpl.
  - by rewrite app_nil_r.
  - destruct (compatible price (level_price l)); simpl;
      [|by rewrite app_nil_r].
    rewrite match_queue_walk, fill_walk_app.
    destruct (fill_walk id price (eligible_level id s l) leaves)
      as [[l1 ts1] [|]]; [done|].
    rewrite IH.
    destruct (fill_walk id price _ l1) as [[l2 ts2] st].
    by rewrite <- app_assoc.
Qed.
End Walk.

Section WalkFacts.
Implicit Types (es : list (LevelPtr * Order)) (id : OrderID).

Lemma sub_min_small leaves q :
  is_uint64 leaves -> qty_ok q ->
  Qty.sub leaves (Z.min leaves q) = leaves - Z.min leaves q.
Proof.
  unfold is_uint64, qty_ok, Qty.sub. intros Hl Hq.
  apply wrap64_small. lia.
Qed.

Lemma fill_walk_spec id price es leaves l ts stop :
  is_uint64 leaves -> Forall (fun e => qty_ok (order_qty (snd e))) es ->
  fill_walk id price es leaves = (l, ts, stop) ->
  0 <= l <= leaves
  /\ entry_of <$> ts = take (length ts) es
  /\ Forall (trade_ok id price) ts
  /\ (stop = true -> l = 0)
  /\ (l <> 0 -> length ts = length es /\ Forall full_fill ts).
Proof.
  intros Hl Hes. revert leaves l ts stop Hl.
  induction Hes as [|e es He Hes IH]; intros leaves l ts stop Hl; simpl.
  - intros [= <- <- <-]. unfold is_uint64 in Hl.
    repeat split; try done; lia.
  - rewrite sub_min_small by done.
    assert (trade_ok id price (trade_with id price leaves e)) as Hok.
    { constructor; simpl; try done. unfold is_uint64, qty_ok in *. lia. }
    unfold Qty.is_zero.
    destruct (Z.eqb_spec (leaves - Z.min leaves (order_qty (snd e))) 0)
      as [Hz|Hz].
    + intros [= <- <- <-]. unfold is_uint64, qty_ok in *.
      split; [lia|]. split; [by destruct e|].
      split; [by apply Forall_singleton|]. split; [done|]. lia.
    + destruct (fill_walk id price es _) as [[l1 ts1] st1] eqn:E.
      intros [= <- <- <-].
      apply IH in E as (Hl1 & Hts & Htr & Hst & Hfull);
        [|unfold is_uint64, qty_ok in *; lia].
      unfold is_uint64, qty_ok in *.
      split; [lia|]. split; [csimpl; rewrite Hts; by destruct e|].
      split; [by constructor|]. split; [done|].
      intros Hnz. destruct (Hfull Hnz) as [Hlen Hff].
      split; [simpl; by f_equal|]. constructor; [|done].
      unfold full_fill. simpl. lia.
Qed.

Lemma elem_of_others id (queue : list Order) o :
  o ∈ others id queue <-> o ∈ queue /\ order_id o <> id.
Proof.
  induction queue as [|x queue IH]; simpl.
  - split; [intros Hin | intros [Hin _]]; by apply elem_of_nil in Hin.
  - destruct (String.eqb_spec id (order_id x)) as [Heq|Hne].
    + rewrite IH, elem_of_cons. split; [by intuition|].
      intros [[->|Hin] Hne]; [done | by split].
    + rewrite !elem_of_cons, IH. split.
      * intros [->|[Hin Hne']]; [split; [by left | congruence] | by split; [right|]].
      * intros [[->|Hin] Hne']; [by left | by right].
Qed.

Lemma others_none id (queue : list Order) :
  id ∉ queue_ids queue -> others id queue = queue.
Proof.
  unfold queue_ids. induction queue as [|x queue IH]; csimpl; [done|].
  rewrite not_elem_of_cons. intros [Hne Hq].
  destruct (String.eqb_spec id (order_id x)); [done|]. by rewrite IH.
Qed.

Lemma elem_of_eligible_level id s l e :
  e ∈ eligible_level id s l
  <-> fst e = mkLevelPtr s (level_price l)
      /\ snd e ∈ level_orders l /\ order_id (snd e) <> id.
Proof.
  unfold eligible_level. rewrite list_elem_of_fmap. split.
  - intros (o & -> & Ho). by apply elem_of_others in Ho.
  - intros (Hp & Ho). exists (snd e). split; [destruct e; simpl in *; by subst|].
    by apply elem_of_others.
Qed.

(** Every entry of the walk is an order of a compatible level of the
    range. *)
Lemma elem_of_eligible id price s compatible range e :
  e ∈ eligible id price s compatible range ->
  exists l, l ∈ range /\ compatible price (level_price l) = true
            /\ fst e = mkLevelPtr s (level_price l)
            /\ snd e ∈ level_orders l /\ order_id (snd e) <> id.
Proof.
  induction range as [|l range IH]; simpl.
  - intros Hin. by apply elem_of_nil in Hin.
  - destruct (compatible price (level_price l)) eqn:E;
      [|intros Hin; by apply elem_of_nil in Hin].
    intros [Hin|Hin]%elem_of_app.
    + apply elem_of_eligible_level in Hin. exists l.
      split; [by left | done].
    + destruct (IH Hin) as (l' & Hl' & Hrest). exists l'.
      split; [by right | done].
Qed.

(** When compatibility, once lost along the range, stays lost, the walk
    has every order of every compatible level. *)
Lemma eligible_complete id price s compatible range l o :
  (forall l1 rest l2, (l1 :: rest) `suffix_of` range -> l2 ∈ rest ->
     compatible price (level_price l2) = true ->
     compatible price (level_price l1) = true) ->
  l ∈ range -> compatible price (level_price l) = true ->
  o ∈ level_orders l -> order_id o <> id ->
  (mkLevelPtr s (level_price l), o) ∈ eligible id price s compatible range.
Proof.
  induction range as [|l1 range IH]; simpl.
  - intros _ Hin. by apply elem_of_nil in Hin.
  - intros Hmono Hin Hc Ho Hne.
    assert (compatible price (level_price l1) = true) as ->.
    { apply elem_of_cons in Hin as [<-|Hin]; [done|].
      by apply (Hmono l1 range l). }
    apply elem_of_app. apply elem_of_cons in Hin as [<-|Hin].
    + left. by apply elem_of_eligible_level.
    + right. apply IH; try done.
      intros l1' rest l2 Hsuf. apply Hmono. by apply suffix_cons_r.
Qed.
End WalkFacts.

(** ** Applying the fills *)

Section FillFacts.
Implicit Types (b : Book) (t : Trade) (ts : Trades) (x id : OrderID).

Lemma fill_sub_small id price t :
  trade_ok id price t ->
  Qty.sub (order_qty (passive_order t)) (order_qty (aggressive_order t))
  = order_qty (passive_order t) - order_qty (aggressive_order t).
Proof.
  intros [Hle Hq _ _ _]. unfold Qty.sub, qty_ok in *.
  apply wrap64_small. lia.
Qed.

Lemma fill_order_full id price t b :
  trade_ok id price t -> full_fill t ->
  Book.fill_order t b = (t, Book.cancel (passive_id t) b).
Proof.
  intros Hok Hfull. unfold Book.fill_order.
  rewrite (fill_sub_small _ _ _ Hok). unfold full_fill in Hfull.
  rewrite Hfull, Z.sub_diag. done.
Qed.

Lemma fill_order_partial id price t b :
  trade_ok id price t -> ~ full_fill t ->
  Book.fill_order t b
  = (normalized t,
     Book.with_level (passive_level t)
       (Level.modify_qty (passive_id t)
          (order_qty (passive_order t) - order_qty (aggressive_order t))) b).
Proof.
  intros Hok Hfull. unfold Book.fill_order.
  rewrite (fill_sub_small _ _ _ Hok). unfold full_fill in Hfull.
  unfold Qty.is_zero.
  destruct (Z.eqb_spec (order_qty (passive_order t)
                        - order_qty (aggressive_order t)) 0); [lia|].
  done.
Qed.

Lemma full_fill_normalized t : full_fill t -> normalized t = t.
Proof.
  unfold full_fill, normalized, passive_id. intros ->.
  by destruct t as [? [? ?] ? ? ?].
Qed.

Lemma full_fill_dec t : {full_fill t} + {~ full_fill t}.
Proof. unfold full_fill. apply Z.eq_dec. Qed.

Lemma fill_order_trade id price t b :
  trade_ok id price t -> fst (Book.fill_order t b) = normalized t.
Proof.
  intros Hok. destruct (full_fill_dec t) as [Hf|Hf].
  - rewrite (fill_order_full _ _ _ _ Hok Hf). simpl.
    by rewrite full_fill_normalized.
  - by rewrite (fill_order_partial _ _ _ _ Hok Hf).
Qed.

Lemma fill_order_inv id price t b :
  trade_ok id price t -> book_inv b -> book_inv (snd (Book.fill_order t b)).
Proof.
  intros Hok Hinv. destruct (full_fill_dec t) as [Hf|Hf].
  - rewrite (fill_order_full _ _ _ _ Hok Hf). simpl. by apply inv_cancel.
  - rewrite (fill_order_partial _ _ _ _ Hok Hf). simpl.
    apply inv_modify_qty; [done|].
    destruct Hok as [Hle Hq _ _ _]. unfold full_fill, qty_ok in *. lia.
Qed.

Lemma orders_cancel b x :
  orders_by_id_ (Book.cancel x b) = delete x (orders_by_id_ b).
Proof.
  unfold Book.cancel. destruct (orders_by_id_ b !! x) as [p|] eqn:Hx.
  - simpl. rewrite erase_if_empty_eq.
    destruct (Book.deref p _) as [l|]; [|by rewrite orders_with_level].
    destruct (Level.empty l); [|by rewrite orders_with_level].
    unfold erase_level. by rewrite orders_set_levels, orders_with_level.
  - symmetry. by apply delete_id.
Qed.

Lemma fill_order_orders id price t b :
  trade_ok id price t ->
  orders_by_id_ (snd (Book.fill_order t b))
  = if full_fill_dec t then delete (passive_id t) (orders_by_id_ b)
    else orders_by_id_ b.
Proof.
  intros Hok. destruct (full_fill_dec t) as [Hf|Hf].
  - rewrite (fill_order_full _ _ _ _ Hok Hf). apply orders_cancel.
  - rewrite (fill_order_partial _ _ _ _ Hok Hf). apply orders_with_level.
Qed.

Lemma fill_orders_cons t ts b :
  Book.fill_orders (t :: ts) b
  = (fst (Book.fill_order t b)
       :: fst (Book.fill_orders ts (snd (Book.fill_order t b))),
     snd (Book.fill_orders ts (snd (Book.fill_order t b)))).
Proof.
  simpl. destruct (Book.fill_order t b) as [t' b1]. simpl.
  by destruct (Book.fill_orders ts b1).
Qed.

Lemma fill_orders_trades id price ts b :
  Forall (trade_ok id price) ts ->
  fst (Book.fill_orders ts b) = normalized <$> ts.
Proof.
  intros Hts. revert b. induction Hts as [|t ts Ht Hts IH]; intros b.
  - done.
  - rewrite fill_orders_cons. csimpl.
    by rewrite (fill_order_trade _ _ _ _ Ht), IH.
Qed.

Lemma fill_orders_inv id price ts b :
  Forall (trade_ok id price) ts -> book_inv b ->
  book_inv (snd (Book.fill_orders ts b)).
Proof.
  intros Hts. revert b. induction Hts as [|t ts Ht Hts IH]; intros b Hinv.
  - done.
  - rewrite fill_orders_cons. simpl. apply IH. by eapply fill_order_inv.
Qed.

(** [fill_orders] only takes ids out of the index. *)
Lemma fill_orders_lookup_Some id price ts b x p :
  Forall (trade_ok id price) ts ->
  orders_by_id_ (snd (Book.fill_orders ts b)) !! x = Some p ->
  orders_by_id_ b !! x = Some p.
Proof.
  intros Hts. revert b. induction Hts as [|t ts Ht Hts IH]; intros b.
  - done.
  - rewrite fill_orders_cons. simpl. intros Hx%IH.
    rewrite (fill_order_orders _ _ _ _ Ht) in Hx.
    destruct (full_fill_dec t); [|done].
    by apply lookup_delete_Some in Hx as [_ ?].
Qed.

Lemma fill_orders_lookup_full id price ts b t :
  Forall (trade_ok id price) ts -> t ∈ ts -> full_fill t ->
  orders_by_id_ (snd (Book.fill_orders ts b)) !! passive_id t = None.
Proof.
  intros Hts. revert b. induction Hts as [|t' ts Ht' Hts IH]; intros b.
  - intros Hin. by apply elem_of_nil in Hin.
  - rewrite fill_orders_cons. simpl.
    intros [->|Hin]%elem_of_cons Hfull; [|by apply IH].
    destruct (orders_by_id_ (snd (Book.fill_orders ts _)) !! _)
      as [p|] eqn:E; [|done].
    apply (fill_orders_lookup_Some _ _ _ _ _ _ Hts) in E.
    rewrite (fill_order_orders _ _ _ _ Ht') in E.
    destruct (full_fill_dec t'); [|done].
    by rewrite lookup_delete_eq in E.
Qed.

Lemma fill_orders_lookup_other id price ts b x :
  Forall (trade_ok id price) ts ->
  x ∉ (passive_id <$> ts) ->
  orders_by_id_ (snd (Book.fill_orders ts b)) !! x = orders_by_id_ b !! x.
Proof.
  intros Hts. revert b. induction Hts as [|t ts Ht Hts IH]; intros b.
  - done.
  - rewrite fill_orders_cons. csimpl.
    intros [Hne Hx]%not_elem_of_cons. rewrite IH by done.
    rewrite (fill_order_orders _ _ _ _ Ht).
    destruct (full_fill_dec t); [|done]. by rewrite lookup_delete_ne.
Qed.
End FillFacts.

(** ** [Book::match] *)

Section MatchFacts.
Implicit Types (b : Book) (t : Trade) (ts : Trades) (x id : OrderID).

Lemma match_side_walk side id qty price trades b :
  Book.match_side side id qty price trades b
  = let '(leaves, ts, _) := fill_walk id price (walk side id price b) qty in
    (leaves, trades ++ ts).
Proof.
  unfold Book.match_side, walk. destruct side; simpl.
  - apply match_range_walk.
  - apply match_range_walk.
  - by rewrite app_nil_r.
Qed.

Lemma match_eq side id qty price trades b :
  Book.match_ side id qty price trades b
  = let '(leaves, ts, _) := fill_walk id price (walk side id price b) qty in
    let '(ts', b') := Book.fill_orders (trades ++ ts) b in
    (leaves, ts', b').
Proof.
  unfold Book.match_. rewrite match_side_walk.
  by destruct (fill_walk id price _ qty) as [[l ts] st].
Qed.

Lemma sorted_desc_app (l1 l2 : list Level) :
  sorted_desc (l1 ++ l2)
  <-> sorted_desc l1 /\ sorted_desc l2
      /\ Forall (fun hi => Forall (fun lo => level_price lo < level_price hi) l2) l1.
Proof.
  induction l1 as [|hd l1 IH]; simpl.
  - split; [intros ?; by repeat split | by intros (_ & ? & _)].
  - rewrite IH, Forall_app, Forall_cons. tauto.
Qed.

Lemma best_first_levels side b l :
  side <> SideInvalid ->
  l ∈ best_first side b <-> l ∈ Book.levels (opposite_set side) b.
Proof.
  destruct side; simpl; try done; intros _. apply elem_of_reverse.
Qed.

Lemma best_first_mono side price b l1 rest l2 :
  sorted_book b ->
  (l1 :: rest) `suffix_of` best_first side b -> l2 ∈ rest ->
  compatible side price (level_price l2) = true ->
  compatible side price (level_price l1) = true.
Proof.
  intros Hs [pre Hsuf] Hin. destruct side; simpl in *.
  - pose proof (Hs SellLevels) as Hsl. simpl in Hsl.
    apply (f_equal reverse) in Hsuf.
    rewrite reverse_involutive, reverse_app, reverse_cons in Hsuf.
    rewrite <- app_assoc in Hsuf. simpl in Hsuf. rewrite Hsuf in Hsl.
    apply sorted_desc_app in Hsl as (_ & _ & Hlt).
    rewrite Forall_forall in Hlt.
    assert (l2 ∈ reverse rest) as Hin' by (by apply elem_of_reverse).
    specialize (Hlt _ Hin'). apply Forall_cons in Hlt as [Hlt _].
    intros Hc. apply Z.geb_le in Hc. apply Z.geb_le. lia.
  - pose proof (Hs BuyLevels) as Hbl. simpl in Hbl. rewrite Hsuf in Hbl.
    apply sorted_desc_app in Hbl as (_ & [Hlt _] & _).
    rewrite Forall_forall in Hlt. specialize (Hlt _ Hin).
    intros Hc. apply Z.leb_le in Hc. apply Z.leb_le. lia.
  - done.
Qed.

(** The entries of the walk rest in the book, on the opposite side, at a
    compatible price. *)
Lemma walk_sound side id price b e :
  sorted_book b -> e ∈ walk side id price b ->
  ptr_levels (fst e) = opposite_set side
  /\ compatible side price (ptr_price (fst e)) = true
  /\ order_id (snd e) <> id
  /\ exists l, Book.deref (fst e) b = Some l /\ snd e ∈ level_orders l.
Proof.
  intros Hs (l & Hl & Hc & Hp & Ho & Hne)%elem_of_eligible.
  assert (side <> SideInvalid) as Hside by (by destruct side).
  rewrite Hp. simpl. repeat split; try done.
  exists l. split; [|done]. apply elem_deref; [done|].
  by apply best_first_levels.
Qed.

(** The walk has every order of the opposite side that rests at a
    compatible price and does not carry the aggressive id. *)
Lemma walk_complete side id price b p l o :
  sorted_book b -> ptr_levels p = opposite_set side ->
  Book.deref p b = Some l ->
  compatible side price (ptr_price p) = true ->
  o ∈ level_orders l -> order_id o <> id ->
  (p, o) ∈ walk side id price b.
Proof.
  intros Hs Hp Hd Hc Ho Hne.
  assert (side <> SideInvalid) as Hside by (by destruct side).
  pose proof (deref_price _ _ _ Hd) as Hpr.
  pose proof (deref_elem _ _ _ Hd) as Hin. rewrite Hp in Hin.
  replace p with (mkLevelPtr (opposite_set side) (level_price l))
    by (destruct p; simpl in *; congruence).
  apply eligible_complete; try done.
  - intros l1 rest l2. by apply best_first_mono.
  - by apply best_first_levels.
  - by rewrite Hpr.
Qed.
End MatchFacts.

Section MatchInvariant.
Implicit Types (b : Book) (t : Trade) (ts : Trades) (x id : OrderID).

Lemma walk_qty_ok side id price b :
  book_inv b ->
  Forall (fun e => qty_ok (order_qty (snd e))) (walk side id price b).
Proof.
  intros Hinv. apply Forall_forall. intros e He.
  apply walk_sound in He as (_ & _ & _ & l & Hd & Ho);
    [|exact (inv_sorted b Hinv)].
  pose proof (ok_qty l (inv_level b Hinv _ _ Hd)) as Hq.
  rewrite Forall_forall in Hq. by apply Hq.
Qed.

(** [match] on an empty trade buffer, in terms of the walk. *)
Lemma match_spec side id qty price b leaves ts b' :
  book_inv b -> is_uint64 qty ->
  Book.match_ side id qty price [] b = (leaves, ts, b') ->
  exists ts0 stop,
    fill_walk id price (walk side id price b) qty = (leaves, ts0, stop)
    /\ Forall (trade_ok id price) ts0
    /\ ts = normalized <$> ts0
    /\ b' = snd (Book.fill_orders ts0 b)
    /\ book_inv b'
    /\ 0 <= leaves <= qty.
Proof.
  intros Hinv Hq. rewrite match_eq.
  destruct (fill_walk id price (walk side id price b) qty)
    as [[l0 ts0] stop] eqn:E. simpl.
  destruct (Book.fill_orders ts0 b) as [ts1 b1] eqn:F.
  intros [= <- <- <-]. exists ts0, stop.
  destruct (fill_walk_spec _ _ _ _ _ _ _ Hq (walk_qty_ok side id price b Hinv) E)
    as (Hle & _ & Hok & _).
  split; [done|]. split; [done|].
  split; [by rewrite <- (fill_orders_trades _ _ _ b Hok), F|].
  split; [by rewrite F|]. split; [|done].
  replace b1 with (snd (Book.fill_orders ts0 b)) by (by rewrite F).
  by eapply fill_orders_inv.
Qed.

Lemma match_inv side id qty price b :
  book_inv b -> is_uint64 qty ->
  book_inv (snd (Book.match_ side id qty price [] b)).
Proof.
  intros Hinv Hq.
  destruct (Book.match_ side id qty price [] b) as [[l ts] b'] eqn:E.
  by destruct (match_spec _ _ _ _ _ _ _ _ Hinv Hq E) as (? & ? & _ & _ & _ & _ & ? & _).
Qed.

(** An order that still rests after [match] rested before it, in the
    same level. *)
Lemma match_resting side id qty price b leaves ts b' x p :
  book_inv b -> is_uint64 qty ->
  Book.match_ side id qty price [] b = (leaves, ts, b') ->
  resting_at b' x p -> resting_at b x p.
Proof.
  intros Hinv Hq E Hr.
  destruct (match_spec _ _ _ _ _ _ _ _ Hinv Hq E)
    as (ts0 & stop & _ & Hok & _ & -> & Hinv' & _).
  apply (inv_index _ Hinv). apply (inv_index _ Hinv') in Hr.
  by eapply fill_orders_lookup_Some.
Qed.

(** With a quantity left, [match] has taken every other order that
    rested at a compatible price on the opposite side. *)
Lemma match_clears side id qty price b leaves ts b' x p :
  book_inv b -> is_uint64 qty ->
  Book.match_ side id qty price [] b = (leaves, ts, b') ->
  leaves <> 0 ->
  ptr_levels p = opposite_set side ->
  compatible side price (ptr_price p) = true ->
  resting_at b' x p -> x = id.
Proof.
  intros Hinv Hq E Hnz Hp Hc Hr.
  destruct (decide (x = id)) as [|Hne]; [done|]. exfalso.
  pose proof (match_resting _ _ _ _ _ _ _ _ _ _ Hinv Hq E Hr)
    as (l & Hd & Hin).
  destruct (match_spec _ _ _ _ _ _ _ _ Hinv Hq E)
    as (ts0 & stop & Hw & Hok & _ & -> & Hinv' & _).
  apply find_order_is_Some in Hin as [o Ho].
  apply find_order_Some in Ho as [Ho Hid].
  assert ((p, o) ∈ walk side id price b) as Hwalk.
  { eapply walk_complete; try done; [exact (inv_sorted b Hinv) | congruence]. }
  destruct (fill_walk_spec _ _ _ _ _ _ _ Hq (walk_qty_ok side id price b Hinv) Hw)
    as (_ & Hent & _ & _ & Hfull).
  destruct (Hfull Hnz) as [Hlen Hff].
  rewrite Hlen, firstn_all in Hent. rewrite <- Hent in Hwalk.
  apply list_elem_of_fmap in Hwalk as (t & Ht & Htin).
  rewrite Forall_forall in Hff.
  pose proof (fill_orders_lookup_full _ _ _ b _ Hok Htin (Hff _ Htin)) as Hnone.
  apply (inv_index _ Hinv') in Hr.
  unfold entry_of in Ht. injection Ht as _ Ht.
  unfold passive_id in Hnone. rewrite <- Ht, Hid in Hnone. congruence.
Qed.
End MatchInvariant.

(** ** The engine keeps the invariant of its book *)

Section EngineInvariant.
Implicit Types (b : Book) (e : MatchingEngine) (x id : OrderID).

Lemma handle_msg_engine m cp :
  matching_engine_ (CommandProcessor.handle_msg m cp)
  = engine_step m (matching_engine_ cp).
Proof. by destruct m. Qed.

Lemma match_no_cross side id qty price b leaves ts b1 b2 :
  side <> SideInvalid -> book_inv b -> is_uint64 qty ->
  Book.match_ side id qty price [] b = (leaves, ts, b1) ->
  leaves <> 0 -> book_inv b2 ->
  (forall x p, resting_at b2 x p -> resting_at b1 x p /\ x <> id) ->
  no_cross (mkLevelPtr (own_set side) price) b2.
Proof.
  intros Hside Hinv Hq E Hnz Hinv2 Hsub.
  assert (forall p l, ptr_levels p = opposite_set side ->
                      Book.deref p b2 = Some l ->
                      compatible side price (ptr_price p) = false) as Hkey.
  { intros p l Hp Hd.
    destruct (compatible side price (ptr_price p)) eqn:Hc; [|done]. exfalso.
    pose proof (inv_level b2 Hinv2 _ _ Hd) as Hok.
    destruct (level_orders l) as [|o qu] eqn:Hl; [by destruct Hok|].
    assert (resting_at b2 (order_id o) p) as Hr.
    { exists l. split; [done|]. unfold level_ids, queue_ids. rewrite Hl.
      csimpl. by left. }
    apply Hsub in Hr as [Hr Hne]. apply Hne.
    exact (match_clears side id qty price b leaves ts b1 (order_id o) p
             Hinv Hq E Hnz Hp Hc Hr). }
  unfold no_cross. destruct side; simpl; try done.
  - intros ps [l Hd].
    specialize (Hkey (mkLevelPtr SellLevels ps) l eq_refl Hd).
    simpl in Hkey. destruct (Z.geb_spec price ps); [done | lia].
  - intros pb [l Hd].
    specialize (Hkey (mkLevelPtr BuyLevels pb) l eq_refl Hd).
    simpl in Hkey. destruct (Z.leb_spec price pb); [done | lia].
Qed.

Lemma add_eq side id qty price b :
  side <> SideInvalid ->
  Book.add side id qty price b = Book.add_to id qty price (own_set side) b.
Proof. by destruct side. Qed.

Lemma modify_eq side id qty price b :
  side <> SideInvalid ->
  Book.modify side id qty price b
  = Book.modify_in id qty price (own_set side) b.
Proof. by destruct side. Qed.

Lemma handle_add_inv side msg e :
  side <> SideInvalid -> add_order_ok msg -> book_inv (book_ e) ->
  book_inv (book_ (MatchingEngine.handle_add side msg e)).
Proof.
  intros Hside (Hv & Hp & Hq) Hinv. unfold MatchingEngine.handle_add.
  destruct (Book.match_ _ _ _ _ _ _) as [[leaves ts] b1] eqn:E.
  destruct (match_spec _ _ _ _ _ _ _ _ Hinv Hq E)
    as (ts0 & stop & _ & _ & _ & _ & Hinv1 & Hle).
  unfold Qty.is_zero. destruct (Z.eqb_spec leaves 0) as [Hz|Hz]; [done|].
  destruct (add_tif msg); simpl; try done.
  rewrite add_eq by done. apply inv_add_to; [done| |].
  - unfold qty_ok, is_uint64 in *. lia.
  - intros Hx.
    apply (match_no_cross side (add_order_id msg) (add_qty msg)
             (add_price msg) (book_ e) leaves ts b1 b1
             Hside Hinv Hq E Hz Hinv1).
    intros x p Hr. split; [done|]. intros ->.
    apply (inv_index _ Hinv1) in Hr. congruence.
Qed.

Lemma handle_modify_inv msg e :
  modify_order_ok msg -> book_inv (book_ e) ->
  book_inv (book_ (MatchingEngine.handle_modify msg e)).
Proof.
  intros (Hv & Hp & Hq) Hinv. unfold MatchingEngine.handle_modify.
  destruct (Book.match_ _ _ _ _ _ _) as [[leaves ts] b1] eqn:E.
  destruct (match_spec _ _ _ _ _ _ _ _ Hinv Hq E)
    as (ts0 & stop & _ & _ & _ & _ & Hinv1 & Hle).
  assert (modify_side msg <> SideInvalid) as Hside.
  { unfold ModifyOrder.is_valid, ModifyOrder.is_invalid in Hv.
    intros Heq. rewrite Heq in Hv. simpl in Hv.
    by destruct (string_empty (modify_order_id msg)). }
  unfold Qty.is_zero. destruct (Z.eqb_spec leaves 0) as [Hz|Hz]; simpl.
  - by apply inv_cancel.
  - rewrite modify_eq by done. apply inv_modify_in; [done| |].
    + unfold qty_ok, is_uint64 in *. lia.
    + apply (match_no_cross (modify_side msg) (modify_order_id msg)
               (modify_qty msg) (modify_price msg) (book_ e) leaves ts b1
               (Book.cancel (modify_order_id msg) b1)
               Hside Hinv Hq E Hz (inv_cancel _ _ Hinv1)).
      intros x p Hr.
      apply (inv_index _ (inv_cancel _ (modify_order_id msg) Hinv1)) in Hr.
      rewrite orders_cancel in Hr. apply lookup_delete_Some in Hr as [Hne Hr].
      split; [by apply (inv_index _ Hinv1) | done].
Qed.

Lemma engine_step_inv m e :
  msg_ok m -> book_inv (book_ e) -> book_inv (book_ (engine_step m e)).
Proof.
  destruct m as [msg|msg|msg|msg| |]; simpl; intros Hok Hinv.
  - by apply handle_add_inv.
  - by apply handle_add_inv.
  - by apply inv_cancel.
  - by apply handle_modify_inv.
  - done.
  - apply inv_empty.
Qed.

Lemma reachable_inv e : reachable e -> book_inv (book_ e).
Proof.
  induction 1 as [|e m _ IH Hok]; [apply inv_empty|].
  by apply engine_step_inv.
Qed.
End EngineInvariant.

(** ** What the fills leave alone, and what they change *)

Section Frame.
Implicit Types (b : Book) (p : LevelPtr) (t : Trade) (x y id : OrderID).

Lemma order_at_resting b p x o :
  order_at b p x = Some o -> resting_at b x p.
Proof.
  unfold order_at, resting_at.
  destruct (Book.deref p b) as [l|]; [|done]. intros Ho.
  exists l. split; [done|]. apply elem_of_queue_ids. eauto.
Qed.

Lemma order_at_index b p x o :
  book_inv b -> order_at b p x = Some o -> orders_by_id_ b !! x = Some p.
Proof. intros Hinv Ho. eapply inv_index, order_at_resting; done. Qed.

Lemma order_at_cancel b p x y :
  book_inv b ->
  order_at (Book.cancel y b) p x
  = if decide (x = y) then None else order_at b p x.
Proof.
  intros Hinv. unfold order_at.
  destruct (orders_by_id_ b !! y) as [py|] eqn:Hy.
  - destruct (proj1 (inv_index b Hinv y py) Hy) as (l & Hd & Hin).
    destruct (cancel_view b y py l (inv_sorted b Hinv) Hy Hd) as (_ & Hv & _).
    pose proof (ok_nodup l (inv_level b Hinv _ _ Hd)) as Hnd.
    rewrite Hv. case_decide as Hp.
    + subst p. rewrite Hd.
      pose proof (find_order_erase_order y x _ Hnd) as Hf.
      rewrite <- level_orders_cancel in Hf.
      destruct (Level.empty (Level.cancel y l)) eqn:E; [|done].
      unfold Level.empty in E.
      destruct (level_orders (Level.cancel y l)); [|done].
      simpl in Hf. by rewrite <- Hf.
    + case_decide; [|done]. subst x.
      destruct (Book.deref p b) as [l'|] eqn:Hd'; [|done].
      destruct (find_order y (level_orders l')) as [o|] eqn:Ho; [|done].
      assert (orders_by_id_ b !! y = Some p) as Hy'.
      { apply (order_at_index b p y o Hinv). unfold order_at. by rewrite Hd'. }
      congruence.
  - rewrite cancel_unknown by done. case_decide; [|done]. subst x.
    destruct (Book.deref p b) as [l'|] eqn:Hd'; [|done].
    destruct (find_order y (level_orders l')) as [o|] eqn:Ho; [|done].
    assert (orders_by_id_ b !! y = Some p) as Hy'.
    { apply (order_at_index b p y o Hinv). unfold order_at. by rewrite Hd'. }
    congruence.
Qed.

Lemma level_orders_modify_qty y q l :
  level_orders (Level.modify_qty y q l)
  = set_order_qty y q (level_orders l).
Proof.
  unfold Level.modify_qty.
  destruct (find_order y (level_orders l)) eqn:E; [done|].
  clear -E. induction (level_orders l) as [|o qu IH]; simpl in *; [done|].
  destruct (String.eqb y (order_id o)); [done|]. by rewrite <- IH.
Qed.

Lemma order_at_modify_qty b p0 p x y q :
  order_at (Book.with_level p0 (Level.modify_qty y q) b) p x
  = if decide (p = p0 /\ x = y)
    then (fun _ => mkOrder y q) <$> order_at b p0 y
    else order_at b p x.
Proof.
  unfold order_at.
  rewrite deref_with_level by apply level_price_modify_qty.
  destruct (decide (p = p0)) as [->|Hp].
  - destruct (Book.deref p0 b) as [l|]; simpl; [|by case_decide].
    rewrite level_orders_modify_qty, find_order_set_order_qty.
    destruct (decide (x = y)) as [->|Hx].
    + by rewrite decide_True.
    + rewrite decide_False; [done | by intros [_ ?]].
  - rewrite decide_False; [done | by intros [? _]].
Qed.

Lemma order_at_fill_order id price t b p x :
  trade_ok id price t -> book_inv b -> x <> passive_id t ->
  order_at (snd (Book.fill_order t b)) p x = order_at b p x.
Proof.
  intros Hok Hinv Hne. destruct (full_fill_dec t) as [Hf|Hf].
  - rewrite (fill_order_full _ _ _ _ Hok Hf). simpl.
    rewrite order_at_cancel by done. by rewrite decide_False.
  - rewrite (fill_order_partial _ _ _ _ Hok Hf). simpl.
    rewrite order_at_modify_qty.
    rewrite decide_False; [done | by intros [_ ?]].
Qed.

(** An order that is not the passive order of a trade is left as it
    was. *)
Lemma order_at_fill_orders id price ts b p x :
  Forall (trade_ok id price) ts -> book_inv b ->
  x ∉ (passive_id <$> ts) ->
  order_at (snd (Book.fill_orders ts b)) p x = order_at b p x.
Proof.
  intros Hts. revert b. induction Hts as [|t ts Ht Hts IH]; intros b Hinv.
  - done.
  - rewrite fill_orders_cons. csimpl. intros [Hne Hx]%not_elem_of_cons.
    rewrite IH; [|by eapply fill_order_inv|done].
    by eapply order_at_fill_order.
Qed.

Lemma sorted_desc_NoDup (ls : list Level) :
  sorted_desc ls -> NoDup (level_price <$> ls).
Proof.
  induction ls as [|l ls IH]; csimpl; [constructor|].
  intros [Hlt Hs]. constructor; [|by apply IH].
  intros (l' & Heq & Hin)%list_elem_of_fmap.
  rewrite Forall_forall in Hlt. specialize (Hlt _ Hin). lia.
Qed.

Lemma others_sublist id (qu : list Order) : others id qu `sublist_of` qu.
Proof.
  induction qu as [|o qu IH]; simpl; [done|].
  destruct (String.eqb id (order_id o));
    [by apply sublist_cons | by apply sublist_skip].
Qed.

Lemma NoDup_eligible id price s comp (range : list Level) :
  NoDup (level_price <$> range) ->
  Forall (fun l => NoDup (level_ids l)) range ->
  NoDup (eligible id price s comp range).
Proof.
  induction range as [|l range IH]; csimpl; [constructor|].
  intros [Hl Hnd]%NoDup_cons [Hids Hrest]%Forall_cons.
  destruct (comp price (level_price l)); [|constructor].
  apply NoDup_app. split; [|split; [|by apply IH]].
  - unfold eligible_level. apply NoDup_fmap_2; [by intros ? ? [= ?]|].
    eapply sublist_NoDup; [|apply others_sublist].
    by eapply NoDup_fmap_1.
  - intros e [He _]%elem_of_eligible_level
      (l' & Hin & _ & He' & _)%elem_of_eligible.
    apply Hl. rewrite He in He'. injection He' as ->.
    by apply list_elem_of_fmap_2.
Qed.

(** No id comes twice in the walk. *)
Lemma NoDup_walk side id price b :
  book_inv b -> NoDup ((fun e => order_id (snd e)) <$> walk side id price b).
Proof.
  intros Hinv. pose proof (inv_sorted b Hinv) as Hs.
  apply NoDup_fmap_2_strong.
  - intros [p1 o1] [p2 o2] H1 H2 Hid. simpl in Hid.
    apply walk_sound in H1 as (_ & _ & _ & l1 & Hd1 & Ho1); [|done].
    apply walk_sound in H2 as (_ & _ & _ & l2 & Hd2 & Ho2); [|done].
    simpl in *.
    assert (orders_by_id_ b !! order_id o1 = Some p1) as E1.
    { apply (inv_index b Hinv). exists l1. split; [done|].
      by apply list_elem_of_fmap_2. }
    assert (orders_by_id_ b !! order_id o1 = Some p2) as E2.
    { apply (inv_index b Hinv). exists l2. split; [done|].
      rewrite Hid. by apply list_elem_of_fmap_2. }
    assert (p1 = p2) as -> by congruence.
    assert (l1 = l2) as -> by congruence.
    pose proof (ok_nodup l2 (inv_level b Hinv _ _ Hd2)) as Hnd.
    pose proof (find_order_elem _ _ Hnd Ho1) as F1.
    pose proof (find_order_elem _ _ Hnd Ho2) as F2.
    rewrite Hid in F1. congruence.
  - unfold walk. apply NoDup_eligible.
    + destruct side; simpl; [| |constructor].
      * rewrite fmap_reverse, reverse_Permutation.
        apply sorted_desc_NoDup, (Hs SellLevels).
      * apply sorted_desc_NoDup, (Hs BuyLevels).
    + apply Forall_forall. intros l Hl.
      assert (side <> SideInvalid) as Hside
        by (destruct side; try done; by apply elem_of_nil in Hl).
      apply best_first_levels in Hl; [|done].
      eapply ok_nodup, (inv_level b Hinv), elem_deref; done.
Qed.
End Frame.

(** ** The trades of one walk *)

Section MatchTrades.
Implicit Types (b : Book) (t : Trade) (ts : Trades) (x id : OrderID).

Lemma find_order_split x (qu : list Order) o :
  find_order x qu = Some o ->
  exists q1 q2,
    qu = q1 ++ o :: q2
    /\ erase_order x qu = q1 ++ q2
    /\ forall n, set_order_qty x n qu = q1 ++ mkOrder (order_id o) n :: q2.
Proof.
  induction qu as [|y qu IH]; simpl; [done|].
  destruct (String.eqb x (order_id y)).
  - intros [= ->]. by exists [], qu.
  - intros (q1 & q2 & -> & He & Hs)%IH. exists (y :: q1), q2.
    split; [done|]. split; [simpl; by rewrite He|].
    intros n. simpl. by rewrite Hs.
Qed.

Lemma fill_walk_min id price es leaves l ts stop :
  is_uint64 leaves -> Forall (fun e => qty_ok (order_qty (snd e))) es ->
  fill_walk id price es leaves = (l, ts, stop) ->
  l = leaves - sum_fills ts
  /\ forall pre t post, ts = pre ++ t :: post ->
       order_qty (aggressive_order t)
       = Z.min (leaves - sum_fills pre) (order_qty (passive_order t)).
Proof.
  intros Hl Hes. revert leaves l ts stop Hl.
  induction Hes as [|e es He Hes IH]; intros leaves l ts stop Hl; simpl.
  - intros [= <- <- <-]. split; [simpl; lia|].
    intros pre t post Heq. by destruct pre.
  - rewrite sub_min_small by done. unfold Qty.is_zero.
    destruct (Z.eqb_spec (leaves - Z.min leaves (order_qty (snd e))) 0)
      as [Hz|Hz].
    + intros [= <- <- <-]. split; [simpl; lia|].
      intros pre t post Heq. destruct pre as [|t0 pre]; simpl in *.
      * injection Heq as <- _. simpl. f_equal. lia.
      * injection Heq as _ Heq. by destruct pre.
    + destruct (fill_walk id price es _) as [[l1 ts1] st1] eqn:E.
      intros [= <- <- <-].
      apply IH in E as [Hl1 Hmin];
        [|unfold is_uint64, qty_ok in *; lia].
      split; [simpl; lia|].
      intros pre t post Heq. destruct pre as [|t0 pre]; simpl in *.
      * injection Heq as <- _. simpl. f_equal. lia.
      * injection Heq as <- Heq. rewrite (Hmin _ _ _ Heq). simpl.
        f_equal. lia.
Qed.

(** What the walk of [match] writes in the trade buffer. *)
Lemma match_side_trades side id qty price b leaves ts :
  book_inv b -> is_uint64 qty ->
  Book.match_side side id qty price [] b = (leaves, ts) ->
  exists stop,
    fill_walk id price (walk side id price b) qty = (leaves, ts, stop)
    /\ Forall (trade_ok id price) ts
    /\ entry_of <$> ts = take (length ts) (walk side id price b)
    /\ Forall (fun t => entry_of t ∈ walk side id price b) ts
    /\ NoDup (passive_id <$> ts).
Proof.
  intros Hinv Hq. rewrite match_side_walk.
  destruct (fill_walk id price (walk side id price b) qty)
    as [[l0 ts0] stop] eqn:E.
  intros [= <- <-]. exists stop.
  destruct (fill_walk_spec _ _ _ _ _ _ _ Hq (walk_qty_ok side id price b Hinv) E)
    as (_ & Hent & Hok & _).
  split; [done|]. split; [done|]. split; [done|]. split.
  - apply Forall_forall. intros t Ht.
    apply (subseteq_take (length ts0)). rewrite <- Hent.
    by apply list_elem_of_fmap_2.
  - replace (passive_id <$> ts0)
      with ((fun e : LevelPtr * Order => order_id (snd e)) <$> (entry_of <$> ts0))
      by (by rewrite <- list_fmap_compose).
    rewrite Hent, fmap_take.
    eapply sublist_NoDup; [|apply sublist_take].
    by apply NoDup_walk.
Qed.

(** The passive order of a trade is the order that rests in the book. *)
Lemma walk_order_at side id price b e :
  book_inv b -> e ∈ walk side id price b ->
  order_at b (fst e) (order_id (snd e)) = Some (snd e).
Proof.
  intros Hinv He.
  apply walk_sound in He as (_ & _ & _ & l & Hd & Ho);
    [|exact (inv_sorted b Hinv)].
  unfold order_at. rewrite Hd. apply find_order_elem; [|done].
  by eapply ok_nodup, inv_level.
Qed.
End MatchTrades.

(** ** Price priority *)

Section PricePriority.
Implicit Types (b : Book) (side : Side).

Lemma sorted_desc_prices (ls : list Level) :
  sorted_desc ls -> StronglySorted (fun p1 p2 => p2 < p1) (level_price <$> ls).
Proof.
  induction ls as [|l ls IH]; csimpl; [constructor|].
  intros [Hlt Hs]. constructor; [by apply IH|].
  by apply Forall_fmap.
Qed.

Lemma StronglySorted_reverse {A} (R : relation A) (l : list A) :
  StronglySorted R l -> StronglySorted (flip R) (reverse l).
Proof.
  induction 1 as [|a l Hs IH Ha]; [constructor|].
  rewrite reverse_cons. apply StronglySorted_app_2; [|done|by repeat constructor].
  intros x1 x2 Hx1 ->%list_elem_of_singleton.
  rewrite elem_of_reverse in Hx1.
  rewrite Forall_forall in Ha. by apply Ha.
Qed.

Lemma StronglySorted_take {A} (R : relation A) n (l : list A) :
  StronglySorted R l -> StronglySorted R (take n l).
Proof.
  intros Hs. rewrite <- (take_drop n l) in Hs.
  by eapply StronglySorted_app_1_l.
Qed.

(** The levels of the opposite side are visited best price first. *)
Lemma best_first_sorted side b :
  sorted_book b ->
  StronglySorted (price_before side) (level_price <$> best_first side b).
Proof.
  intros Hs. destruct side; simpl.
  - rewrite fmap_reverse.
    apply (StronglySorted_reverse (fun p1 p2 => p2 < p1)).
    apply sorted_desc_prices, (Hs SellLevels).
  - apply sorted_desc_prices, (Hs BuyLevels).
  - constructor.
Qed.

Lemma price_before_not_after side p1 p2 :
  price_before side p1 p2 -> price_not_after side p1 p2.
Proof. destruct side; simpl; lia. Qed.

Lemma price_not_after_refl side p : price_not_after side p p.
Proof. destruct side; simpl; lia. Qed.

Lemma eligible_prices_sorted side id price s comp (range : list Level) :
  StronglySorted (price_before side) (level_price <$> range) ->
  StronglySorted (price_not_after side)
    ((fun e : LevelPtr * Order => ptr_price (fst e))
       <$> eligible id price s comp range).
Proof.
  induction range as [|l range IH]; csimpl; [constructor|].
  intros [Hl Hs]%StronglySorted_cons.
  destruct (comp price (level_price l)); [|constructor].
  rewrite fmap_app. apply StronglySorted_app_2; [| |by apply IH].
  - intros p1 p2 (e1 & -> & He1)%list_elem_of_fmap
      (e2 & -> & He2)%list_elem_of_fmap.
    apply elem_of_eligible_level in He1 as [-> _].
    apply elem_of_eligible in He2 as (l2 & Hl2 & _ & -> & _). simpl.
    apply price_before_not_after. rewrite Forall_forall in Hl.
    apply Hl. by apply list_elem_of_fmap_2.
  - unfold eligible_level. rewrite <- list_fmap_compose.
    induction (others id (level_orders l)) as [|o os IHo]; csimpl;
      [constructor|].
    constructor; [done|]. apply Forall_fmap, Forall_forall.
    intros o' _. simpl. apply price_not_after_refl.
Qed.
End PricePriority.

(** [Book::modify] itself leaves the book alone when the id is not live;
    [Book::cancel] likewise. *)
Lemma book_modify_unknown side id qty price b :
  orders_by_id_ b !! id = None -> Book.modify side id qty price b = b.
Proof.
  intros Hx. destruct side; simpl; try done; by apply modify_in_unknown.
Qed.

(** ** The input stream and the loop of [run] *)

Section StreamFacts.
Implicit Types (s w rest : string) (ins : istream) (cp : CommandProcessor).

Lemma skipws_length s : (String.length (skipws s) <= String.length s)%nat.
Proof.
  induction s as [|c s IH]; simpl; [done|].
  destruct (isspace c); simpl; lia.
Qed.

Lemma read_word_length s w rest :
  read_word s = (w, rest) -> (String.length rest <= String.length s)%nat.
Proof.
  revert w rest. induction s as [|c s IH]; intros w rest; simpl.
  - by intros [= <- <-].
  - destruct (isspace c); [by intros [= <- <-]|].
    destruct (read_word s) as [w' rest'] eqn:E. intros [= <- <-].
    specialize (IH _ _ eq_refl). lia.
Qed.

Lemma read_digits_length s acc v rest :
  read_digits s acc = (v, rest) ->
  (String.length rest <= String.length s)%nat.
Proof.
  revert acc. induction s as [|c s IH]; intros acc; simpl.
  - by intros [= <- <-].
  - destruct (isdigit c); [|by intros [= <- <-]].
    intros E. specialize (IH _ E). lia.
Qed.

Lemma read_digits_nonneg s acc v rest :
  0 <= acc -> read_digits s acc = (v, rest) -> 0 <= v.
Proof.
  revert acc. induction s as [|c s IH]; intros acc Hacc; simpl.
  - intros [= <- <-]. done.
  - destruct (isdigit c) eqn:Hc; [|intros [= <- <-]; done].
    apply IH. unfold digit_value, isdigit in *.
    apply andb_true_iff in Hc as [Hc _]. apply N.leb_le in Hc. lia.
Qed.

Lemma get_string_left ins o ins' :
  get_string ins = (o, ins') ->
  match o with
  | Some _ => (stream_left ins' < stream_left ins)%nat
  | None => stream_left ins' = O
  end.
Proof.
  unfold get_string, stream_left.
  destruct (failbit ins) eqn:Hf; [intros [= <- <-]; by rewrite Hf|].
  pose proof (skipws_length (buf ins)) as Hs.
  destruct (skipws (buf ins)) as [|c s] eqn:E; [by intros [= <- <-]|].
  destruct (read_word (String c s)) as [w rest] eqn:R.
  intros [= <- <-]. simpl. simpl in R.
  assert (isspace c = false) as Hc.
  { clear -E. induction (buf ins) as [|c' s' IH]; simpl in E; [done|].
    destruct (isspace c') eqn:Hc'; [by apply IH|]. by injection E as -> _. }
  simpl in R. rewrite Hc in R.
  destruct (read_word s) as [w' rest'] eqn:R'. injection R as <- <-.
  pose proof (read_word_length _ _ _ R') as Hr'. simpl in Hs. lia.
Qed.

Lemma get_uint64_left ins :
  (stream_left (snd (get_uint64 ins)) <= stream_left ins)%nat.
Proof.
  unfold get_uint64, stream_left.
  destruct (failbit ins) eqn:Hf; [simpl; by rewrite Hf|].
  pose proof (skipws_length (buf ins)) as Hs.
  set (s := skipws (buf ins)) in *.
  assert (exists negative s1,
            match s with
            | String c s' =>
                if Ascii.eqb c "-" then (true, s')
                else if Ascii.eqb c "+" then (false, s') else (false, s)
            | EmptyString => (false, s)
            end = (negative, s1)
            /\ (String.length s1 <= String.length s)%nat)
    as (negative & s1 & -> & Hs1).
  { destruct s as [|c s']; [by exists false, EmptyString|].
    destruct (Ascii.eqb c "-"); [exists true, s'; simpl; split; [done | lia]|].
    destruct (Ascii.eqb c "+"); [exists false, s'; simpl; split; [done | lia]|].
    by exists false, (String c s'). }
  destruct s1 as [|c s1']; [simpl; lia|].
  destruct (isdigit c); [|simpl; lia].
  destruct (read_digits (String c s1') 0) as [v rest] eqn:R.
  pose proof (read_digits_length _ _ _ _ R) as Hr.
  destruct (v >? UINT64_MAX); simpl; lia.
Qed.

Lemma get_uint64_range ins : is_uint64 (fst (get_uint64 ins)).
Proof.
  unfold get_uint64, is_uint64, UINT64_MAX.
  destruct (failbit ins); [simpl; lia|].
  destruct (match skipws (buf ins) with
            | String c s' =>
                if Ascii.eqb c "-" then (true, s')
                else if Ascii.eqb c "+" then (false, s')
                     else (false, skipws (buf ins))
            | EmptyString => (false, skipws (buf ins))
            end) as [negative s1].
  destruct s1 as [|c s1']; [simpl; lia|].
  destruct (isdigit c); [|simpl; lia].
  destruct (read_digits (String c s1') 0) as [v rest] eqn:R.
  apply read_digits_nonneg in R; [|lia].
  destruct (Z.gtb_spec v (2 ^ 64 - 1)); simpl; [lia|].
  destruct negative; [|lia]. unfold wrap64.
  pose proof (Z.mod_pos_bound (- v) (2 ^ 64)). lia.
Qed.

Lemma get_tif_left ins : (stream_left (snd (get_tif ins)) <= stream_left ins)%nat.
Proof.
  unfold get_tif. destruct (get_string ins) as [o ins'] eqn:E.
  apply get_string_left in E. destruct o; simpl; lia.
Qed.

Lemma get_side_left ins :
  (stream_left (snd (get_side ins)) <= stream_left ins)%nat.
Proof.
  unfold get_side. destruct (get_string ins) as [o ins'] eqn:E.
  apply get_string_left in E. destruct o; simpl; lia.
Qed.

Lemma get_order_id_left ins :
  (stream_left (snd (get_order_id ins)) <= stream_left ins)%nat.
Proof.
  unfold get_order_id. destruct (get_string ins) as [o ins'] eqn:E.
  apply get_string_left in E. destruct o; simpl; lia.
Qed.

Lemma get_add_order_left ins :
  (stream_left (snd (get_add_order ins)) <= stream_left ins)%nat.
Proof.
  unfold get_add_order.
  pose proof (get_tif_left ins) as H1.
  destruct (get_tif ins) as [tif ins1].
  pose proof (get_uint64_left ins1) as H2.
  destruct (get_uint64 ins1) as [price ins2].
  pose proof (get_uint64_left ins2) as H3.
  destruct (get_uint64 ins2) as [qty ins3].
  pose proof (get_order_id_left ins3) as H4.
  destruct (get_order_id ins3) as [id ins4]. simpl in *. lia.
Qed.

Lemma get_modify_order_left ins :
  (stream_left (snd (get_modify_order ins)) <= stream_left ins)%nat.
Proof.
  unfold get_modify_order.
  pose proof (get_order_id_left ins) as H1.
  destruct (get_order_id ins) as [id ins1].
  pose proof (get_side_left ins1) as H2.
  destruct (get_side ins1) as [side ins2].
  pose proof (get_uint64_left ins2) as H3.
  destruct (get_uint64 ins2) as [price ins3].
  pose proof (get_uint64_left ins3) as H4.
  destruct (get_uint64 ins3) as [qty ins4]. simpl in *. lia.
Qed.

Lemma decode_left cmd ins m ins' :
  CommandProcessor.decode cmd ins = Some (m, ins') ->
  (stream_left ins' <= stream_left ins)%nat.
Proof.
  unfold CommandProcessor.decode.
  pose proof (get_add_order_left ins) as Ha.
  pose proof (get_modify_order_left ins) as Hm.
  pose proof (get_order_id_left ins) as Hc.
  unfold get_cancel_order.
  destruct (get_add_order ins) as [a insa].
  destruct (get_modify_order ins) as [mo insm].
  destruct (get_order_id ins) as [c insc]. simpl in *.
  repeat (destruct (String.eqb cmd _); [by intros [= <- <-]|]).
  done.
Qed.

Lemma handle_left cmd ins cp :
  (stream_left (fst (CommandProcessor.handle cmd ins cp)) <= stream_left ins)%nat.
Proof.
  unfold CommandProcessor.handle.
  destruct (CommandProcessor.decode cmd ins) as [[m ins']|] eqn:E; [|done].
  apply decode_left in E. by destruct (Msg.is_invalid m).
Qed.

(** The loop ends by itself before the iterations allowed run out. *)
Lemma run_loop_fuel fuel1 fuel2 ins cp :
  (stream_left ins <= fuel1)%nat -> (stream_left ins <= fuel2)%nat ->
  CommandProcessor.run_loop fuel1 ins cp
  = CommandProcessor.run_loop fuel2 ins cp.
Proof.
  revert fuel2 ins cp.
  induction fuel1 as [|fuel1 IH]; intros fuel2 ins cp H1 H2.
  - assert (failbit ins = true) as Hf
      by (unfold stream_left in H1; destruct (failbit ins); [done | lia]).
    destruct fuel2; simpl; [done|].
    unfold get_string. by rewrite Hf.
  - destruct fuel2 as [|fuel2].
    + assert (failbit ins = true) as Hf
        by (unfold stream_left in H2; destruct (failbit ins); [done | lia]).
      simpl. unfold get_string. by rewrite Hf.
    + simpl. destruct (get_string ins) as [[cmd|] ins1] eqn:E; [|done].
      apply get_string_left in E.
      pose proof (handle_left cmd ins1 cp) as Hh.
      destruct (CommandProcessor.handle cmd ins1 cp) as [ins2 cp'].
      simpl in Hh. apply IH; lia.
Qed.

(** One turn of the loop of [run]. *)
Lemma run_unfold ins cp :
  CommandProcessor.run ins cp
  = match get_string ins with
    | (None, ins') => (ins', cp)
    | (Some cmd, ins1) =>
        let '(ins2, cp') := CommandProcessor.handle cmd ins1 cp in
        CommandProcessor.run ins2 cp'
    end.
Proof.
  unfold CommandProcessor.run at 1. simpl.
  destruct (get_string ins) as [[cmd|] ins1] eqn:E; [|done].
  apply get_string_left in E.
  pose proof (handle_left cmd ins1 cp) as Hh.
  destruct (CommandProcessor.handle cmd ins1 cp) as [ins2 cp'].
  simpl in Hh. unfold CommandProcessor.run.
  apply run_loop_fuel; unfold stream_left in *;
    destruct (failbit ins), (failbit ins1), (failbit ins2); lia.
Qed.

Lemma run_failed ins cp :
  failbit ins = true -> CommandProcessor.run ins cp = (ins, cp).
Proof.
  intros Hf. rewrite run_unfold. unfold get_string. by rewrite Hf.
Qed.
End StreamFacts.

(** ** The engines that [run] leads to *)

Section RunFacts.
Implicit Types (ins : istream) (cp : CommandProcessor).

Lemma get_add_order_range ins :
  is_uint64 (add_price (fst (get_add_order ins)))
  /\ is_uint64 (add_qty (fst (get_add_order ins))).
Proof.
  unfold get_add_order. destruct (get_tif ins) as [tif ins1].
  pose proof (get_uint64_range ins1) as H1.
  destruct (get_uint64 ins1) as [price ins2].
  pose proof (get_uint64_range ins2) as H2.
  destruct (get_uint64 ins2) as [qty ins3].
  by destruct (get_order_id ins3) as [id ins4].
Qed.

Lemma get_modify_order_range ins :
  is_uint64 (modify_price (fst (get_modify_order ins)))
  /\ is_uint64 (modify_qty (fst (get_modify_order ins))).
Proof.
  unfold get_modify_order. destruct (get_order_id ins) as [id ins1].
  destruct (get_side ins1) as [side ins2].
  pose proof (get_uint64_range ins2) as H1.
  destruct (get_uint64 ins2) as [price ins3].
  pose proof (get_uint64_range ins3) as H2.
  by destruct (get_uint64 ins3) as [qty ins4].
Qed.

(** A decoded message that is not invalid carries values of the engine's
    types. *)
Lemma decode_ok cmd ins m ins' :
  CommandProcessor.decode cmd ins = Some (m, ins') ->
  Msg.is_invalid m = false -> msg_ok m.
Proof.
  unfold CommandProcessor.decode.
  pose proof (get_add_order_range ins) as Ha.
  pose proof (get_modify_order_range ins) as Hm.
  unfold get_cancel_order.
  destruct (get_add_order ins) as [a insa].
  destruct (get_modify_order ins) as [mo insm].
  destruct (get_order_id ins) as [c insc]. simpl in *.
  destruct Ha as [Ha1 Ha2]. destruct Hm as [Hm1 Hm2].
  destruct (String.eqb cmd "BUY").
  { intros [= <- <-]. simpl. intros Hv.
    unfold add_order_ok, AddOrder.is_valid. by rewrite Hv. }
  destruct (String.eqb cmd "SELL").
  { intros [= <- <-]. simpl. intros Hv.
    unfold add_order_ok, AddOrder.is_valid. by rewrite Hv. }
  destruct (String.eqb cmd "CANCEL").
  { intros [= <- <-]. simpl. intros Hv.
    unfold CancelOrder.is_valid. by rewrite Hv. }
  destruct (String.eqb cmd "MODIFY").
  { intros [= <- <-]. simpl. intros Hv.
    unfold modify_order_ok, ModifyOrder.is_valid. by rewrite Hv. }
  destruct (String.eqb cmd "PRINT"); [by intros [= <- <-]|].
  destruct (String.eqb cmd "CLEAR"); [by intros [= <- <-]|].
  done.
Qed.

Lemma handle_reachable cmd ins cp :
  reachable (matching_engine_ cp) ->
  reachable (matching_engine_ (snd (CommandProcessor.handle cmd ins cp))).
Proof.
  intros Hr. unfold CommandProcessor.handle.
  destruct (CommandProcessor.decode cmd ins) as [[m ins']|] eqn:E; [|done].
  destruct (Msg.is_invalid m) eqn:Hv; [done|]. simpl.
  rewrite handle_msg_engine. apply reachable_step; [done|].
  by eapply decode_ok.
Qed.

Lemma run_loop_reachable fuel ins cp :
  reachable (matching_engine_ cp) ->
  reachable (matching_engine_ (snd (CommandProcessor.run_loop fuel ins cp))).
Proof.
  revert ins cp. induction fuel as [|fuel IH]; intros ins cp Hr; [done|].
  simpl. destruct (get_string ins) as [[cmd|] ins1]; [|done].
  pose proof (handle_reachable cmd ins1 cp Hr) as Hh.
  destruct (CommandProcessor.handle cmd ins1 cp) as [ins2 cp'].
  by apply IH.
Qed.

(** Whatever the input, [run] leaves an engine that a sequence of
    accepted commands leads to. *)
Lemma run_reachable input :
  reachable
    (matching_engine_
       (snd (CommandProcessor.run (mkIstream input false)
               (CommandProcessor.make (MatchingEngine.make Book.empty))))).
Proof. apply run_loop_reachable, reachable_init. Qed.

Lemma failbit_sticky_string ins :
  failbit ins = true -> get_string ins = (None, ins).
Proof. intros Hf. unfold get_string. by rewrite Hf. Qed.

Lemma failbit_sticky_uint64 ins :
  failbit ins = true -> get_uint64 ins = (0, ins).
Proof. intros Hf. unfold get_uint64. by rewrite Hf. Qed.

(** A field that does not start a number: the stream fails. *)
Lemma get_uint64_not_number ins c s :
  failbit ins = false -> skipws (buf ins) = String c s ->
  isdigit c = false -> c <> "-"%char -> c <> "+"%char ->
  get_uint64 ins = (0, mkIstream (String c s) true).
Proof.
  intros Hf Hs Hd Hm Hp. unfold get_uint64. rewrite Hf, Hs.
  destruct (Ascii.eqb_spec c "-"); [done|].
  destruct (Ascii.eqb_spec c "+"); [done|]. by rewrite Hd.
Qed.
End RunFacts.

(** ** The examples are reachable *)

Lemma uint64_example z :
  (0 <=? z) && (z <=? UINT64_MAX) = true -> is_uint64 z.
Proof.
  unfold is_uint64. intros [H1 H2]%andb_true_iff.
  apply Z.leb_le in H1. apply Z.leb_le in H2. done.
Qed.

Lemma ex_engine_reachable : reachable ex_engine.
Proof.
  unfold ex_engine.
  repeat (apply reachable_step; [|repeat split; by apply uint64_example]).
  apply reachable_init.
Qed.

Lemma ex_book_inv : book_inv ex_book.
Proof. apply reachable_inv, ex_engine_reachable. Qed.

Lemma ex_two_sells_reachable : reachable ex_two_sells.
Proof.
  unfold ex_two_sells.
  repeat (apply reachable_step; [|repeat split; by apply uint64_example]).
  apply reachable_init.
Qed.

(** ** The book [fill_orders] leaves *)

Section FillResult.

Lemma live_order b id p :
  book_inv b -> orders_by_id_ b !! id = Some p ->
  exists l o, Book.deref p b = Some l
              /\ find_order id (level_orders l) = Some o /\ order_id o = id.
Proof.
  intros Hinv Hp. apply (inv_index b Hinv) in Hp as (l & Hd & Hin).
  apply find_order_is_Some in Hin as [o Ho].
  exists l, o. split; [done|]. split; [done|].
  by apply find_order_Some in Ho as [_ ?].
Qed.

Lemma ids_at_cancel b z p :
  book_inv b -> ids_at (Book.cancel z b) p `sublist_of` ids_at b p.
Proof.
  intros Hinv. destruct (orders_by_id_ b !! z) as [p0|] eqn:Hz.
  - destruct (live_order b z p0 Hinv Hz) as (l & o & Hd & _).
    destruct (cancel_view b z p0 l (inv_sorted b Hinv) Hz Hd) as (_ & Hv & _).
    unfold ids_at. rewrite Hv. destruct (decide (p = p0)) as [->|Hne]; [|done].
    rewrite Hd. destruct (Level.empty (Level.cancel z l));
      [apply sublist_nil_l|].
    unfold level_ids, queue_ids. rewrite level_orders_cancel.
    apply fmap_sublist, erase_order_sublist.
  - by rewrite cancel_unknown.
Qed.

Lemma ids_at_fill_order id price t b p :
  trade_ok id price t ->
  book_inv b ->
  ids_at (snd (Book.fill_order t b)) p `sublist_of` ids_at b p.
Proof.
  intros Ht Hinv. destruct (full_fill_dec t) as [Hf|Hf].
  - rewrite (fill_order_full _ _ _ _ Ht Hf). simpl. by apply ids_at_cancel.
  - rewrite (fill_order_partial _ _ _ _ Ht Hf). simpl.
    unfold ids_at. rewrite deref_with_level by apply level_price_modify_qty.
    destruct (decide (p = passive_level t)) as [->|Hne]; [|done].
    destruct (Book.deref (passive_level t) b) as [l|]; [|done]. simpl.
    by rewrite level_ids_modify_qty.
Qed.

Lemma ids_at_fill_orders id price ts :
  forall b p,
  Forall (trade_ok id price) ts -> book_inv b ->
  ids_at (snd (Book.fill_orders ts b)) p `sublist_of` ids_at b p.
Proof.
  induction ts as [|t ts IH]; intros b p Hok Hinv; [done|].
  apply Forall_cons in Hok as [Ht Hok]. rewrite fill_orders_cons. simpl.
  etrans; [apply IH; [done | by eapply fill_order_inv]|].
  by eapply ids_at_fill_order.
Qed.

Lemma snd_fill_orders_app ts1 :
  forall ts2 b,
  snd (Book.fill_orders (ts1 ++ ts2) b)
  = snd (Book.fill_orders ts2 (snd (Book.fill_orders ts1 b))).
Proof.
  induction ts1 as [|t ts1 IH]; intros ts2 b; [done|].
  rewrite <- app_comm_cons, !fill_orders_cons. simpl. apply IH.
Qed.

(** A trade that took the whole of its passive order: the order is in
    the book no more. *)
Lemma fill_orders_full_result id price ts b t p :
  Forall (trade_ok id price) ts -> book_inv b ->
  t ∈ ts -> full_fill t ->
  orders_by_id_ (snd (Book.fill_orders ts b)) !! passive_id t = None
  /\ order_at (snd (Book.fill_orders ts b)) p (passive_id t) = None.
Proof.
  intros Hok Hinv Hin Hf.
  pose proof (fill_orders_lookup_full _ _ _ b _ Hok Hin Hf) as Hnone.
  split; [done|].
  destruct (order_at (snd (Book.fill_orders ts b)) p (passive_id t))
    as [o|] eqn:Hat; [|done].
  pose proof (fill_orders_inv _ _ _ _ Hok Hinv) as Hinv'.
  pose proof (order_at_index _ _ _ _ Hinv' Hat). congruence.
Qed.

(** A trade that took a part of its passive order: the order rests
    where it did, with what the fill left of its quantity. *)
Lemma fill_orders_partial_result id price ts b t :
  Forall (trade_ok id price) ts -> book_inv b ->
  NoDup (passive_id <$> ts) ->
  t ∈ ts -> ~ full_fill t ->
  order_at b (passive_level t) (passive_id t) = Some (passive_order t) ->
  orders_by_id_ (snd (Book.fill_orders ts b)) !! passive_id t
  = Some (passive_level t)
  /\ order_at (snd (Book.fill_orders ts b)) (passive_level t) (passive_id t)
     = Some (mkOrder (passive_id t)
               (order_qty (passive_order t) - order_qty (aggressive_order t))).
Proof.
  intros Hok Hinv Hnd Hin Hf Hat.
  apply list_elem_of_split in Hin as (pre & post & ->).
  apply Forall_app in Hok as [Hpre [Ht Hpost]%Forall_cons].
  rewrite fmap_app in Hnd. apply NoDup_app in Hnd as (_ & Hdis & Hnd).
  csimpl in Hnd. apply NoDup_cons in Hnd as [Hpost_fresh _].
  assert (passive_id t ∉ passive_id <$> pre) as Hpre_fresh.
  { intros Hin. apply (Hdis _ Hin). csimpl. by left. }
  rewrite snd_fill_orders_app, fill_orders_cons. simpl.
  set (b1 := snd (Book.fill_orders pre b)).
  assert (book_inv b1) as Hinv1 by (by eapply fill_orders_inv).
  assert (order_at b1 (passive_level t) (passive_id t) = Some (passive_order t))
    as Hat1.
  { unfold b1. by rewrite (order_at_fill_orders _ _ _ _ _ _ Hpre Hinv Hpre_fresh). }
  pose proof (order_at_index _ _ _ _ Hinv1 Hat1) as Hidx1.
  set (b2 := snd (Book.fill_order t b1)).
  assert (book_inv b2) as Hinv2 by (by eapply fill_order_inv).
  split.
  - rewrite (fill_orders_lookup_other _ _ _ _ _ Hpost Hpost_fresh).
    unfold b2. rewrite (fill_order_partial _ _ _ _ Ht Hf). simpl.
    by rewrite orders_with_level.
  - rewrite (order_at_fill_orders _ _ _ _ _ _ Hpost Hinv2 Hpost_fresh).
    unfold b2. rewrite (fill_order_partial _ _ _ _ Ht Hf). simpl.
    rewrite order_at_modify_qty, decide_True by done.
    by rewrite Hat1.
Qed.

End FillResult.

(** * The claims of the specification *)

(** C1, as the specification states it, fails: with sells resting at 1000
    and at 1100 the snapshot lists the sell level at 1100 before the one
    at 1000, so the sell side is not in ascending price order. *)
Lemma C1_counterexample :
  reachable ex_two_sells
  /\ run_test "SELL GFD 1000 10 order1
SELL GFD 1100 10 order2
PRINT
" = "SELL:
1100 10
1000 10
BUY:
"%string
  /\ write_book (book_ ex_two_sells) = "SELL:
1100 10
1000 10
BUY:
"%string
  /\ ~ StronglySorted Z.lt (level_price <$> sell_levels_ (book_ ex_two_sells)).
Proof.
  split; [exact ex_two_sells_reachable|].
  split; [vm_compute; reflexivity|]. split; [vm_compute; reflexivity|].
  intros Hs.
  assert (level_price <$> sell_levels_ (book_ ex_two_sells) = [1100; 1000])
    as Heq by (vm_compute; reflexivity).
  rewrite Heq in Hs.
  apply StronglySorted_cons in Hs as [Hlt _].
  apply Forall_cons in Hlt as [Hlt _]. lia.
Qed.

(** C1, amended.  For every reachable book the snapshot is the header of
    the sell side and its level lines, then the header of the buy side
    and its level lines; on both sides the lines are in descending price
    order (highest price first; for the sell side this is the worst price
    first).  A level line shows the price of the level and its aggregated
    quantity, the sum of the quantities of its queue in [std::uint64_t]. *)
Theorem C1_snapshot_order e :
  reachable e ->
  write_book (book_ e)
  = ("SELL:" ++ nl ++ write_levels (sell_levels_ (book_ e))
     ++ "BUY:" ++ nl ++ write_levels (buy_levels_ (book_ e)))%string
  /\ StronglySorted (fun p1 p2 => p2 < p1)
       (level_price <$> sell_levels_ (book_ e))
  /\ StronglySorted (fun p1 p2 => p2 < p1)
       (level_price <$> buy_levels_ (book_ e))
  /\ Forall (fun l =>
       write_level l
       = (write_uint64 (level_price l) ++ sp
          ++ write_uint64 (wrap64 (sum_qty (level_orders l))))%string)
       (sell_levels_ (book_ e) ++ buy_levels_ (book_ e)).
Proof.
  intros Hr. pose proof (reachable_inv e Hr) as Hinv.
  split; [done|].
  split; [apply sorted_desc_prices, (inv_sorted _ Hinv SellLevels)|].
  split; [apply sorted_desc_prices, (inv_sorted _ Hinv BuyLevels)|].
  apply Forall_forall. intros l Hl. unfold write_level.
  assert (level_ok l) as Hok.
  { apply elem_of_app in Hl as [Hl|Hl].
    - apply (inv_level _ Hinv (mkLevelPtr SellLevels (level_price l))).
      apply elem_deref; [exact (inv_sorted _ Hinv) | done].
    - apply (inv_level _ Hinv (mkLevelPtr BuyLevels (level_price l))).
      apply elem_deref; [exact (inv_sorted _ Hinv) | done]. }
  by rewrite (ok_level_qty l Hok).
Qed.

Lemma C1_snapshot_order_witness :
  StronglySorted (fun p1 p2 => p2 < p1)
    (level_price <$> sell_levels_ (book_ ex_two_sells))
  /\ write_book (book_ ex_two_sells)
     = ("SELL:" ++ nl ++ write_levels (sell_levels_ (book_ ex_two_sells))
        ++ "BUY:" ++ nl ++ write_levels (buy_levels_ (book_ ex_two_sells)))%string.
Proof.
  destruct (C1_snapshot_order ex_two_sells ex_two_sells_reachable)
    as (Hw & Hs & _ & _).
  split; [exact Hs | exact Hw].
Defined.

(** C2 fails on the code.  With a sell of 7 resting at 1100, a MODIFY of
    the unknown id [ghost] to buy 3 at 1100 is matched before the id is
    looked up: a trade is emitted and the sell level goes from 7 to 4. *)
Lemma C2_modify_unknown_id_matches :
  orders_by_id_ (book_ ex_engine) !! "ghost"%string = None
  /\ trades_ (MatchingEngine.handle_modify
                (mkModifyOrder "ghost" Buy 1100 3) ex_engine)
     = [mkTrade 1100 (mkOrder "order3" 3) (mkLevelPtr SellLevels 1100)
          1100 (mkOrder "ghost" 3)]
  /\ sell_levels_ (book_ ex_engine) = [mkLevel 7 1100 [mkOrder "order3" 7]]
  /\ sell_levels_ (book_ (MatchingEngine.handle_modify
                            (mkModifyOrder "ghost" Buy 1100 3) ex_engine))
     = [mkLevel 4 1100 [mkOrder "order3" 4]]
  /\ run_test "SELL GFD 1100 7 order3
MODIFY ghost BUY 1100 3
PRINT
" = "TRADE order3 1100 3 ghost 1100 3
SELL:
1100 4
BUY:
"%string.
Proof. repeat split; vm_compute; reflexivity. Qed.

(** C3. Self-match prevention: in a call [match(side, id, qty, price)] no
    trade is emitted with a resting order whose identifier is [id], and
    such an order is neither removed from the book nor altered: it is
    found as before in its level, and the index keeps its entry. *)
Theorem C3_self_match_prevention side id qty price b leaves ts b' :
  book_inv b -> is_uint64 qty ->
  Book.match_ side id qty price [] b = (leaves, ts, b') ->
  Forall (fun t => passive_id t <> id) ts
  /\ (forall p, order_at b' p id = order_at b p id)
  /\ orders_by_id_ b' !! id = orders_by_id_ b !! id.
Proof.
  intros Hinv Hq. unfold Book.match_.
  destruct (Book.match_side side id qty price [] b) as [l0 ts0] eqn:E.
  destruct (Book.fill_orders ts0 b) as [ts1 b1] eqn:F.
  intros [= <- <- <-].
  destruct (match_side_trades _ _ _ _ _ _ _ Hinv Hq E)
    as (stop & _ & Hok & _ & Hwalk & _).
  assert (Forall (fun t => passive_id t <> id) ts0) as Hne.
  { eapply Forall_impl; [exact Hwalk|]. intros t Ht.
    by apply walk_sound in Ht as (_ & _ & Hne & _);
      [|exact (inv_sorted b Hinv)]. }
  assert (id ∉ passive_id <$> ts0) as Hnot.
  { intros (t & Heq & Hin)%list_elem_of_fmap.
    rewrite Forall_forall in Hne. by apply (Hne t Hin). }
  replace ts1 with (fst (Book.fill_orders ts0 b)) by (by rewrite F).
  replace b1 with (snd (Book.fill_orders ts0 b)) by (by rewrite F).
  split; [|split].
  - rewrite (fill_orders_trades _ _ _ _ Hok). apply Forall_fmap.
    eapply Forall_impl; [exact Hne|]. done.
  - intros p. by eapply order_at_fill_orders.
  - by eapply fill_orders_lookup_other.
Qed.

Lemma C3_witness :
  Forall (fun t => passive_id t <> "order1"%string)
    (snd (fst (Book.match_ Sell "order1" 10 1000 [] ex_book)))
  /\ (forall p,
        order_at (snd (Book.match_ Sell "order1" 10 1000 [] ex_book)) p "order1"
        = order_at ex_book p "order1")
  /\ orders_by_id_ (snd (Book.match_ Sell "order1" 10 1000 [] ex_book))
       !! "order1"%string
     = orders_by_id_ ex_book !! "order1"%string.
Proof.
  apply (C3_self_match_prevention Sell "order1" 10 1000 ex_book
           (fst (fst (Book.match_ Sell "order1" 10 1000 [] ex_book)))).
  - exact ex_book_inv.
  - by apply uint64_example.
  - by destruct (Book.match_ Sell "order1" 10 1000 [] ex_book) as [[? ?] ?].
Defined.

(** C4. Price-time priority inside one call of [match].  The trades are,
    in their order, the first entries of the walk: the levels of the
    opposite side best price first (ascending prices for a Buy,
    descending prices for a Sell), cut at the first level whose price is
    not compatible, each level in the order of its queue.  So the passive
    prices of the trades never improve along the buffer and all are
    compatible with the aggressive price. *)
Theorem C4_price_time_priority side id qty price b leaves ts b' :
  book_inv b -> is_uint64 qty ->
  Book.match_ side id qty price [] b = (leaves, ts, b') ->
  (fun t => (passive_level t, passive_id t)) <$> ts
  = take (length ts)
      ((fun e : LevelPtr * Order => (fst e, order_id (snd e)))
         <$> eligible id price (opposite_set side) (compatible side)
               (best_first side b))
  /\ StronglySorted (price_before side) (level_price <$> best_first side b)
  /\ StronglySorted (price_not_after side) (passive_price <$> ts)
  /\ Forall (fun t => compatible side price (passive_price t) = true) ts.
Proof.
  intros Hinv Hq. unfold Book.match_.
  destruct (Book.match_side side id qty price [] b) as [l0 ts0] eqn:E.
  destruct (Book.fill_orders ts0 b) as [ts1 b1] eqn:F.
  intros [= <- <- <-].
  destruct (match_side_trades _ _ _ _ _ _ _ Hinv Hq E)
    as (stop & _ & Hok & Hent & Hwalk & _).
  replace ts1 with (fst (Book.fill_orders ts0 b)) by (by rewrite F).
  rewrite (fill_orders_trades _ _ _ _ Hok). fold (walk side id price b).
  split; [|split; [|split]].
  - rewrite length_fmap, <- fmap_take, <- Hent, <- !list_fmap_compose. done.
  - apply best_first_sorted. exact (inv_sorted b Hinv).
  - replace (passive_price <$> (normalized <$> ts0))
      with ((fun e : LevelPtr * Order => ptr_price (fst e)) <$> (entry_of <$> ts0)).
    + rewrite Hent, fmap_take. apply StronglySorted_take.
      apply eligible_prices_sorted, best_first_sorted.
      exact (inv_sorted b Hinv).
    + rewrite <- !list_fmap_compose. apply Forall_fmap_ext_1.
      eapply Forall_impl; [exact Hok|]. intros t Ht. simpl.
      symmetry. apply Ht.
  - apply Forall_fmap. rewrite Forall_forall in Hok, Hwalk.
    apply Forall_forall. intros t Ht. simpl.
    destruct (Hok t Ht) as [_ _ _ _ ->].
    pose proof (Hwalk t Ht) as Hw.
    by apply (walk_sound _ _ _ _ _ (inv_sorted b Hinv)) in Hw as (_ & ? & _).
Qed.

Lemma C4_witness :
  (fun t => (passive_level t, passive_id t))
    <$> snd (fst (Book.match_ Sell "order4" 12 900 [] ex_book))
  = [(mkLevelPtr BuyLevels 1000, "order1"%string);
     (mkLevelPtr BuyLevels 1000, "order2"%string)]
  /\ StronglySorted (price_not_after Sell)
       (passive_price <$> snd (fst (Book.match_ Sell "order4" 12 900 [] ex_book))).
Proof.
  destruct (C4_price_time_priority Sell "order4" 12 900 ex_book
              (fst (fst (Book.match_ Sell "order4" 12 900 [] ex_book)))
              (snd (fst (Book.match_ Sell "order4" 12 900 [] ex_book)))
              (snd (Book.match_ Sell "order4" 12 900 [] ex_book))
              ex_book_inv (uint64_example 12 eq_refl) eq_refl)
    as (Hpre & _ & Hsorted & _).
  split; [exact Hpre | exact Hsorted].
Defined.

(** C5. An incoming BUY or SELL: [match] is called first and its trades
    are the trades of the command.  If nothing is left, nothing more
    happens.  Otherwise a GFD order goes through [Book::add] with the
    quantity left, at its price on its side: the order then rests at the
    back of that level (unless its id is live, which [add] refuses); the
    residue of an IOC order is dropped, the book is the book [match] left
    and no order rests in it that did not rest before. *)
Theorem C5_handle_add side msg e leaves ts b1 :
  side <> SideInvalid -> book_inv (book_ e) -> add_order_ok msg ->
  Book.match_ side (add_order_id msg) (add_qty msg) (add_price msg) []
    (book_ e) = (leaves, ts, b1) ->
  trades_ (MatchingEngine.handle_add side msg e) = ts
  /\ (leaves = 0 -> book_ (MatchingEngine.handle_add side msg e) = b1)
  /\ (leaves <> 0 -> add_tif msg = GFD ->
        book_ (MatchingEngine.handle_add side msg e)
        = Book.add side (add_order_id msg) leaves (add_price msg) b1
        /\ (is_Some (orders_by_id_ b1 !! add_order_id msg) ->
              book_ (MatchingEngine.handle_add side msg e) = b1)
        /\ (orders_by_id_ b1 !! add_order_id msg = None ->
              orders_by_id_ (book_ (MatchingEngine.handle_add side msg e))
                !! add_order_id msg
              = Some (mkLevelPtr (own_set side) (add_price msg))
              /\ exists l q,
                   Book.deref (mkLevelPtr (own_set side) (add_price msg))
                     (book_ (MatchingEngine.handle_add side msg e)) = Some l
                   /\ level_orders l = q ++ [mkOrder (add_order_id msg) leaves]))
  /\ (leaves <> 0 -> add_tif msg = IOC ->
        book_ (MatchingEngine.handle_add side msg e) = b1
        /\ forall x p, resting_at b1 x p -> resting_at (book_ e) x p).
Proof.
  intros Hside Hinv (Hv & Hp & Hq) E. unfold MatchingEngine.handle_add.
  rewrite E. unfold Qty.is_zero.
  destruct (match_spec _ _ _ _ _ _ _ _ Hinv Hq E)
    as (ts0 & stop & _ & _ & _ & _ & Hinv1 & Hle).
  destruct (Z.eqb_spec leaves 0) as [Hz|Hz].
  - repeat split; try done.
  - split; [by destruct (add_tif msg)|]. split; [done|]. split.
    + intros _ ->. simpl. split; [done|]. rewrite add_eq by done. split.
      * apply add_to_live.
      * intros Hx.
        destruct (add_to_view b1 (add_order_id msg) leaves (add_price msg)
                    (own_set side) (inv_sorted _ Hinv1) Hx) as (_ & Hd & Hm).
        split; [rewrite Hm; apply lookup_insert_eq|].
        rewrite Hd, decide_True by done. eexists _, _. split; [done|]. done.
    + intros _ ->. simpl. split; [done|]. intros x p.
      by eapply match_resting.
Qed.

Lemma C5_witness :
  trades_ (MatchingEngine.handle_add Sell (mkAddOrder GFD 1000 20 "order4")
             ex_engine)
  = snd (fst (Book.match_ Sell "order4" 20 1000 [] ex_book))
  /\ Book.deref (mkLevelPtr SellLevels 1000)
       (book_ (MatchingEngine.handle_add Sell (mkAddOrder GFD 1000 20 "order4")
                 ex_engine))
     = Some (mkLevel 5 1000 [mkOrder "order4" 5]).
Proof.
  destruct (C5_handle_add Sell (mkAddOrder GFD 1000 20 "order4") ex_engine
              (fst (fst (Book.match_ Sell "order4" 20 1000 [] ex_book)))
              (snd (fst (Book.match_ Sell "order4" 20 1000 [] ex_book)))
              (snd (Book.match_ Sell "order4" 20 1000 [] ex_book)))
    as (Hts & _ & Hgfd & _).
  - discriminate.
  - exact ex_book_inv.
  - repeat split; by apply uint64_example.
  - reflexivity.
  - split; [exact Hts | reflexivity].
Defined.

(** C6. Applying the fills after the walk, in a call of [Book::match]
    that passes the asserts of [fill_orders].  The trades of the buffer
    are the trades [ts0] of the walk, with the fill as passive quantity,
    and in the book [b'] that [match] returns, for every trade of the
    walk, whose passive order rested in its level of [b]:
    - if the fill took the whole quantity, the order is cancelled: its
      id is not in the index and it rests in no level any more;
    - otherwise it rests in the same level, with its quantity minus the
      fill, and the index keeps its entry.
    An order that is in no trade rests as before.  In every level the
    orders that remain are in the order they had, so a partially filled
    order keeps its place in the queue; a level that lost all its orders
    is removed (no level of [b'] has an empty queue, and none is new),
    and the quantity a level caches is the sum of what rests in it. *)
Theorem C6_apply_fills side id qty price b leaves ts b' :
  book_inv b -> is_uint64 qty ->
  Asserts.match_ side id qty price [] b = true ->
  Book.match_ side id qty price [] b = (leaves, ts, b') ->
  exists ts0,
    Book.match_side side id qty price [] b = (leaves, ts0)
    /\ ts = normalized <$> ts0
    /\ Forall (fun t =>
         order_at b (passive_level t) (passive_id t) = Some (passive_order t)
         /\ (full_fill t ->
               orders_by_id_ b' !! passive_id t = None
               /\ forall p, order_at b' p (passive_id t) = None)
         /\ (~ full_fill t ->
               orders_by_id_ b' !! passive_id t = Some (passive_level t)
               /\ order_at b' (passive_level t) (passive_id t)
                  = Some (mkOrder (passive_id t)
                            (order_qty (passive_order t)
                             - order_qty (aggressive_order t))))) ts0
    /\ (forall x, x ∉ passive_id <$> ts0 ->
          orders_by_id_ b' !! x = orders_by_id_ b !! x
          /\ forall p, order_at b' p x = order_at b p x)
    /\ (forall p, ids_at b' p `sublist_of` ids_at b p)
    /\ (forall p l', Book.deref p b' = Some l' ->
          level_orders l' <> []
          /\ level_qty l' = wrap64 (sum_qty (level_orders l'))
          /\ is_Some (Book.deref p b)).
Proof.
  intros Hinv Hq _. unfold Book.match_.
  destruct (Book.match_side side id qty price [] b) as [l0 ts0] eqn:E.
  destruct (Book.fill_orders ts0 b) as [ts1 b1] eqn:F.
  intros [= <- <- <-].
  destruct (match_side_trades _ _ _ _ _ _ _ Hinv Hq E)
    as (stop & _ & Hok & _ & Hwalk & Hnd).
  replace ts1 with (fst (Book.fill_orders ts0 b)) by (by rewrite F).
  replace b1 with (snd (Book.fill_orders ts0 b)) by (by rewrite F).
  pose proof (fill_orders_inv _ _ _ _ Hok Hinv) as Hinv'.
  assert (forall p, ids_at (snd (Book.fill_orders ts0 b)) p
                    `sublist_of` ids_at b p) as Hsub.
  { intros p. by eapply ids_at_fill_orders. }
  exists ts0. split; [done|].
  split; [by rewrite (fill_orders_trades _ _ _ _ Hok)|].
  split; [|split; [|split; [done|]]].
  - rewrite Forall_forall in Hwalk. apply Forall_forall. intros t Ht.
    pose proof (walk_order_at _ _ _ _ _ Hinv (Hwalk t Ht)) as Hat.
    split; [exact Hat|]. split.
    + intros Hf. split.
      * by apply (fill_orders_full_result _ _ _ _ _ (passive_level t) Hok Hinv Ht Hf).
      * intros p. by apply (fill_orders_full_result _ _ _ _ _ p Hok Hinv Ht Hf).
    + intros Hf. by apply (fill_orders_partial_result id price).
  - intros x Hx. split.
    + by eapply fill_orders_lookup_other.
    + intros p. by eapply order_at_fill_orders.
  - intros p l' Hd.
    destruct (inv_level _ Hinv' _ _ Hd) as [Hne _ _ Hlq].
    split; [done|]. split; [done|].
    specialize (Hsub p). unfold ids_at in Hsub. rewrite Hd in Hsub.
    destruct (Book.deref p b) as [l|]; [done|].
    apply sublist_nil_r in Hsub. unfold level_ids, queue_ids in Hsub.
    by destruct (level_orders l').
Qed.

Lemma C6_witness :
  orders_by_id_ (snd (Book.match_ Sell "order4" 12 900 [] ex_book))
    !! "order1"%string = None
  /\ order_at (snd (Book.match_ Sell "order4" 12 900 [] ex_book))
       (mkLevelPtr BuyLevels 1000) "order2"
     = Some (mkOrder "order2" 3).
Proof.
  destruct (C6_apply_fills Sell "order4" 12 900 ex_book 0
              (snd (fst (Book.match_ Sell "order4" 12 900 [] ex_book)))
              (snd (Book.match_ Sell "order4" 12 900 [] ex_book))
              ex_book_inv (uint64_example 12 eq_refl) eq_refl eq_refl)
    as (ts0 & Hside & _ & Hall & _).
  assert (ts0
          = [mkTrade 1000 (mkOrder "order1" 10) (mkLevelPtr BuyLevels 1000)
               900 (mkOrder "order4" 10);
             mkTrade 1000 (mkOrder "order2" 5) (mkLevelPtr BuyLevels 1000)
               900 (mkOrder "order4" 2)]) as ->.
  { apply (f_equal snd) in Hside. symmetry. exact Hside. }
  apply Forall_cons in Hall as [(_ & Hfull & _) Hall].
  apply Forall_cons in Hall as [(_ & _ & Hpart) _].
  split.
  - apply Hfull. reflexivity.
  - apply Hpart. discriminate.
Defined.

(** C7. After every command the book is uncrossed: when both sides have
    levels, the best buy price (the first level of the buy side, the
    highest) is strictly below the best sell price (the last level of the
    sell side, the lowest). *)
Theorem C7_book_uncrossed e best_buy best_sell :
  reachable e ->
  head (buy_levels_ (book_ e)) = Some best_buy ->
  last (sell_levels_ (book_ e)) = Some best_sell ->
  level_price best_buy < level_price best_sell
  /\ Forall (fun l => level_price l <= level_price best_buy)
            (buy_levels_ (book_ e))
  /\ Forall (fun l => level_price best_sell <= level_price l)
            (sell_levels_ (book_ e)).
Proof.
  intros Hr Hb Hs. pose proof (reachable_inv e Hr) as Hinv.
  pose proof (inv_sorted _ Hinv BuyLevels) as Hsb.
  pose proof (inv_sorted _ Hinv SellLevels) as Hss. simpl in Hsb, Hss.
  apply head_Some in Hb as [bs Hb]. apply last_Some in Hs as [ss Hs].
  split; [|split].
  - apply (inv_uncrossed _ Hinv).
    + exists best_buy.
      apply (elem_deref BuyLevels); [exact (inv_sorted _ Hinv)|].
      simpl. rewrite Hb. by left.
    + exists best_sell.
      apply (elem_deref SellLevels); [exact (inv_sorted _ Hinv)|].
      simpl. rewrite Hs. apply elem_of_app. right. by left.
  - rewrite Hb in *. destruct Hsb as [Hlt _]. constructor; [lia|].
    eapply Forall_impl; [exact Hlt|]. simpl. intros. lia.
  - rewrite Hs in *. apply sorted_desc_app in Hss as (_ & _ & Hlt).
    apply Forall_app. split; [|by repeat constructor].
    eapply Forall_impl; [exact Hlt|]. simpl.
    intros l [Hl _]%Forall_cons. lia.
Qed.

Lemma C7_witness :
  level_price (mkLevel 15 1000 [mkOrder "order1" 10; mkOrder "order2" 5])
  < level_price (mkLevel 7 1100 [mkOrder "order3" 7])
  /\ Forall (fun l => level_price l
                      <= level_price (mkLevel 15 1000 [mkOrder "order1" 10;
                                                       mkOrder "order2" 5]))
            (buy_levels_ (book_ ex_engine))
  /\ Forall (fun l => level_price (mkLevel 7 1100 [mkOrder "order3" 7])
                      <= level_price l)
            (sell_levels_ (book_ ex_engine)).
Proof.
  apply (C7_book_uncrossed ex_engine).
  - exact ex_engine_reachable.
  - reflexivity.
  - reflexivity.
Defined.

(** C8. A MODIFY that names the side, the price and the quantity a live
    order has is a no-op: no trade is emitted and the book, and so the
    place of the order in its queue, is unchanged. *)
Theorem C8_modify_same_terms_noop e side id price o :
  reachable e -> side <> SideInvalid ->
  order_at (book_ e) (mkLevelPtr (own_set side) price) id = Some o ->
  MatchingEngine.handle_modify (mkModifyOrder id side price (order_qty o)) e
  = mkEngine (book_ e) [].
Proof.
  intros Hr Hside Hat. pose proof (reachable_inv e Hr) as Hinv.
  pose proof (order_at_index _ _ _ _ Hinv Hat) as Hidx.
  unfold order_at in Hat.
  destruct (Book.deref _ (book_ e)) as [l|] eqn:Hd; [|done].
  assert (qty_ok (order_qty o)) as Hq.
  { pose proof (ok_qty l (inv_level _ Hinv _ _ Hd)) as Hqs.
    rewrite Forall_forall in Hqs. apply Hqs.
    by apply find_order_Some in Hat as [? _]. }
  assert (walk side id price (book_ e) = []) as Hwalk.
  { unfold walk.
    assert (Forall (fun l' => compatible side price (level_price l') = false)
              (best_first side (book_ e))) as Hinc.
    { apply Forall_forall. intros l' Hl'.
      apply best_first_levels in Hl'; [|done].
      apply (elem_deref _ _ _ (inv_sorted _ Hinv)) in Hl'.
      pose proof (inv_uncrossed _ Hinv) as Hu. unfold uncrossed in Hu.
      destruct side; simpl in *; [| |done].
      - specialize (Hu price (level_price l') (mk_is_Some _ _ Hd)
                       (mk_is_Some _ _ Hl')).
        destruct (Z.geb_spec price (level_price l')); [lia | done].
      - specialize (Hu (level_price l') price (mk_is_Some _ _ Hl')
                       (mk_is_Some _ _ Hd)).
        destruct (Z.leb_spec price (level_price l')); [lia | done]. }
    destruct (best_first side (book_ e)) as [|l' ls]; [done|].
    apply Forall_cons in Hinc as [Hc _]. simpl. by rewrite Hc. }
  unfold MatchingEngine.handle_modify. simpl.
  rewrite match_eq, Hwalk. simpl.
  unfold Qty.is_zero. destruct (Z.eqb_spec (order_qty o) 0) as [Hz|Hz];
    [unfold qty_ok in Hq; lia|].
  rewrite modify_eq by done.
  rewrite (modify_in_same _ _ _ _ _ _ _ Hidx Hd Hat).
  by rewrite Z.eqb_refl.
Qed.

Lemma C8_witness :
  MatchingEngine.handle_modify
    (mkModifyOrder "order1" Buy 1000 (order_qty (mkOrder "order1" 10))) ex_engine
  = mkEngine (book_ ex_engine) [].
Proof.
  apply (C8_modify_same_terms_noop ex_engine Buy "order1" 1000
           (mkOrder "order1" 10)).
  - exact ex_engine_reachable.
  - discriminate.
  - reflexivity.
Defined.

(** C9, as the specification states it, fails: after a BUY whose price
    does not parse, the PRINT that follows is not executed (the unit test
    "Invalid price and qty" of the source expects this empty output). *)
Lemma C9_counterexample :
  run_test "BUY GFD a 5 order1
PRINT
" = ""%string
  /\ run_test "PRINT
" = "SELL:
BUY:
"%string
  /\ run_test ("BUY GFD a 5 order1
" ++ "PRINT
") <> run_test "PRINT
".
Proof.
  split; [vm_compute; reflexivity|]. split; [vm_compute; reflexivity|].
  vm_compute. discriminate.
Qed.

(** C9, amended.  After a command word is read:
    - when the word is no command, it alone is dropped and [run] goes on
      with the stream right after it;
    - when the fields decoded for it form an invalid message, the command
      is dropped and [run] goes on with the stream after these fields;
      if an extraction failed on the way, [run] then ends at once and no
      later command is executed;
    - in particular, for BUY and SELL, when the price field (after the
      tif) does not start a number, [run] ends there with the processor
      as it was. *)
Theorem C9_malformed_command ins cp cmd ins1 :
  get_string ins = (Some cmd, ins1) ->
  (CommandProcessor.decode cmd ins1 = None ->
     CommandProcessor.run ins cp = CommandProcessor.run ins1 cp)
  /\ (forall m ins2,
        CommandProcessor.decode cmd ins1 = Some (m, ins2) ->
        Msg.is_invalid m = true ->
        CommandProcessor.run ins cp = CommandProcessor.run ins2 cp
        /\ (failbit ins2 = true -> CommandProcessor.run ins cp = (ins2, cp)))
  /\ (forall tif ins2 c s,
        cmd = "BUY"%string \/ cmd = "SELL"%string ->
        get_tif ins1 = (tif, ins2) -> failbit ins2 = false ->
        skipws (buf ins2) = String c s ->
        isdigit c = false -> c <> "-"%char -> c <> "+"%char ->
        CommandProcessor.run ins cp = (mkIstream (String c s) true, cp)).
Proof.
  intros Hcmd.
  assert (forall m ins2,
            CommandProcessor.decode cmd ins1 = Some (m, ins2) ->
            Msg.is_invalid m = true ->
            CommandProcessor.run ins cp = CommandProcessor.run ins2 cp) as Hinv.
  { intros m ins2 Hd Hv. rewrite (run_unfold ins), Hcmd.
    unfold CommandProcessor.handle. by rewrite Hd, Hv. }
  split; [|split].
  - intros Hd. rewrite (run_unfold ins), Hcmd.
    unfold CommandProcessor.handle. by rewrite Hd.
  - intros m ins2 Hd Hv. split; [by eapply Hinv|].
    intros Hf. rewrite (Hinv _ _ Hd Hv). by apply run_failed.
  - intros tif ins2 c s Hverb Htif Hf Hs Hdig Hm Hp.
    set (bad := mkIstream (String c s) true).
    assert (get_add_order ins1 = (mkAddOrder tif 0 0 EmptyString, bad)) as Hadd.
    { unfold get_add_order. rewrite Htif.
      rewrite (get_uint64_not_number _ _ _ Hf Hs Hdig Hm Hp). fold bad.
      rewrite (failbit_sticky_uint64 bad eq_refl).
      unfold get_order_id. by rewrite (failbit_sticky_string bad eq_refl). }
    assert (exists m, CommandProcessor.decode cmd ins1 = Some (m, bad)
                      /\ Msg.is_invalid m = true) as (m & Hd & Hv).
    { unfold CommandProcessor.decode. destruct Hverb as [-> | ->]; simpl;
        rewrite Hadd; eexists; (split; [reflexivity|]);
        simpl; unfold AddOrder.is_invalid; simpl;
        by rewrite orb_true_r. }
    rewrite (Hinv _ _ Hd Hv). by apply run_failed.
Qed.

Lemma C9_malformed_command_witness :
  CommandProcessor.run
    (mkIstream "FOO
PRINT
" false) (CommandProcessor.make (MatchingEngine.make Book.empty))
  = CommandProcessor.run
      (mkIstream "
PRINT
" false) (CommandProcessor.make (MatchingEngine.make Book.empty)).
Proof.
  apply (C9_malformed_command
           (mkIstream "FOO
PRINT
" false) (CommandProcessor.make (MatchingEngine.make Book.empty))
           "FOO" (mkIstream "
PRINT
" false)).
  - reflexivity.
  - reflexivity.
Defined.

(** C10. In a call of [Book::match] the walk pairs each resting order in
    at most one trade; the passive order of a trade is the order as it
    rests in the book at that time, the fill is the minimum of the
    quantity still left and of the passive quantity, and so it never
    exceeds the passive quantity: the precondition of the subtraction in
    [fill_orders] holds for every trade. *)
Theorem C10_fill_within_passive side id qty price b leaves ts :
  book_inv b -> is_uint64 qty ->
  Book.match_side side id qty price [] b = (leaves, ts) ->
  NoDup (passive_id <$> ts)
  /\ Forall (fun t =>
       order_at b (passive_level t) (passive_id t) = Some (passive_order t)
       /\ order_qty (aggressive_order t) <= order_qty (passive_order t)
       /\ Qty.sub_pre (order_qty (passive_order t))
                      (order_qty (aggressive_order t))) ts
  /\ (forall pre t post, ts = pre ++ t :: post ->
        order_qty (aggressive_order t)
        = Z.min (qty - sum_fills pre) (order_qty (passive_order t))).
Proof.
  intros Hinv Hq E.
  destruct (match_side_trades _ _ _ _ _ _ _ Hinv Hq E)
    as (stop & Hw & Hok & _ & Hwalk & Hnd).
  split; [done|]. split.
  - rewrite Forall_forall in Hok, Hwalk. apply Forall_forall. intros t Ht.
    split; [by apply (walk_order_at _ _ _ _ _ Hinv (Hwalk t Ht))|].
    destruct (Hok t Ht) as [[_ Hle] _ _ _ _]. by split.
  - by eapply (fill_walk_min _ _ _ _ _ _ _ Hq (walk_qty_ok side id price b Hinv) Hw).
Qed.

Lemma C10_witness :
  NoDup (passive_id <$> snd (Book.match_side Sell "order3" 12 900 [] ex_book))
  /\ Forall (fun t =>
       order_at ex_book (passive_level t) (passive_id t) = Some (passive_order t)
       /\ order_qty (aggressive_order t) <= order_qty (passive_order t)
       /\ Qty.sub_pre (order_qty (passive_order t))
                      (order_qty (aggressive_order t)))
       (snd (Book.match_side Sell "order3" 12 900 [] ex_book))
  /\ (forall pre t post,
        snd (Book.match_side Sell "order3" 12 900 [] ex_book) = pre ++ t :: post ->
        order_qty (aggressive_order t)
        = Z.min (12 - sum_fills pre) (order_qty (passive_order t))).
Proof.
  apply (C10_fill_within_passive Sell "order3" 12 900 ex_book
           (fst (Book.match_side Sell "order3" 12 900 [] ex_book))).
  - exact ex_book_inv.
  - by apply uint64_example.
  - by destruct (Book.match_side Sell "order3" 12 900 [] ex_book).
Defined.

(** * Further properties of the code *)

(** ** Books with the same levels behind every pointer

    A set in the order of [CompareLevel] is determined by what its
    lookups find, so two books in order are equal as soon as every level
    pointer designates the same level in both and their indexes agree. *)

Section BookExtensionality.

Lemma find_head x ls : LevelSet.find (level_price x) (x :: ls) = Some x.
Proof.
  rewrite find_cons.
  destruct (Z.gtb_spec (level_price x) (level_price x)) as [?|?]; [lia|].
  by rewrite Z.eqb_refl.
Qed.

Lemma sorted_find_ext ls1 ls2 :
  sorted_desc ls1 -> sorted_desc ls2 ->
  (forall p, LevelSet.find p ls1 = LevelSet.find p ls2) -> ls1 = ls2.
Proof.
  revert ls2. induction ls1 as [|x ls1 IH]; intros [|y ls2] H1 H2 Hf.
  - done.
  - specialize (Hf (level_price y)). by rewrite find_head in Hf.
  - specialize (Hf (level_price x)). by rewrite find_head in Hf.
  - destruct H1 as [Hx H1], H2 as [Hy H2].
    assert (x = y) as <-.
    { pose proof (Hf (level_price x)) as Ex. rewrite find_head in Ex.
      symmetry in Ex. apply find_Some in Ex as [Ex _].
      pose proof (Hf (level_price y)) as Ey. rewrite (find_head y) in Ey.
      apply find_Some in Ey as [Ey _].
      apply elem_of_cons in Ex as [Ex|Ex]; [done|].
      apply elem_of_cons in Ey as [Ey|Ey]; [done|].
      rewrite Forall_forall in Hx, Hy.
      specialize (Hx _ Ey). specialize (Hy _ Ex). lia. }
    f_equal. apply IH; [done|done|]. intros p. specialize (Hf p).
    rewrite !find_cons in Hf.
    destruct (Z.gtb_spec (level_price x) p) as [?|?]; [done|].
    rewrite !find_below; [done| |].
    + eapply Forall_impl; [exact Hy|]. simpl. intros. lia.
    + eapply Forall_impl; [exact Hx|]. simpl. intros. lia.
Qed.

Lemma book_ext b1 b2 :
  sorted_book b1 -> sorted_book b2 ->
  (forall p, Book.deref p b1 = Book.deref p b2) ->
  orders_by_id_ b1 = orders_by_id_ b2 -> b1 = b2.
Proof.
  intros H1 H2 Hd Hm. destruct b1 as [bl1 sl1 m1], b2 as [bl2 sl2 m2].
  simpl in Hm. subst m2. f_equal.
  - apply sorted_find_ext; [exact (H1 BuyLevels) | exact (H2 BuyLevels) |].
    intros p. exact (Hd (mkLevelPtr BuyLevels p)).
  - apply sorted_find_ext; [exact (H1 SellLevels) | exact (H2 SellLevels) |].
    intros p. exact (Hd (mkLevelPtr SellLevels p)).
Qed.

Lemma erase_order_app_new id n (qu : list Order) :
  id ∉ queue_ids qu -> erase_order id (qu ++ [mkOrder id n]) = qu.
Proof.
  induction qu as [|o qu IH]; simpl; intros Hn.
  - by rewrite String.eqb_refl.
  - apply not_elem_of_cons in Hn as [Hne Hn].
    destruct (String.eqb_spec id (order_id o)) as [?|?]; [done|].
    by rewrite IH.
Qed.

Lemma level_qty_range l : level_ok l -> is_uint64 (level_qty l).
Proof.
  intros Hok. rewrite (ok_level_qty l Hok). unfold is_uint64, wrap64, UINT64_MAX.
  pose proof (Z.mod_pos_bound (sum_qty (level_orders l)) (2 ^ 64)). lia.
Qed.

Lemma level_cancel_add id q l :
  id ∉ level_ids l -> is_uint64 (level_qty l) ->
  Level.cancel id (Level.add id q l) = l.
Proof.
  intros Hn Hr. unfold Level.cancel, Level.add. simpl.
  rewrite find_order_app.
  apply find_order_None in Hn as Hf. rewrite Hf. simpl.
  rewrite String.eqb_refl. simpl.
  rewrite erase_order_app_new by done.
  unfold Qty.sub, Qty.add. rewrite wrap64_sub_l.
  replace (level_qty l + q - q) with (level_qty l) by lia.
  rewrite wrap64_small by done. by destruct l.
Qed.

Lemma not_live_not_resting b id p l :
  book_inv b -> orders_by_id_ b !! id = None ->
  Book.deref p b = Some l -> id ∉ level_ids l.
Proof.
  intros Hinv Hx Hd Hin.
  assert (orders_by_id_ b !! id = Some p) as Hp.
  { apply (inv_index b Hinv). by exists l. }
  congruence.
Qed.

End BookExtensionality.

(** ** [Book::add], [Book::cancel], [Book::modify] *)

(** X1. [Book::add] followed by [Book::cancel] of the same, new id,
    where the cancel passes the assert of [Level::cancel] (the cached
    quantity of the level is not below the quantity of the order: the
    addition of a quantity of [std::uint64_t] did not wrap it around),
    gives back the book as it was: the same levels on both sides (a
    level created for the order is removed again, the cached quantity of
    an existing level is restored), the same queues and the same
    index. *)
Theorem add_cancel_round_trip side id qty price b :
  book_inv b -> orders_by_id_ b !! id = None ->
  Asserts.cancel id (Book.add side id qty price b) = true ->
  Book.cancel id (Book.add side id qty price b) = b.
Proof.
  intros Hinv Hx _.
  destruct (decide (side = SideInvalid)) as [->|Hside].
  { simpl. by apply cancel_unknown. }
  rewrite add_eq by done.
  pose proof (inv_sorted b Hinv) as Hs.
  destruct (add_to_view b id qty price (own_set side) Hs Hx) as (Hs1 & Hd1 & Hm1).
  set (np := mkLevelPtr (own_set side) price) in *.
  set (b1 := Book.add_to id qty price (own_set side) b) in *.
  set (l0 := default (Level.make price) (Book.deref np b)) in *.
  assert (orders_by_id_ b1 !! id = Some np) as Hx1.
  { rewrite Hm1. apply lookup_insert_eq. }
  assert (Book.deref np b1 = Some (Level.add id qty l0)) as Hnp.
  { rewrite Hd1. by rewrite decide_True. }
  destruct (cancel_view b1 id np _ Hs1 Hx1 Hnp) as (Hs2 & Hd2 & Hm2).
  symmetry. apply book_ext; [done|done| |].
  - intros p'. rewrite Hd2. destruct (decide (p' = np)) as [->|Hne].
    + unfold l0. destruct (Book.deref np b) as [l|] eqn:Hd; simpl.
      * rewrite level_cancel_add.
        -- pose proof (ok_nonempty l (inv_level b Hinv _ _ Hd)) as Hne.
           unfold Level.empty. by destruct (level_orders l).
        -- by eapply not_live_not_resting.
        -- apply level_qty_range. by eapply (inv_level b Hinv).
      * rewrite level_cancel_add; [done| |].
        -- simpl. apply not_elem_of_nil.
        -- simpl. unfold is_uint64, UINT64_MAX. lia.
    + rewrite Hd1. by rewrite decide_False.
  - rewrite Hm2, Hm1. by rewrite delete_insert_id.
Qed.

Lemma add_cancel_round_trip_witness :
  Book.cancel "order9" (Book.add Sell "order9" 4 1200 ex_book) = ex_book.
Proof.
  apply (add_cancel_round_trip Sell "order9" 4 1200 ex_book).
  - exact ex_book_inv.
  - reflexivity.
  - reflexivity.
Defined.

(** The relocation of [Book::modify] and the requantization in place
    both leave the book that [cancel] followed by [add] leaves. *)
Lemma modify_in_cancel_add b x q price s p o :
  book_inv b -> orders_by_id_ b !! x = Some p -> order_at b p x = Some o ->
  p <> mkLevelPtr s price \/ q <> order_qty o ->
  Book.modify_in x q price s b = Book.add_to x q price s (Book.cancel x b).
Proof.
  intros Hinv Hp Hat Hchg.
  pose proof (inv_sorted b Hinv) as Hs.
  set (np := mkLevelPtr s price) in *.
  unfold order_at in Hat.
  destruct (Book.deref p b) as [l|] eqn:Hd; [|done].
  pose proof (inv_level b Hinv _ _ Hd) as Hok.
  assert (orders_by_id_ (Book.cancel x b) !! x = None) as Hgone.
  { rewrite orders_cancel. apply lookup_delete_eq. }
  destruct (cancel_view b x p l Hs Hp Hd) as (Hsc & Hdc & Hmc).
  destruct (add_to_view (Book.cancel x b) x q price s Hsc Hgone)
    as (Hsa & Hda & Hma).
  fold np in Hda, Hma.
  destruct (decide (p = np)) as [->|Hne].
  - (* the same level: the node goes to the back with its new quantity *)
    destruct Hchg as [?|Hq]; [done|].
    rewrite (modify_in_same _ _ _ _ _ _ _ Hp Hd Hat).
    destruct (Z.eqb_spec q (order_qty o)) as [?|_]; [done|].
    apply book_ext.
    + apply sorted_with_level; [apply level_price_modify | done].
    + done.
    + intros p'. rewrite deref_with_level by apply level_price_modify.
      rewrite Hda. destruct (decide (p' = np)) as [->|Hp'].
      * rewrite !decide_True by done. rewrite Hdc, decide_True by done.
        fold np. rewrite Hd. csimpl. f_equal.
        rewrite (level_modify_eq _ _ _ _ (ok_nodup l Hok) Hat).
        unfold Level.cancel, Level.empty. rewrite Hat. simpl.
        destruct (erase_order x (level_orders l)) as [|o' q'] eqn:Her; simpl.
        -- unfold Level.add, Level.make. simpl.
           destruct (find_order_split _ _ _ Hat) as (q1 & q2 & Hl & Her' & _).
           rewrite Her in Her'. symmetry in Her'.
           apply app_eq_nil in Her' as [-> ->].
           rewrite (ok_level_qty l Hok), Hl. simpl.
           pose proof (ok_qty l Hok) as Hqs. rewrite Hl in Hqs.
           apply Forall_cons in Hqs as [Hqo _].
           rewrite (deref_price _ _ _ Hd). simpl. f_equal.
           unfold Qty.add, Qty.sub. rewrite wrap64_sub_l, wrap64_add_l.
           f_equal. lia.
        -- done.
      * fold np. rewrite Hdc. by rewrite !decide_False.
    + rewrite orders_with_level, Hma, Hmc, insert_delete_eq.
      symmetry. by apply insert_id.
  - (* another level: the view of the relocation is the one of [add] *)
    destruct (modify_in_move_view b x q price s p l Hinv Hp Hd Hne)
      as (Hsm & Hdm & Hmm).
    apply book_ext; [done|done| |].
    + intros p'. fold np in Hdm. by rewrite Hdm, Hda.
    + fold np in Hmm. by rewrite Hmm, Hma.
Qed.

(** X2. [Book::modify] of a live order, in the variant that is compiled
    (the node is moved with [splice]), gives the same book as the variant
    of the source under [USE_CANCEL_ADD_FOR_MODIFY], [cancel] followed by
    [add], whenever the order changes its side, its price or its
    quantity. *)
Theorem modify_is_cancel_then_add side id qty price b p o :
  book_inv b -> side <> SideInvalid ->
  orders_by_id_ b !! id = Some p -> order_at b p id = Some o ->
  p <> mkLevelPtr (own_set side) price \/ qty <> order_qty o ->
  Book.modify side id qty price b
  = Book.add side id qty price (Book.cancel id b).
Proof.
  intros Hinv Hside Hp Hat Hchg.
  rewrite modify_eq, add_eq by done.
  by eapply modify_in_cancel_add.
Qed.

Lemma modify_is_cancel_then_add_witness :
  Book.modify Sell "order1" 3 1200 ex_book
  = Book.add Sell "order1" 3 1200 (Book.cancel "order1" ex_book).
Proof.
  apply (modify_is_cancel_then_add Sell "order1" 3 1200 ex_book
           (mkLevelPtr BuyLevels 1000) (mkOrder "order1" 10)).
  - exact ex_book_inv.
  - discriminate.
  - reflexivity.
  - reflexivity.
  - left. discriminate.
Defined.

Section QueuePositions.

Lemma find_order_middle (q1 q2 : list Order) o :
  NoDup (queue_ids (q1 ++ o :: q2)) ->
  find_order (order_id o) (q1 ++ o :: q2) = Some o.
Proof.
  intros Hnd. apply find_order_elem; [done|].
  apply elem_of_app. right. by left.
Qed.

Lemma erase_order_middle (q1 q2 : list Order) o :
  NoDup (queue_ids (q1 ++ o :: q2)) ->
  erase_order (order_id o) (q1 ++ o :: q2) = q1 ++ q2.
Proof.
  induction q1 as [|a q1 IH]; simpl; intros Hnd.
  - by rewrite String.eqb_refl.
  - apply NoDup_cons in Hnd as [Ha Hnd].
    destruct (String.eqb_spec (order_id o) (order_id a)) as [Heq|_].
    + exfalso. apply Ha. rewrite <- Heq. unfold queue_ids.
      rewrite fmap_app. apply elem_of_app. right. csimpl. by left.
    + by rewrite IH.
Qed.

Lemma level_cancel_middle l (q1 q2 : list Order) o :
  level_ok l -> level_orders l = q1 ++ o :: q2 ->
  Level.cancel (order_id o) l
  = mkLevel (Qty.sub (level_qty l) (order_qty o)) (level_price l) (q1 ++ q2).
Proof.
  intros Hok Hl. pose proof (ok_nodup l Hok) as Hnd.
  unfold level_ids in Hnd. rewrite Hl in Hnd.
  unfold Level.cancel. rewrite Hl, find_order_middle by done.
  by rewrite erase_order_middle.
Qed.

(** Where the assert of [Qty::operator-=] holds the subtraction is the
    one of the integers. *)
Lemma sub_pre_exact l o :
  level_ok l -> o ∈ level_orders l ->
  Qty.sub_pre (level_qty l) (order_qty o) ->
  Qty.sub (level_qty l) (order_qty o) = level_qty l - order_qty o.
Proof.
  intros Hok Hin Hpre. pose proof (level_qty_range l Hok) as [_ Hmax].
  pose proof (ok_qty l Hok) as Hqs. rewrite Forall_forall in Hqs.
  pose proof (Hqs o Hin) as [Hpos _].
  unfold Qty.sub_pre in Hpre. unfold Qty.sub.
  apply wrap64_small. unfold is_uint64 in *. lia.
Qed.

End QueuePositions.

(** X3. [Book::modify] with the side and the price of a live order and
    another quantity ([Level::modify]), where the asserts of
    [Level::modify_qty] hold (the new quantity is not zero, the cached
    quantity of the level is not below the quantity of the order): the
    order leaves its place in the queue and goes to the back with the new
    quantity, the orders that were before and behind it keep their
    relative order, the cached quantity of the level is the old one
    minus the quantity the order had plus the new one (the addition in
    [std::uint64_t]), and nothing else changes in the book or in the
    index. *)
Theorem modify_quantity_goes_to_back side id qty price b l q1 o q2 :
  book_inv b -> side <> SideInvalid ->
  orders_by_id_ b !! id = Some (mkLevelPtr (own_set side) price) ->
  Book.deref (mkLevelPtr (own_set side) price) b = Some l ->
  level_orders l = q1 ++ o :: q2 -> order_id o = id ->
  qty <> order_qty o ->
  qty_ok qty -> Qty.sub_pre (level_qty l) (order_qty o) ->
  Asserts.modify side id qty price b = true
  /\ Book.deref (mkLevelPtr (own_set side) price)
    (Book.modify side id qty price b)
  = Some (mkLevel (Qty.add (level_qty l - order_qty o) qty) price
            (q1 ++ q2 ++ [mkOrder id qty]))
  /\ (forall p, p <> mkLevelPtr (own_set side) price ->
        Book.deref p (Book.modify side id qty price b) = Book.deref p b)
  /\ orders_by_id_ (Book.modify side id qty price b) = orders_by_id_ b.
Proof.
  intros Hinv Hside Hp Hd Hl <- Hq Hqty Hpre.
  pose proof (inv_level b Hinv _ _ Hd) as Hok.
  pose proof (ok_nodup l Hok) as Hnd.
  assert (find_order (order_id o) (level_orders l) = Some o) as Hat.
  { rewrite Hl. apply find_order_middle. unfold level_ids in Hnd.
    by rewrite Hl in Hnd. }
  assert (o ∈ level_orders l) as Hin.
  { rewrite Hl. apply elem_of_app. right. by left. }
  split.
  { (* the asserts on this path are those of the hypotheses *)
    assert (Asserts.modify_in (order_id o) qty price (own_set side) b = true)
      as Hok'.
    { unfold Asserts.modify_in. rewrite Hp, Hd, Hat.
      rewrite (deref_price _ _ _ Hd). simpl.
      rewrite bool_decide_eq_true_2, Z.eqb_refl by done. simpl.
      destruct (Z.eqb_spec qty (order_qty o)) as [?|_]; [done|].
      unfold Asserts.level_modify, Asserts.level_modify_qty,
        Asserts.level_cancel, Asserts.sub, Qty.is_zero.
      rewrite Hat. unfold qty_ok in Hqty. unfold Qty.sub_pre in Hpre.
      destruct (Z.eqb_spec qty 0) as [?|_]; [lia|]. simpl.
      by apply Z.leb_le. }
    by destruct side. }
  rewrite modify_eq by done.
  rewrite (modify_in_same _ _ _ _ _ _ _ Hp Hd Hat).
  destruct (Z.eqb_spec qty (order_qty o)) as [?|_]; [done|].
  split; [|split].
  - rewrite deref_with_level by apply level_price_modify.
    rewrite decide_True, Hd by done. csimpl. f_equal.
    rewrite (level_modify_eq _ _ _ _ Hnd Hat).
    rewrite (sub_pre_exact l o Hok Hin Hpre).
    rewrite (deref_price _ _ _ Hd). simpl. f_equal.
    rewrite Hl, erase_order_middle.
    + by rewrite <- app_assoc.
    + unfold level_ids in Hnd. by rewrite Hl in Hnd.
  - intros p Hne. rewrite deref_with_level by apply level_price_modify.
    by rewrite decide_False.
  - apply orders_with_level.
Qed.

Lemma modify_quantity_goes_to_back_witness :
  Book.deref (mkLevelPtr BuyLevels 1000) (Book.modify Buy "order1" 4 1000 ex_book)
  = Some (mkLevel 9 1000 [mkOrder "order2" 5; mkOrder "order1" 4]).
Proof.
  destruct (modify_quantity_goes_to_back Buy "order1" 4 1000 ex_book
              (mkLevel 15 1000 [mkOrder "order1" 10; mkOrder "order2" 5])
              [] (mkOrder "order1" 10) [mkOrder "order2" 5]) as (_ & Hd & _).
  - exact ex_book_inv.
  - discriminate.
  - reflexivity.
  - reflexivity.
  - reflexivity.
  - reflexivity.
  - discriminate.
  - unfold qty_ok, UINT64_MAX. lia.
  - unfold Qty.sub_pre. simpl. lia.
  - exact Hd.
Defined.

(** X4. CANCEL of a live order ([MatchingEngine::handle(CancelOrder)],
    [Book::cancel], [Level::cancel]), where the assert of the
    subtraction in [Level::cancel] holds (the cached quantity of the
    level is not below the quantity of the order): the order leaves its
    queue, the orders before and behind it stay in their order, the
    cached quantity of the level is reduced by the quantity of the order,
    and a level whose queue becomes empty is removed from its side.  No
    other level changes, the id leaves the index, the trade buffer is not
    touched, the book stays well formed, and a second CANCEL of the id
    goes through no assert and does nothing. *)
Theorem handle_cancel_removes_order msg e p l q1 o q2 :
  book_inv (book_ e) ->
  orders_by_id_ (book_ e) !! cancel_order_id msg = Some p ->
  Book.deref p (book_ e) = Some l ->
  level_orders l = q1 ++ o :: q2 -> order_id o = cancel_order_id msg ->
  Qty.sub_pre (level_qty l) (order_qty o) ->
  Asserts.handle_cancel msg e = true
  /\ Book.deref p (book_ (MatchingEngine.handle_cancel msg e))
  = match q1 ++ q2 with
    | [] => None
    | _ :: _ =>
        Some (mkLevel (level_qty l - order_qty o) (level_price l)
                (q1 ++ q2))
    end
  /\ (forall p', p' <> p ->
        Book.deref p' (book_ (MatchingEngine.handle_cancel msg e))
        = Book.deref p' (book_ e))
  /\ orders_by_id_ (book_ (MatchingEngine.handle_cancel msg e))
     = delete (cancel_order_id msg) (orders_by_id_ (book_ e))
  /\ trades_ (MatchingEngine.handle_cancel msg e) = trades_ e
  /\ book_inv (book_ (MatchingEngine.handle_cancel msg e))
  /\ Asserts.handle_cancel msg (MatchingEngine.handle_cancel msg e) = true
  /\ MatchingEngine.handle_cancel msg (MatchingEngine.handle_cancel msg e)
     = MatchingEngine.handle_cancel msg e.
Proof.
  intros Hinv Hp Hd Hl Hid Hpre. destruct msg as [id]. simpl in *. subst id.
  pose proof (inv_level _ Hinv _ _ Hd) as Hok.
  assert (o ∈ level_orders l) as Hin.
  { rewrite Hl. apply elem_of_app. right. by left. }
  assert (find_order (order_id o) (level_orders l) = Some o) as Hat.
  { rewrite Hl. apply find_order_middle. pose proof (ok_nodup l Hok) as Hnd.
    unfold level_ids in Hnd. by rewrite Hl in Hnd. }
  destruct (cancel_view _ _ _ _ (inv_sorted _ Hinv) Hp Hd) as (_ & Hv & Hm).
  rewrite (level_cancel_middle l q1 q2 o Hok Hl) in Hv.
  rewrite (sub_pre_exact l o Hok Hin Hpre) in Hv.
  assert (orders_by_id_ (Book.cancel (order_id o) (book_ e)) !! order_id o
          = None) as Hgone.
  { rewrite orders_cancel. apply lookup_delete_eq. }
  split; [|split; [|split; [|split; [|split; [|split; [|split]]]]]].
  - unfold Asserts.handle_cancel, Asserts.cancel, Asserts.at_level,
      Asserts.level_cancel, Asserts.sub. simpl.
    rewrite Hp, Hd, Hat. by apply Z.leb_le.
  - rewrite Hv, decide_True by done. unfold Level.empty. simpl.
    by destruct (q1 ++ q2).
  - intros p' Hne. rewrite Hv. by rewrite decide_False.
  - done.
  - done.
  - by apply inv_cancel.
  - unfold Asserts.handle_cancel, Asserts.cancel. simpl. by rewrite Hgone.
  - unfold MatchingEngine.handle_cancel. simpl. f_equal.
    by apply cancel_unknown.
Qed.

Lemma handle_cancel_removes_order_witness :
  Book.deref (mkLevelPtr BuyLevels 1000)
    (book_ (MatchingEngine.handle_cancel (mkCancelOrder "order1") ex_engine))
  = Some (mkLevel 5 1000 [mkOrder "order2" 5]).
Proof.
  destruct (handle_cancel_removes_order (mkCancelOrder "order1") ex_engine
              (mkLevelPtr BuyLevels 1000)
              (mkLevel 15 1000 [mkOrder "order1" 10; mkOrder "order2" 5])
              [] (mkOrder "order1" 10) [mkOrder "order2" 5]) as (_ & Hd & _).
  - exact ex_book_inv.
  - reflexivity.
  - reflexivity.
  - reflexivity.
  - reflexivity.
  - unfold Qty.sub_pre. simpl. lia.
  - exact Hd.
Defined.

(** ** Quantities through [Book::match] *)

Section Conservation.

Lemma levels_qty_update p f ls l :
  LevelSet.find p ls = Some l ->
  levels_qty (LevelSet.update p f ls)
  = levels_qty ls - sum_qty (level_orders l) + sum_qty (level_orders (f l)).
Proof.
  induction ls as [|x ls IH]; [done|]. rewrite find_cons. simpl.
  destruct (Z.eqb_spec (level_price x) p) as [Heq|Hne].
  - destruct (Z.gtb_spec (level_price x) p) as [?|_]; [lia|].
    intros [= ->]. simpl. lia.
  - destruct (Z.gtb_spec (level_price x) p) as [_|_]; [|done].
    intros Hf. simpl. rewrite IH by done. lia.
Qed.

Lemma levels_qty_erase p ls l :
  LevelSet.find p ls = Some l ->
  levels_qty (LevelSet.erase p ls) = levels_qty ls - sum_qty (level_orders l).
Proof.
  induction ls as [|x ls IH]; [done|]. rewrite find_cons. simpl.
  destruct (Z.eqb_spec (level_price x) p) as [Heq|Hne].
  - destruct (Z.gtb_spec (level_price x) p) as [?|_]; [lia|].
    intros [= ->]. lia.
  - destruct (Z.gtb_spec (level_price x) p) as [_|_]; [|done].
    intros Hf. simpl. rewrite IH by done. lia.
Qed.

Lemma levels_with_level s p f b :
  Book.levels s (Book.with_level p f b)
  = if decide (s = ptr_levels p)
    then LevelSet.update (ptr_price p) f (Book.levels s b)
    else Book.levels s b.
Proof.
  unfold Book.with_level. rewrite levels_set_levels.
  by destruct (decide (s = ptr_levels p)) as [->|?].
Qed.

Lemma levels_erase_level s p b :
  Book.levels s (erase_level p b)
  = if decide (s = ptr_levels p)
    then LevelSet.erase (ptr_price p) (Book.levels s b)
    else Book.levels s b.
Proof.
  unfold erase_level. rewrite levels_set_levels.
  by destruct (decide (s = ptr_levels p)) as [->|?].
Qed.

Lemma levels_cancel_other s x p b :
  orders_by_id_ b !! x = Some p -> s <> ptr_levels p ->
  Book.levels s (Book.cancel x b) = Book.levels s b.
Proof.
  intros Hp Hne. unfold Book.cancel. rewrite Hp.
  rewrite levels_set_orders, erase_if_empty_eq.
  destruct (Book.deref p (Book.with_level p (Level.cancel x) b)) as [l|];
    [destruct (Level.empty l)|].
  - rewrite levels_erase_level, decide_False by done.
    by rewrite levels_with_level, decide_False.
  - by rewrite levels_with_level, decide_False.
  - by rewrite levels_with_level, decide_False.
Qed.

Lemma levels_qty_cancel x p b l o :
  orders_by_id_ b !! x = Some p -> Book.deref p b = Some l ->
  find_order x (level_orders l) = Some o ->
  levels_qty (Book.levels (ptr_levels p) (Book.cancel x b))
  = levels_qty (Book.levels (ptr_levels p) b) - order_qty o.
Proof.
  intros Hp Hd Ho. unfold Book.cancel. rewrite Hp.
  rewrite levels_set_orders, erase_if_empty_eq.
  assert (Book.deref p (Book.with_level p (Level.cancel x) b)
          = Some (Level.cancel x l)) as Hd1.
  { rewrite deref_with_level by apply level_price_cancel.
    by rewrite decide_True, Hd. }
  assert (levels_qty (Book.levels (ptr_levels p)
                        (Book.with_level p (Level.cancel x) b))
          = levels_qty (Book.levels (ptr_levels p) b) - order_qty o) as Hq.
  { rewrite levels_with_level, decide_True by done.
    rewrite (levels_qty_update _ _ _ l) by exact Hd.
    rewrite level_orders_cancel, (sum_qty_erase_order _ _ _ Ho). lia. }
  rewrite Hd1. destruct (Level.empty (Level.cancel x l)) eqn:He; [|done].
  rewrite levels_erase_level, decide_True by done.
  rewrite (levels_qty_erase _ _ (Level.cancel x l)) by exact Hd1.
  rewrite Hq. unfold Level.empty in He.
  destruct (level_orders (Level.cancel x l)); [simpl; lia | done].
Qed.

Lemma fill_order_levels id price t b :
  book_inv b -> trade_ok id price t ->
  order_at b (passive_level t) (passive_id t) = Some (passive_order t) ->
  (forall s, s <> ptr_levels (passive_level t) ->
     Book.levels s (snd (Book.fill_order t b)) = Book.levels s b)
  /\ levels_qty (Book.levels (ptr_levels (passive_level t))
                   (snd (Book.fill_order t b)))
     = levels_qty (Book.levels (ptr_levels (passive_level t)) b)
       - order_qty (aggressive_order t).
Proof.
  intros Hinv Ht Hat.
  pose proof (order_at_index _ _ _ _ Hinv Hat) as Hidx.
  unfold order_at in Hat.
  destruct (Book.deref (passive_level t) b) as [l|] eqn:Hd; [|done].
  destruct (full_fill_dec t) as [Hf|Hf].
  - rewrite (fill_order_full _ _ _ _ Ht Hf). simpl. split.
    + intros s Hs. by eapply levels_cancel_other.
    + rewrite (levels_qty_cancel _ _ _ _ _ Hidx Hd Hat). by rewrite Hf.
  - rewrite (fill_order_partial _ _ _ _ Ht Hf). simpl. split.
    + intros s Hs. by rewrite levels_with_level, decide_False.
    + rewrite levels_with_level, decide_True by done.
      rewrite (levels_qty_update _ _ _ l) by exact Hd.
      rewrite level_orders_modify_qty.
      rewrite (sum_qty_set_order_qty _ _ _ _ Hat). lia.
Qed.

Lemma fill_orders_levels id price s0 ts :
  forall b,
  book_inv b -> Forall (trade_ok id price) ts ->
  NoDup (passive_id <$> ts) ->
  Forall (fun t =>
    order_at b (passive_level t) (passive_id t) = Some (passive_order t)
    /\ ptr_levels (passive_level t) = s0) ts ->
  (forall s, s <> s0 ->
     Book.levels s (snd (Book.fill_orders ts b)) = Book.levels s b)
  /\ levels_qty (Book.levels s0 (snd (Book.fill_orders ts b)))
     = levels_qty (Book.levels s0 b) - sum_fills ts.
Proof.
  induction ts as [|t ts IH]; intros b Hinv Hok Hnd Hat.
  - simpl. split; [done | lia].
  - apply Forall_cons in Hok as [Ht Hok].
    apply Forall_cons in Hat as [[Hat0 Hs0] Hat].
    csimpl in Hnd. apply NoDup_cons in Hnd as [Hfresh Hnd].
    rewrite fill_orders_cons. simpl.
    destruct (fill_order_levels id price t b Hinv Ht Hat0) as [Hoth Hqty].
    rewrite Hs0 in Hoth, Hqty.
    destruct (IH (snd (Book.fill_order t b))) as [Hoth' Hqty'].
    + by eapply fill_order_inv.
    + done.
    + done.
    + rewrite Forall_forall in Hat. apply Forall_forall. intros t' Hin.
      destruct (Hat t' Hin) as [Hat' Hs']. split; [|done].
      rewrite (order_at_fill_order id price) by
        (try done; intros Heq; apply Hfresh; rewrite <- Heq;
         apply list_elem_of_fmap; by exists t').
      done.
    + split.
      * intros s Hs. rewrite Hoth' by done. by apply Hoth.
      * rewrite Hqty', Hqty. lia.
Qed.

Lemma sum_fills_normalized ts : sum_fills (normalized <$> ts) = sum_fills ts.
Proof. induction ts as [|t ts IH]; [done|]. csimpl. by rewrite IH. Qed.

Lemma fill_walk_positive id price es :
  forall leaves l ts stop,
  is_uint64 leaves -> 0 < leaves ->
  Forall (fun e => qty_ok (order_qty (snd e))) es ->
  fill_walk id price es leaves = (l, ts, stop) ->
  Forall (fun t => 0 < order_qty (aggressive_order t)) ts.
Proof.
  induction es as [|e es IH]; intros leaves l ts stop Hr Hpos Hq; simpl.
  - by intros [= <- <- <-].
  - apply Forall_cons in Hq as [Hqe Hq].
    rewrite (sub_min_small _ _ Hr Hqe). unfold Qty.is_zero.
    assert (0 < Z.min leaves (order_qty (snd e))) as Hmin
      by (unfold qty_ok in Hqe; lia).
    destruct (Z.eqb_spec (leaves - Z.min leaves (order_qty (snd e))) 0)
      as [Hz|Hz].
    + intros [= <- <- <-]. by repeat constructor.
    + destruct (fill_walk id price es
                  (leaves - Z.min leaves (order_qty (snd e))))
        as [[l' ts'] stop'] eqn:E.
      intros [= <- <- <-]. constructor; [done|].
      apply (IH _ _ _ _) in E; [done| | |done].
      * unfold is_uint64 in *. lia.
      * unfold is_uint64 in *. lia.
Qed.

End Conservation.

(** X5. Quantity is conserved through [Book::match].  The quantity left
    is the quantity of the aggressive order minus the sum of the fills;
    the quantity that rests on the opposite side goes down by exactly the
    sum of the fills; the other side is left as it was.  Every trade of
    the buffer carries the fill as the quantity of both of its orders
    (what [fill_orders] arranges for the output), and no trade has a zero
    fill when the aggressive quantity is not zero. *)
Theorem match_conserves_quantity side id qty price b leaves ts b' :
  book_inv b -> is_uint64 qty ->
  Book.match_ side id qty price [] b = (leaves, ts, b') ->
  leaves = qty - sum_fills ts
  /\ levels_qty (Book.levels (opposite_set side) b')
     = levels_qty (Book.levels (opposite_set side) b) - sum_fills ts
  /\ (forall s, s <> opposite_set side -> Book.levels s b' = Book.levels s b)
  /\ Forall (fun t =>
       order_qty (passive_order t) = order_qty (aggressive_order t)
       /\ (qty <> 0 -> 0 < order_qty (aggressive_order t))) ts.
Proof.
  intros Hinv Hq. unfold Book.match_.
  destruct (Book.match_side side id qty price [] b) as [l0 ts0] eqn:E.
  destruct (Book.fill_orders ts0 b) as [ts1 b1] eqn:F.
  intros [= <- <- <-].
  destruct (match_side_trades _ _ _ _ _ _ _ Hinv Hq E)
    as (stop & Hw & Hok & _ & Hwalk & Hnd).
  replace ts1 with (fst (Book.fill_orders ts0 b)) by (by rewrite F).
  replace b1 with (snd (Book.fill_orders ts0 b)) by (by rewrite F).
  rewrite (fill_orders_trades _ _ _ _ Hok), sum_fills_normalized.
  destruct (fill_walk_min _ _ _ _ _ _ _ Hq (walk_qty_ok side id price b Hinv) Hw)
    as [Hleaves _].
  destruct (fill_orders_levels id price (opposite_set side) ts0 b Hinv Hok Hnd)
    as [Hoth Hqty].
  { rewrite Forall_forall in Hwalk. apply Forall_forall. intros t Ht.
    split; [exact (walk_order_at _ _ _ _ _ Hinv (Hwalk t Ht))|].
    by destruct (walk_sound _ _ _ _ _ (inv_sorted b Hinv) (Hwalk t Ht))
      as (? & _). }
  split; [done|]. split; [done|]. split; [done|].
  apply Forall_fmap, Forall_forall. intros t Ht. simpl. split; [done|].
  intros Hnz.
  assert (0 < qty) as Hpos by (unfold is_uint64 in Hq; lia).
  pose proof (fill_walk_positive _ _ _ _ _ _ _ Hq Hpos
                (walk_qty_ok side id price b Hinv) Hw) as Hall.
  rewrite Forall_forall in Hall. by apply Hall.
Qed.

Lemma match_conserves_quantity_witness :
  5 = 20 - sum_fills (snd (fst (Book.match_ Sell "order4" 20 900 [] ex_book)))
  /\ levels_qty (Book.levels BuyLevels
                   (snd (Book.match_ Sell "order4" 20 900 [] ex_book)))
     = levels_qty (Book.levels BuyLevels ex_book)
       - sum_fills (snd (fst (Book.match_ Sell "order4" 20 900 [] ex_book))).
Proof.
  destruct (match_conserves_quantity Sell "order4" 20 900 ex_book 5
              (snd (fst (Book.match_ Sell "order4" 20 900 [] ex_book)))
              (snd (Book.match_ Sell "order4" 20 900 [] ex_book))
              ex_book_inv (uint64_example 20 eq_refl) eq_refl)
    as (Hl & Hq & _).
  split; [|exact Hq]. exact Hl.
Defined.

(** ** MODIFY of a live order *)

Section ModifyLive.

(** [match] leaves the order that carries the aggressive id where it
    is. *)
Lemma match_own_order side id qty price b leaves ts b' :
  book_inv b -> is_uint64 qty ->
  Book.match_ side id qty price [] b = (leaves, ts, b') ->
  (forall p, order_at b' p id = order_at b p id)
  /\ orders_by_id_ b' !! id = orders_by_id_ b !! id.
Proof.
  intros Hinv Hq. unfold Book.match_.
  destruct (Book.match_side side id qty price [] b) as [l0 ts0] eqn:E.
  destruct (Book.fill_orders ts0 b) as [ts1 b1] eqn:F.
  intros [= <- <- <-].
  destruct (match_side_trades _ _ _ _ _ _ _ Hinv Hq E)
    as (stop & _ & Hok & _ & Hwalk & _).
  assert (id ∉ passive_id <$> ts0) as Hnot.
  { intros (t & Heq & Hin)%list_elem_of_fmap.
    rewrite Forall_forall in Hwalk.
    destruct (walk_sound _ _ _ _ _ (inv_sorted b Hinv) (Hwalk t Hin))
      as (_ & _ & Hne & _).
    by apply Hne. }
  replace b1 with (snd (Book.fill_orders ts0 b)) by (by rewrite F).
  split.
  - intros p. by eapply order_at_fill_orders.
  - by eapply fill_orders_lookup_other.
Qed.

Lemma order_at_add_to b x q price s p y :
  book_inv b -> orders_by_id_ b !! x = None ->
  order_at (Book.add_to x q price s b) p y
  = if decide (y = x)
    then (if decide (p = mkLevelPtr s price) then Some (mkOrder x q) else None)
    else order_at b p y.
Proof.
  intros Hinv Hx.
  destruct (add_to_view b x q price s (inv_sorted b Hinv) Hx) as (_ & Hd & _).
  unfold order_at. rewrite Hd.
  assert (forall p' l, Book.deref p' b = Some l ->
                       find_order x (level_orders l) = None) as Hnone.
  { intros p' l Hl. apply find_order_None.
    by eapply not_live_not_resting. }
  destruct (decide (p = mkLevelPtr s price)) as [->|Hne].
  - destruct (Book.deref (mkLevelPtr s price) b) as [l|] eqn:Hl; simpl.
    + rewrite find_order_app. destruct (decide (y = x)) as [->|Hy].
      * rewrite (Hnone _ _ Hl). simpl. by rewrite String.eqb_refl.
      * destruct (find_order y (level_orders l)); [done|]. simpl.
        by destruct (String.eqb_spec y x).
    + destruct (decide (y = x)) as [->|Hy].
      * by rewrite String.eqb_refl.
      * by destruct (String.eqb_spec y x).
  - destruct (decide (y = x)) as [->|Hy]; [|done].
    destruct (Book.deref p b) as [l|] eqn:Hl; [|done].
    by apply (Hnone p).
Qed.

End ModifyLive.

(** X6. MODIFY of a live order ([MatchingEngine::handle(ModifyOrder)]
    with [Book::modify] and [Book::cancel]), in a call that passes the
    asserts on its way (those of [fill_orders], then those of
    [Book::cancel] or [Book::modify]).  The trades of the command are
    those of [match] with the new side, price and quantity.  If they use
    up the new quantity the order is cancelled.  Otherwise the order is
    found, with the quantity left, in the level of its new side and
    price, which the index now records for it.  In both cases every
    other order rests where [match] left it, with the quantity [match]
    left it, and the book stays well formed. *)
Theorem handle_modify_live_order msg e p leaves ts b1 :
  book_inv (book_ e) -> modify_order_ok msg ->
  orders_by_id_ (book_ e) !! modify_order_id msg = Some p ->
  Asserts.handle_modify msg e = true ->
  Book.match_ (modify_side msg) (modify_order_id msg) (modify_qty msg)
    (modify_price msg) [] (book_ e) = (leaves, ts, b1) ->
  trades_ (MatchingEngine.handle_modify msg e) = ts
  /\ (leaves = 0 ->
        orders_by_id_ (book_ (MatchingEngine.handle_modify msg e))
          !! modify_order_id msg = None)
  /\ (leaves <> 0 ->
        orders_by_id_ (book_ (MatchingEngine.handle_modify msg e))
          !! modify_order_id msg
        = Some (mkLevelPtr (own_set (modify_side msg)) (modify_price msg))
        /\ order_at (book_ (MatchingEngine.handle_modify msg e))
             (mkLevelPtr (own_set (modify_side msg)) (modify_price msg))
             (modify_order_id msg)
           = Some (mkOrder (modify_order_id msg) leaves))
  /\ (forall p' x, x <> modify_order_id msg ->
        order_at (book_ (MatchingEngine.handle_modify msg e)) p' x
        = order_at b1 p' x)
  /\ book_inv (book_ (MatchingEngine.handle_modify msg e)).
Proof.
  intros Hinv Hok Hp _ E.
  pose proof (handle_modify_inv msg e Hok Hinv) as Hinv'.
  destruct Hok as (Hv & Hpr & Hq).
  destruct msg as [id side price qty]. simpl in *.
  assert (side <> SideInvalid) as Hside.
  { intros ->. unfold ModifyOrder.is_valid, ModifyOrder.is_invalid in Hv.
    simpl in Hv. by rewrite orb_true_r in Hv. }
  destruct (match_spec _ _ _ _ _ _ _ _ Hinv Hq E)
    as (ts0 & stop & _ & _ & _ & _ & Hinv1 & Hle).
  destruct (match_own_order _ _ _ _ _ _ _ _ Hinv Hq E) as [Hown Hidx].
  rewrite Hp in Hidx.
  unfold MatchingEngine.handle_modify in *. simpl in *. rewrite E in *.
  unfold Qty.is_zero in *.
  destruct (Z.eqb_spec leaves 0) as [Hz|Hz]; simpl in *.
  - split; [done|]. split; [|split; [done|split; [|done]]].
    + intros _. rewrite orders_cancel. apply lookup_delete_eq.
    + intros p' x Hx. rewrite order_at_cancel by done.
      by rewrite decide_False.
  - split; [done|]. split; [done|].
    rewrite modify_eq in * by done.
    set (s := own_set side) in *. set (np := mkLevelPtr s price) in *.
    destruct (live_order b1 id p Hinv1 Hidx) as (l & o & Hd & Ho & Hoid).
    assert (order_at b1 p id = Some o) as Hat.
    { unfold order_at. by rewrite Hd. }
    destruct (decide (p = np /\ leaves = order_qty o)) as [[-> Hsame]|Hchg].
    + rewrite (modify_in_same _ _ _ _ _ _ _ Hidx Hd Ho).
      rewrite Hsame, Z.eqb_refl.
      split; [|split; [done|done]]. intros _. split; [done|].
      rewrite Hat. f_equal. destruct o as [oid oq]. simpl in *. by subst oid.
    + assert (p <> np \/ leaves <> order_qty o) as Hchg'.
      { destruct (decide (p = np)) as [->|?]; [|by left].
        right. intros ?. by apply Hchg. }
      rewrite (modify_in_cancel_add b1 id leaves price s p o Hinv1 Hidx Hat Hchg')
        in Hinv' |- *.
      assert (orders_by_id_ (Book.cancel id b1) !! id = None) as Hgone.
      { rewrite orders_cancel. apply lookup_delete_eq. }
      pose proof (inv_cancel b1 id Hinv1) as Hinvc.
      split; [|split; [|done]].
      * intros _. split.
        -- destruct (add_to_view _ id leaves price s (inv_sorted _ Hinvc) Hgone)
             as (_ & _ & Hm).
           rewrite Hm. apply lookup_insert_eq.
        -- rewrite order_at_add_to by done. by rewrite !decide_True.
      * intros p' x Hx. rewrite order_at_add_to by done.
        rewrite decide_False by done. rewrite order_at_cancel by done.
        by rewrite decide_False.
Qed.

Lemma handle_modify_live_order_witness :
  orders_by_id_
    (book_ (MatchingEngine.handle_modify (mkModifyOrder "order1" Sell 1200 4)
              ex_engine)) !! "order1"%string
  = Some (mkLevelPtr SellLevels 1200)
  /\ order_at
       (book_ (MatchingEngine.handle_modify (mkModifyOrder "order1" Sell 1200 4)
                 ex_engine))
       (mkLevelPtr SellLevels 1200) "order1"
     = Some (mkOrder "order1" 4).
Proof.
  destruct (handle_modify_live_order (mkModifyOrder "order1" Sell 1200 4)
              ex_engine (mkLevelPtr BuyLevels 1000) 4 [] ex_book)
    as (_ & _ & Hl & _).
  - exact ex_book_inv.
  - repeat split; by apply uint64_example.
  - reflexivity.
  - reflexivity.
  - reflexivity.
  - apply Hl. discriminate.
Defined.

(** ** The book after any input *)

(** X7. Whatever the input of [run], the book it leaves is well formed:
    both sides are in strictly decreasing price order (one level per
    price); no level has an empty queue; the quantity a level caches is
    the sum of the quantities of its queue (in [std::uint64_t]), each of
    them positive; an id occurs once in a queue; and the index
    [orders_by_id_] has exactly the orders of the queues, each with the
    side and the price of the level it rests in, so that an id rests in
    one place only. *)
Theorem run_leaves_book_well_formed input :
  let b := book_ (matching_engine_
             (snd (CommandProcessor.run (mkIstream input false)
                     (CommandProcessor.make (MatchingEngine.make Book.empty))))) in
  (forall s, sorted_desc (Book.levels s b))
  /\ (forall s l, l ∈ Book.levels s b ->
        level_orders l <> []
        /\ NoDup (level_ids l)
        /\ level_qty l = wrap64 (sum_qty (level_orders l))
        /\ Forall (fun o => 0 < order_qty o <= UINT64_MAX) (level_orders l))
  /\ (forall s l id, l ∈ Book.levels s b -> id ∈ level_ids l ->
        orders_by_id_ b !! id = Some (mkLevelPtr s (level_price l)))
  /\ (forall id p, orders_by_id_ b !! id = Some p ->
        exists l, l ∈ Book.levels (ptr_levels p) b
                  /\ level_price l = ptr_price p /\ id ∈ level_ids l)
  /\ (forall s1 l1 s2 l2 id,
        l1 ∈ Book.levels s1 b -> id ∈ level_ids l1 ->
        l2 ∈ Book.levels s2 b -> id ∈ level_ids l2 ->
        s1 = s2 /\ l1 = l2).
Proof.
  intros b. pose proof (reachable_inv _ (run_reachable input)) as Hinv.
  fold b in Hinv. pose proof (inv_sorted b Hinv) as Hs.
  assert (forall s l id, l ∈ Book.levels s b -> id ∈ level_ids l ->
            orders_by_id_ b !! id = Some (mkLevelPtr s (level_price l))) as Hidx.
  { intros s l id Hl Hid. apply (inv_index b Hinv). exists l.
    split; [|done]. by apply elem_deref. }
  split; [done|]. split; [|split; [done|split]].
  - intros s l Hl. apply (elem_deref _ _ _ Hs) in Hl.
    destruct (inv_level b Hinv _ _ Hl) as [H1 H2 H3 H4]. done.
  - intros id p Hp. apply (inv_index b Hinv) in Hp as (l & Hd & Hin).
    exists l. split; [by apply deref_elem|]. split; [|done].
    by apply deref_price in Hd.
  - intros s1 l1 s2 l2 id Hl1 Hid1 Hl2 Hid2.
    pose proof (Hidx _ _ _ Hl1 Hid1) as H1.
    pose proof (Hidx _ _ _ Hl2 Hid2) as H2.
    rewrite H1 in H2. injection H2 as -> Hprice. split; [done|].
    apply (elem_deref _ _ _ Hs) in Hl1, Hl2. rewrite Hprice in Hl1.
    congruence.
Qed.

(** ** Messages as text *)

Section Text.
Implicit Types (s w rest : string) (ins : istream).

Lemma append_cons c s1 s2 : (String c s1 ++ s2 = String c (s1 ++ s2))%string.
Proof. reflexivity. Qed.

Lemma append_assoc s1 s2 s3 : ((s1 ++ s2) ++ s3 = s1 ++ s2 ++ s3)%string.
Proof. induction s1 as [|c s1 IH]; [done|]. by rewrite !append_cons, IH. Qed.

Lemma isspace_not_digit c : isspace c = true -> isdigit c = false.
Proof.
  unfold isspace, isdigit. intros H. apply andb_false_iff.
  apply orb_true_iff in H as [H|H].
  - apply N.eqb_eq in H. rewrite H. by left.
  - apply andb_true_iff in H as [_ H]. apply N.leb_le in H.
    left. apply N.leb_gt. lia.
Qed.

Lemma isdigit_not_space c : isdigit c = true -> isspace c = false.
Proof.
  intros H. destruct (isspace c) eqn:E; [|done].
  apply isspace_not_digit in E. congruence.
Qed.

Lemma isdigit_not_sign c :
  isdigit c = true -> Ascii.eqb c "-" = false /\ Ascii.eqb c "+" = false.
Proof.
  intros H. split.
  - destruct (Ascii.eqb_spec c "-") as [->|_]; [done|done].
  - destruct (Ascii.eqb_spec c "+") as [->|_]; [done|done].
Qed.

Lemma at_break_digits rest acc :
  at_break rest = true -> read_digits rest acc = (acc, rest).
Proof.
  destruct rest as [|c rest]; simpl; [done|].
  intros H. by rewrite (isspace_not_digit _ H).
Qed.

Lemma read_digits_uint d rest :
  at_break rest = true ->
  forall acc,
  read_digits (NilEmpty.string_of_uint d ++ rest) acc = (uint_value d acc, rest).
Proof.
  intros Hr. induction d as [|d IH|d IH|d IH|d IH|d IH|d IH|d IH|d IH|d IH|d IH];
    intros acc; simpl NilEmpty.string_of_uint;
    [by apply at_break_digits|..];
    rewrite append_cons; simpl; by rewrite IH.
Qed.

Lemma uint_value_pos d :
  forall acc, uint_value d (Z.pos acc) = Z.pos (Pos.of_uint_acc d acc).
Proof.
  induction d as [|d IH|d IH|d IH|d IH|d IH|d IH|d IH|d IH|d IH|d IH];
    intros acc; simpl; [done|..]; rewrite <- IH; f_equal; lia.
Qed.

Lemma uint_value_0 d : uint_value d 0 = Z.of_N (Pos.of_uint d).
Proof.
  induction d as [|d IH|d IH|d IH|d IH|d IH|d IH|d IH|d IH|d IH|d IH];
    simpl; [done|done|..]; apply uint_value_pos.
Qed.

Lemma read_digits_write z rest :
  0 <= z -> at_break rest = true ->
  read_digits (write_uint64 z ++ rest) 0 = (z, rest).
Proof.
  intros Hz Hr. unfold write_uint64.
  assert (uint_value (N.to_uint (Z.to_N z)) 0 = z) as Hv.
  { rewrite uint_value_0. change (Pos.of_uint ?d) with (N.of_uint d).
    rewrite DecimalN.Unsigned.of_to. lia. }
  destruct (N.to_uint (Z.to_N z)) as [|d|d|d|d|d|d|d|d|d|d] eqn:E;
    [simpl in *; rewrite at_break_digits by done; by rewrite <- Hv|..];
    rewrite <- Hv; apply (read_digits_uint _ _ Hr).
Qed.

Lemma write_uint64_head z :
  exists c s, write_uint64 z = String c s /\ isdigit c = true.
Proof.
  unfold write_uint64.
  destruct (N.to_uint (Z.to_N z)); simpl; by eexists _, _.
Qed.

Lemma get_uint64_skip c s :
  isspace c = true ->
  get_uint64 (mkIstream (String c s) false) = get_uint64 (mkIstream s false).
Proof. intros H. unfold get_uint64. simpl. by rewrite H. Qed.

Lemma get_string_skip c s :
  isspace c = true ->
  get_string (mkIstream (String c s) false) = get_string (mkIstream s false).
Proof. intros H. unfold get_string. simpl. by rewrite H. Qed.

Lemma get_uint64_write z rest :
  is_uint64 z -> at_break rest = true ->
  get_uint64 (mkIstream (write_uint64 z ++ rest) false)
  = (z, mkIstream rest false).
Proof.
  intros [Hz Hmax] Hr.
  pose proof (read_digits_write z rest Hz Hr) as Hd.
  destruct (write_uint64_head z) as (c & s & Hw & Hc).
  rewrite Hw, append_cons in *. unfold get_uint64. simpl buf. simpl failbit.
  cbn [skipws].
  rewrite (isdigit_not_space _ Hc).
  destruct (isdigit_not_sign _ Hc) as [-> ->]. rewrite Hc, Hd.
  destruct (Z.gtb_spec z UINT64_MAX) as [?|_]; [lia | done].
Qed.

Lemma read_word_word w rest :
  no_space w = true -> at_break rest = true ->
  read_word (w ++ rest) = (w, rest).
Proof.
  intros Hw Hr. induction w as [|c w IH].
  - change (read_word rest = (EmptyString, rest)).
    destruct rest as [|c rest]; [done|]. simpl in *. by rewrite Hr.
  - simpl in Hw. apply andb_true_iff in Hw as [Hc Hw].
    apply negb_true_iff in Hc.
    rewrite append_cons. simpl. rewrite Hc, IH by done. done.
Qed.

Lemma get_string_word w rest :
  is_word w = true -> at_break rest = true ->
  get_string (mkIstream (w ++ rest) false) = (Some w, mkIstream rest false).
Proof.
  intros Hw Hr. unfold is_word in Hw. apply andb_true_iff in Hw as [Hne Hw].
  destruct w as [|c w]; [done|].
  pose proof (read_word_word _ _ Hw Hr) as Hrw.
  simpl in Hw. apply andb_true_iff in Hw as [Hc _]. apply negb_true_iff in Hc.
  rewrite append_cons in *.
  unfold get_string. simpl buf. simpl failbit. cbn [skipws].
  rewrite Hc. by rewrite Hrw.
Qed.

Lemma get_order_id_write id rest :
  is_word id = true -> at_break rest = true ->
  get_order_id (mkIstream (sp ++ id ++ rest) false)
  = (id, mkIstream rest false).
Proof.
  intros Hw Hr. unfold get_order_id.
  change (sp ++ id ++ rest)%string with (String " " (id ++ rest)).
  rewrite get_string_skip by done. by rewrite get_string_word.
Qed.

Lemma get_uint64_write_sp z rest :
  is_uint64 z -> at_break rest = true ->
  get_uint64 (mkIstream (sp ++ write_uint64 z ++ rest) false)
  = (z, mkIstream rest false).
Proof.
  intros Hz Hr.
  change (sp ++ write_uint64 z ++ rest)%string
    with (String " " (write_uint64 z ++ rest)).
  rewrite get_uint64_skip by done. by apply get_uint64_write.
Qed.

Lemma get_tif_write tif rest :
  at_break rest = true ->
  get_tif (mkIstream (sp ++ write_tif tif ++ rest) false)
  = (tif, mkIstream rest false).
Proof.
  intros Hr. unfold get_tif.
  change (sp ++ write_tif tif ++ rest)%string
    with (String " " (write_tif tif ++ rest)).
  rewrite get_string_skip by done.
  rewrite get_string_word by (try done; by destruct tif).
  by destruct tif.
Qed.

Lemma get_side_write side rest :
  at_break rest = true ->
  get_side (mkIstream (sp ++ write_side side ++ rest) false)
  = (side, mkIstream rest false).
Proof.
  intros Hr. unfold get_side.
  change (sp ++ write_side side ++ rest)%string
    with (String " " (write_side side ++ rest)).
  rewrite get_string_skip by done.
  rewrite get_string_word by (try done; by destruct side).
  by destruct side.
Qed.

Lemma get_add_order_write msg rest :
  is_uint64 (add_price msg) -> is_uint64 (add_qty msg) ->
  is_word (add_order_id msg) = true -> at_break rest = true ->
  get_add_order
    (mkIstream (sp ++ write_tif (add_tif msg)
                ++ sp ++ write_uint64 (add_price msg)
                ++ sp ++ write_uint64 (add_qty msg)
                ++ sp ++ add_order_id msg ++ rest) false)
  = (msg, mkIstream rest false).
Proof.
  intros Hp Hq Hw Hr. unfold get_add_order.
  rewrite get_tif_write by done.
  rewrite get_uint64_write_sp by done.
  rewrite get_uint64_write_sp by done.
  rewrite get_order_id_write by done.
  by destruct msg.
Qed.

Lemma get_modify_order_write msg rest :
  is_uint64 (modify_price msg) -> is_uint64 (modify_qty msg) ->
  is_word (modify_order_id msg) = true -> at_break rest = true ->
  get_modify_order
    (mkIstream (sp ++ modify_order_id msg
                ++ sp ++ write_side (modify_side msg)
                ++ sp ++ write_uint64 (modify_price msg)
                ++ sp ++ write_uint64 (modify_qty msg) ++ rest) false)
  = (msg, mkIstream rest false).
Proof.
  intros Hp Hq Hw Hr. unfold get_modify_order.
  rewrite get_order_id_write by done.
  rewrite get_side_write by done.
  rewrite get_uint64_write_sp by done.
  rewrite get_uint64_write_sp by done.
  by destruct msg.
Qed.

End Text.

Section Normalize.
Implicit Types (s w rest : string) (ins : istream) (cp : CommandProcessor).

Lemma append_nil_r s : (s ++ "")%string = s.
Proof. induction s as [|c s IH]; [done|]. by rewrite append_cons, IH. Qed.

(** What [CommandWriter] writes for a message is decoded as this
    message. *)
Lemma decode_write m rest :
  printable m -> at_break rest = true ->
  exists cmd ins1,
    get_string (mkIstream (write_msg m ++ rest) false) = (Some cmd, ins1)
    /\ CommandProcessor.decode cmd ins1 = Some (m, mkIstream rest false).
Proof.
  intros Hm Hr. destruct m as [msg|msg|msg|msg| |]; simpl in Hm.
  - destruct Hm as (Hp & Hq & Hw). exists "BUY"%string. eexists. split.
    + unfold write_msg, write_buy_order, write_add_order.
      rewrite !append_assoc. by apply get_string_word.
    + unfold CommandProcessor.decode.
      change (String.eqb "BUY" "BUY") with true. cbv iota.
      by rewrite get_add_order_write.
  - destruct Hm as (Hp & Hq & Hw). exists "SELL"%string. eexists. split.
    + unfold write_msg, write_sell_order, write_add_order.
      rewrite !append_assoc. by apply get_string_word.
    + unfold CommandProcessor.decode.
      change (String.eqb "SELL" "BUY") with false.
      change (String.eqb "SELL" "SELL") with true. cbv iota.
      by rewrite get_add_order_write.
  - exists "CANCEL"%string. eexists. split.
    + unfold write_msg, write_cancel_order.
      rewrite !append_assoc. by apply get_string_word.
    + unfold CommandProcessor.decode.
      change (String.eqb "CANCEL" "BUY") with false.
      change (String.eqb "CANCEL" "SELL") with false.
      change (String.eqb "CANCEL" "CANCEL") with true. cbv iota.
      unfold get_cancel_order. rewrite get_order_id_write by done.
      by destruct msg.
  - destruct Hm as (Hp & Hq & Hw). exists "MODIFY"%string. eexists. split.
    + unfold write_msg, write_modify_order.
      rewrite !append_assoc. by apply get_string_word.
    + unfold CommandProcessor.decode.
      change (String.eqb "MODIFY" "BUY") with false.
      change (String.eqb "MODIFY" "SELL") with false.
      change (String.eqb "MODIFY" "CANCEL") with false.
      change (String.eqb "MODIFY" "MODIFY") with true. cbv iota.
      by rewrite get_modify_order_write.
  - exists "PRINT"%string. eexists. split.
    + by apply get_string_word.
    + done.
  - exists "CLEAR"%string. eexists. split.
    + by apply get_string_word.
    + done.
Qed.

Lemma dispatched_loop_fuel fuel1 fuel2 ins :
  (stream_left ins <= fuel1)%nat -> (stream_left ins <= fuel2)%nat ->
  dispatched_loop fuel1 ins = dispatched_loop fuel2 ins.
Proof.
  revert fuel2 ins.
  induction fuel1 as [|fuel1 IH]; intros fuel2 ins H1 H2.
  - assert (failbit ins = true) as Hf
      by (unfold stream_left in H1; destruct (failbit ins); [done | lia]).
    destruct fuel2; simpl; [done|].
    unfold get_string. by rewrite Hf.
  - destruct fuel2 as [|fuel2].
    + assert (failbit ins = true) as Hf
        by (unfold stream_left in H2; destruct (failbit ins); [done | lia]).
      simpl. unfold get_string. by rewrite Hf.
    + simpl. destruct (get_string ins) as [[cmd|] ins1] eqn:E; [|done].
      apply get_string_left in E.
      destruct (CommandProcessor.decode cmd ins1) as [[m ins2]|] eqn:D.
      * apply decode_left in D.
        destruct (Msg.is_invalid m); [|f_equal]; apply IH; lia.
      * apply IH; lia.
Qed.

Lemma dispatched_unfold ins :
  dispatched ins
  = match get_string ins with
    | (None, _) => []
    | (Some cmd, ins1) =>
        match CommandProcessor.decode cmd ins1 with
        | None => dispatched ins1
        | Some (m, ins2) =>
            if Msg.is_invalid m then dispatched ins2 else m :: dispatched ins2
        end
    end.
Proof.
  unfold dispatched at 1. simpl.
  destruct (get_string ins) as [[cmd|] ins1] eqn:E; [|done].
  apply get_string_left in E.
  assert (forall ins', (stream_left ins' <= stream_left ins1)%nat ->
            dispatched_loop (String.length (buf ins)) ins' = dispatched ins')
    as Hfuel.
  { intros ins' Hle. unfold dispatched. apply dispatched_loop_fuel;
      unfold stream_left in *;
      destruct (failbit ins), (failbit ins1), (failbit ins'); lia. }
  destruct (CommandProcessor.decode cmd ins1) as [[m ins2]|] eqn:D.
  - apply decode_left in D. rewrite (Hfuel ins2) by done. done.
  - by rewrite (Hfuel ins1).
Qed.

Lemma dispatched_skip c s :
  isspace c = true ->
  dispatched (mkIstream (String c s) false) = dispatched (mkIstream s false).
Proof.
  intros Hc. rewrite (dispatched_unfold (mkIstream (String c s) false)).
  rewrite (dispatched_unfold (mkIstream s false)).
  by rewrite get_string_skip.
Qed.

Lemma run_loop_dispatched fuel :
  forall ins cp,
  snd (CommandProcessor.run_loop fuel ins cp)
  = handle_msgs (dispatched_loop fuel ins) cp.
Proof.
  induction fuel as [|fuel IH]; intros ins cp; simpl; [done|].
  destruct (get_string ins) as [[cmd|] ins1]; [|done].
  unfold CommandProcessor.handle.
  destruct (CommandProcessor.decode cmd ins1) as [[m ins2]|];
    [destruct (Msg.is_invalid m)|]; simpl; apply IH.
Qed.

Lemma writer_run_loop_dispatched fuel :
  forall ins os,
  snd (CommandWriter.run_loop fuel ins os)
  = (os ++ write_msgs (dispatched_loop fuel ins))%string.
Proof.
  induction fuel as [|fuel IH]; intros ins os; simpl.
  - by rewrite append_nil_r.
  - destruct (get_string ins) as [[cmd|] ins1];
      [|simpl; by rewrite append_nil_r].
    unfold CommandWriter.handle.
    destruct (CommandProcessor.decode cmd ins1) as [[m ins2]|];
      [destruct (Msg.is_invalid m)|]; simpl; rewrite IH; [done| |done].
    unfold CommandWriter.handle_msg. by rewrite !append_assoc.
Qed.

Lemma normalize_dispatched input :
  normalize input = write_msgs (dispatched (mkIstream input false)).
Proof.
  unfold normalize, CommandWriter.run. by rewrite writer_run_loop_dispatched.
Qed.

Lemma run_dispatched ins cp :
  snd (CommandProcessor.run ins cp) = handle_msgs (dispatched ins) cp.
Proof. apply run_loop_dispatched. Qed.

Lemma read_word_no_space s w rest :
  read_word s = (w, rest) -> no_space w = true.
Proof.
  revert w rest. induction s as [|c s IH]; intros w rest; simpl.
  - by intros [= <- <-].
  - destruct (isspace c) eqn:Hc; [by intros [= <- <-]|].
    destruct (read_word s) as [w' rest'] eqn:E. intros [= <- <-].
    simpl. rewrite Hc. simpl. by eapply IH.
Qed.

Lemma skipws_head s c s' : skipws s = String c s' -> isspace c = false.
Proof.
  induction s as [|c0 s IH]; simpl; [done|].
  destruct (isspace c0) eqn:Hc0; [done|]. by intros [= <- <-].
Qed.

Lemma get_string_is_word ins w ins' :
  get_string ins = (Some w, ins') -> is_word w = true.
Proof.
  unfold get_string. destruct (failbit ins); [done|].
  destruct (skipws (buf ins)) as [|c s] eqn:E; [done|].
  apply skipws_head in E.
  destruct (read_word (String c s)) as [w0 rest] eqn:R.
  intros [= <- <-]. pose proof (read_word_no_space _ _ _ R) as Hn.
  simpl in R. rewrite E in R. destruct (read_word s) as [w' rest'].
  injection R as <- <-. unfold is_word. by rewrite Hn.
Qed.

Lemma get_order_id_is_word ins :
  string_empty (fst (get_order_id ins)) = false ->
  is_word (fst (get_order_id ins)) = true.
Proof.
  unfold get_order_id.
  destruct (get_string ins) as [[w|] ins'] eqn:E; simpl; [|done].
  intros _. by eapply get_string_is_word.
Qed.

Lemma decode_printable cmd ins m ins' :
  CommandProcessor.decode cmd ins = Some (m, ins') ->
  Msg.is_invalid m = false -> printable m.
Proof.
  unfold CommandProcessor.decode.
  destruct (String.eqb cmd "BUY").
  { pose proof (get_add_order_range ins) as [Hp Hq].
    assert (string_empty (add_order_id (fst (get_add_order ins))) = false ->
            is_word (add_order_id (fst (get_add_order ins))) = true) as Hw.
    { unfold get_add_order. destruct (get_tif ins) as [tif ins1].
      destruct (get_uint64 ins1) as [price ins2].
      destruct (get_uint64 ins2) as [qty ins3].
      pose proof (get_order_id_is_word ins3) as Hid.
      by destruct (get_order_id ins3) as [id ins4]. }
    destruct (get_add_order ins) as [msg ins1]. intros [= <- <-].
    simpl in *. unfold AddOrder.is_invalid. intros Hv.
    apply orb_false_iff in Hv as [_ Hv]. split; [done|]. split; [done|]. by apply Hw. }
  destruct (String.eqb cmd "SELL").
  { pose proof (get_add_order_range ins) as [Hp Hq].
    assert (string_empty (add_order_id (fst (get_add_order ins))) = false ->
            is_word (add_order_id (fst (get_add_order ins))) = true) as Hw.
    { unfold get_add_order. destruct (get_tif ins) as [tif ins1].
      destruct (get_uint64 ins1) as [price ins2].
      destruct (get_uint64 ins2) as [qty ins3].
      pose proof (get_order_id_is_word ins3) as Hid.
      by destruct (get_order_id ins3) as [id ins4]. }
    destruct (get_add_order ins) as [msg ins1]. intros [= <- <-].
    simpl in *. unfold AddOrder.is_invalid. intros Hv.
    apply orb_false_iff in Hv as [_ Hv]. split; [done|]. split; [done|]. by apply Hw. }
  destruct (String.eqb cmd "CANCEL").
  { unfold get_cancel_order.
    pose proof (get_order_id_is_word ins) as Hid.
    destruct (get_order_id ins) as [id ins1]. intros [= <- <-].
    simpl in *. unfold CancelOrder.is_invalid. simpl. done. }
  destruct (String.eqb cmd "MODIFY").
  { pose proof (get_modify_order_range ins) as [Hp Hq].
    assert (string_empty (modify_order_id (fst (get_modify_order ins))) = false ->
            is_word (modify_order_id (fst (get_modify_order ins))) = true) as Hw.
    { unfold get_modify_order.
      pose proof (get_order_id_is_word ins) as Hid.
      destruct (get_order_id ins) as [id ins1].
      destruct (get_side ins1) as [side ins2].
      destruct (get_uint64 ins2) as [price ins3].
      by destruct (get_uint64 ins3) as [qty ins4]. }
    destruct (get_modify_order ins) as [msg ins1]. intros [= <- <-].
    simpl in *. unfold ModifyOrder.is_invalid. intros Hv.
    apply orb_false_iff in Hv as [Hv _].
    apply orb_false_iff in Hv as [Hv _].
    apply orb_false_iff in Hv as [Hv _]. split; [done|]. split; [done|]. by apply Hw. }
  destruct (String.eqb cmd "PRINT"); [by intros [= <- <-]|].
  destruct (String.eqb cmd "CLEAR"); [by intros [= <- <-]|].
  done.
Qed.

Lemma dispatched_loop_printable fuel :
  forall ins,
  Forall (fun m => printable m /\ Msg.is_invalid m = false)
         (dispatched_loop fuel ins).
Proof.
  induction fuel as [|fuel IH]; intros ins; simpl; [done|].
  destruct (get_string ins) as [[cmd|] ins1]; [|done].
  destruct (CommandProcessor.decode cmd ins1) as [[m ins2]|] eqn:D; [|done].
  destruct (Msg.is_invalid m) eqn:Hv; [done|].
  constructor; [|done]. split; [|done]. by eapply decode_printable.
Qed.

Lemma at_break_nl rest : at_break (nl ++ rest) = true.
Proof. done. Qed.

Lemma dispatched_write_msgs ms :
  Forall (fun m => printable m /\ Msg.is_invalid m = false) ms ->
  dispatched (mkIstream (write_msgs ms) false) = ms.
Proof.
  induction ms as [|m ms IH]; intros Hms; [done|].
  apply Forall_cons in Hms as [[Hm Hv] Hms]. simpl write_msgs.
  rewrite dispatched_unfold.
  destruct (decode_write m (nl ++ write_msgs ms) Hm (at_break_nl _))
    as (cmd & ins1 & -> & ->).
  rewrite Hv. f_equal.
  change (nl ++ write_msgs ms)%string
    with (String (ascii_of_nat 10) (write_msgs ms)).
  rewrite dispatched_skip by done. by apply IH.
Qed.

End Normalize.

(** X8. What [CommandWriter] writes for a message is read back as the
    same message: the [operator>>] of every message type inverts its
    [operator<<], for the numbers of the range of [std::uint64_t] and an
    id that is a word.  So [run] over such a line (followed by the
    [std::endl] of the writer) calls the handler of that message, and goes
    on with what follows. *)
Theorem message_text_round_trip m rest cp :
  printable m ->
  (at_break rest = true ->
   exists cmd ins1,
     get_string (mkIstream (write_msg m ++ rest) false) = (Some cmd, ins1)
     /\ CommandProcessor.decode cmd ins1 = Some (m, mkIstream rest false))
  /\ (Msg.is_invalid m = false ->
      snd (CommandProcessor.run
             (mkIstream (write_msg m ++ nl ++ rest) false) cp)
      = snd (CommandProcessor.run (mkIstream rest false)
               (CommandProcessor.handle_msg m cp))).
Proof.
  intros Hm. split; [by apply decode_write|]. intros Hv.
  rewrite run_unfold.
  destruct (decode_write m (nl ++ rest) Hm (at_break_nl _))
    as (cmd & ins1 & -> & Hd).
  unfold CommandProcessor.handle. rewrite Hd, Hv.
  rewrite !run_dispatched. f_equal.
  change (nl ++ rest)%string with (String (ascii_of_nat 10) rest).
  by apply dispatched_skip.
Qed.

Lemma message_text_round_trip_witness :
  exists cmd ins1,
    get_string
      (mkIstream (write_msg (MsgModify (mkModifyOrder "order1" Sell 1200 4))
                  ++ nl) false) = (Some cmd, ins1)
    /\ CommandProcessor.decode cmd ins1
       = Some (MsgModify (mkModifyOrder "order1" Sell 1200 4),
               mkIstream nl false).
Proof.
  destruct (message_text_round_trip
              (MsgModify (mkModifyOrder "order1" Sell 1200 4)) nl
              (CommandProcessor.make (MatchingEngine.make Book.empty)))
    as [Hd _].
  - repeat split; by apply uint64_example.
  - apply Hd. reflexivity.
Defined.

(** X9. [CommandWriter] normalizes without changing the meaning: for
    every input, running the command processor on what [CommandWriter]
    writes for it gives the same book, the same trade buffer and the same
    output as running it on the input itself. *)
Theorem run_normalized_input input cp :
  snd (CommandProcessor.run (mkIstream (normalize input) false) cp)
  = snd (CommandProcessor.run (mkIstream input false) cp).
Proof.
  rewrite !run_dispatched, normalize_dispatched.
  rewrite dispatched_write_msgs; [done|].
  apply dispatched_loop_printable.
Qed.

(** X10. The output of [CommandWriter] is in normal form: writing it
    again changes nothing.  Its lines are the valid messages of the
    input, in order; unknown commands and invalid messages are left
    out. *)
Theorem normalize_idempotent input :
  normalize (normalize input) = normalize input
  /\ exists ms,
       normalize input = write_msgs ms
       /\ Forall (fun m => Msg.is_valid m = true) ms
       /\ snd (CommandProcessor.run (mkIstream input false)
                 (CommandProcessor.make (MatchingEngine.make Book.empty)))
          = handle_msgs ms
              (CommandProcessor.make (MatchingEngine.make Book.empty)).
Proof.
  pose proof (dispatched_loop_printable
                (S (String.length input)) (mkIstream input false)) as Hms.
  fold (dispatched (mkIstream input false)) in Hms.
  split.
  - rewrite !normalize_dispatched. by rewrite dispatched_write_msgs.
  - exists (dispatched (mkIstream input false)).
    split; [apply normalize_dispatched|]. split; [|apply run_dispatched].
    eapply Forall_impl; [exact Hms|]. simpl. intros m [_ Hv].
    unfold Msg.is_valid. by rewrite Hv.
Qed.

(** ** What the output and the later behaviour depend on *)

Section SameBook.
Implicit Types (cp : CommandProcessor) (e : MatchingEngine).

Lemma handle_add_book side msg e1 e2 :
  book_ e1 = book_ e2 ->
  MatchingEngine.handle_add side msg e1 = MatchingEngine.handle_add side msg e2.
Proof. intros H. unfold MatchingEngine.handle_add. by rewrite H. Qed.

Lemma handle_modify_book msg e1 e2 :
  book_ e1 = book_ e2 ->
  MatchingEngine.handle_modify msg e1 = MatchingEngine.handle_modify msg e2.
Proof. intros H. unfold MatchingEngine.handle_modify. by rewrite H. Qed.

Lemma handle_msg_same_book m cp1 cp2 :
  book_ (matching_engine_ cp1) = book_ (matching_engine_ cp2) ->
  exists out,
    os_ (CommandProcessor.handle_msg m cp1) = (os_ cp1 ++ out)%string
    /\ os_ (CommandProcessor.handle_msg m cp2) = (os_ cp2 ++ out)%string
    /\ book_ (matching_engine_ (CommandProcessor.handle_msg m cp1))
       = book_ (matching_engine_ (CommandProcessor.handle_msg m cp2)).
Proof.
  intros H. destruct m as [msg|msg|msg|msg| |]; simpl.
  - unfold MatchingEngine.handle_buy.
    rewrite (handle_add_book Buy msg _ _ H). by eexists.
  - unfold MatchingEngine.handle_sell.
    rewrite (handle_add_book Sell msg _ _ H). by eexists.
  - exists EmptyString. rewrite !append_nil_r. by rewrite H.
  - rewrite (handle_modify_book msg _ _ H). by eexists.
  - rewrite H. by eexists.
  - exists EmptyString. by rewrite !append_nil_r.
Qed.

Lemma handle_msgs_same_book ms :
  forall cp1 cp2,
  book_ (matching_engine_ cp1) = book_ (matching_engine_ cp2) ->
  exists out,
    os_ (handle_msgs ms cp1) = (os_ cp1 ++ out)%string
    /\ os_ (handle_msgs ms cp2) = (os_ cp2 ++ out)%string
    /\ book_ (matching_engine_ (handle_msgs ms cp1))
       = book_ (matching_engine_ (handle_msgs ms cp2)).
Proof.
  induction ms as [|m ms IH]; intros cp1 cp2 H; simpl.
  - exists EmptyString. by rewrite !append_nil_r.
  - destruct (handle_msg_same_book m cp1 cp2 H) as (out1 & H1 & H2 & Hb).
    destruct (IH _ _ Hb) as (out2 & H3 & H4 & Hb').
    exists (out1 ++ out2)%string. unfold handle_msgs in *.
    rewrite H3, H4, H1, H2, !append_assoc. done.
Qed.

End SameBook.

(** X11. What [run] writes and the book it leaves depend on the book it
    starts from only: not on the trade buffer of the engine, and not on
    what the output stream already holds, to which [run] only appends.
    In particular, after CLEAR the processor goes on as a new one would:
    it appends what [run_test] of the unit tests gives for the rest of
    the input. *)
Theorem run_depends_on_book_only input cp1 cp2 :
  book_ (matching_engine_ cp1) = book_ (matching_engine_ cp2) ->
  (exists out,
     os_ (snd (CommandProcessor.run (mkIstream input false) cp1))
     = (os_ cp1 ++ out)%string
     /\ os_ (snd (CommandProcessor.run (mkIstream input false) cp2))
        = (os_ cp2 ++ out)%string)
  /\ book_ (matching_engine_
              (snd (CommandProcessor.run (mkIstream input false) cp1)))
     = book_ (matching_engine_
                (snd (CommandProcessor.run (mkIstream input false) cp2)))
  /\ os_ (snd (CommandProcessor.run (mkIstream input false)
                 (CommandProcessor.handle_msg MsgClear cp1)))
     = (os_ cp1 ++ run_test input)%string.
Proof.
  intros H. rewrite !run_dispatched.
  destruct (handle_msgs_same_book (dispatched (mkIstream input false))
              cp1 cp2 H) as (out & H1 & H2 & Hb).
  split; [by exists out|]. split; [done|].
  unfold run_test. rewrite run_dispatched.
  destruct (handle_msgs_same_book (dispatched (mkIstream input false))
              (CommandProcessor.handle_msg MsgClear cp1)
              (CommandProcessor.make (MatchingEngine.make Book.empty)))
    as (out' & H3 & H4 & _); [done|].
  rewrite H3, H4. done.
Qed.

Lemma run_depends_on_book_only_witness :
  book_ (matching_engine_
           (snd (CommandProcessor.run (mkIstream "CANCEL order1" false)
                   (mkProcessor ex_engine "log"))))
  = book_ (matching_engine_
             (snd (CommandProcessor.run (mkIstream "CANCEL order1" false)
                     (mkProcessor (mkEngine ex_book []) EmptyString)))).
Proof.
  destruct (run_depends_on_book_only "CANCEL order1"
              (mkProcessor ex_engine "log")
              (mkProcessor (mkEngine ex_book []) EmptyString))
    as (_ & Hb & _).
  - reflexivity.
  - exact Hb.
Defined.

(** ** Incoming orders *)

Section NoCross.

Lemma walk_no_cross side id price b :
  sorted_book b ->
  (forall l, l ∈ Book.levels (opposite_set side) b ->
             compatible side price (level_price l) = false) ->
  walk side id price b = [].
Proof.
  intros Hs Hnc. unfold walk.
  destruct (decide (side = SideInvalid)) as [->|Hside]; [done|].
  destruct (best_first side b) as [|l ls] eqn:E; [done|].
  simpl. rewrite Hnc; [done|].
  apply best_first_levels; [done|]. rewrite E. by left.
Qed.

End NoCross.

(** X12. An incoming order whose price reaches no level of the opposite
    side trades nothing: [match] returns the whole quantity and leaves
    the book alone, so a GFD order rests whole through [Book::add] and
    an IOC order leaves the engine with the book it had and an empty
    trade buffer. *)
Theorem handle_add_without_crossing side msg e :
  side <> SideInvalid -> book_inv (book_ e) -> add_order_ok msg ->
  (forall l, l ∈ Book.levels (opposite_set side) (book_ e) ->
             compatible side (add_price msg) (level_price l) = false) ->
  Book.match_ side (add_order_id msg) (add_qty msg) (add_price msg) []
    (book_ e) = (add_qty msg, [], book_ e)
  /\ (add_tif msg = GFD ->
        MatchingEngine.handle_add side msg e
        = mkEngine (Book.add side (add_order_id msg) (add_qty msg)
                      (add_price msg) (book_ e)) [])
  /\ (add_tif msg = IOC ->
        MatchingEngine.handle_add side msg e = mkEngine (book_ e) []).
Proof.
  intros Hside Hinv (Hv & Hp & Hq) Hnc.
  assert (Book.match_ side (add_order_id msg) (add_qty msg) (add_price msg) []
            (book_ e) = (add_qty msg, [], book_ e)) as E.
  { rewrite match_eq.
    by rewrite (walk_no_cross _ _ _ _ (inv_sorted _ Hinv) Hnc). }
  split; [done|].
  assert (Qty.is_zero (add_qty msg) = false) as Hnz.
  { unfold AddOrder.is_valid, AddOrder.is_invalid in Hv.
    apply negb_true_iff in Hv.
    apply orb_false_iff in Hv as [Hv _]. by apply orb_false_iff in Hv as [_ Hv]. }
  unfold MatchingEngine.handle_add. rewrite E, Hnz.
  split; by intros ->.
Qed.

Lemma handle_add_without_crossing_witness :
  MatchingEngine.handle_add Buy (mkAddOrder GFD 1050 3 "order4") ex_engine
  = mkEngine (Book.add Buy "order4" 3 1050 ex_book) [].
Proof.
  destruct (handle_add_without_crossing Buy (mkAddOrder GFD 1050 3 "order4")
              ex_engine) as (_ & Hgfd & _).
  - discriminate.
  - exact ex_book_inv.
  - repeat split; by apply uint64_example.
  - intros l Hl. change (l ∈ [mkLevel 7 1100 [mkOrder "order3" 7]]) in Hl.
    apply list_elem_of_singleton in Hl as ->. reflexivity.
  - apply Hgfd. reflexivity.
Defined.

(** X14. [Book::match] is exhaustive.  When it returns with quantity
    left, it has traded with every order of the walk, each for the whole
    of its quantity, and no order other than one with the aggressive id
    rests any more at a price of the opposite side that the aggressive
    price reaches. *)
Theorem match_exhausts_compatible side id qty price b leaves ts b' :
  book_inv b -> is_uint64 qty ->
  Book.match_ side id qty price [] b = (leaves, ts, b') ->
  leaves <> 0 ->
  entry_of <$> ts = walk side id price b
  /\ Forall full_fill ts
  /\ (forall x p, resting_at b' x p ->
        ptr_levels p = opposite_set side ->
        compatible side price (ptr_price p) = true -> x = id).
Proof.
  intros Hinv Hq E Hnz.
  destruct (match_spec _ _ _ _ _ _ _ _ Hinv Hq E)
    as (ts0 & stop & Hw & Hok & -> & _ & _ & _).
  destruct (fill_walk_spec _ _ _ _ _ _ _ Hq (walk_qty_ok side id price b Hinv) Hw)
    as (_ & Hent & _ & _ & Hall).
  destruct (Hall Hnz) as [Hlen Hfull].
  assert (normalized <$> ts0 = ts0) as Hnorm.
  { clear -Hfull. induction Hfull as [|t ts Ht _ IH]; [done|].
    csimpl. by rewrite IH, full_fill_normalized. }
  rewrite Hnorm. split; [|split; [done|]].
  - rewrite Hent, Hlen. apply firstn_all.
  - intros x p Hrest Hs Hc.
    by apply (match_clears _ _ _ _ _ _ _ _ _ _ Hinv Hq E Hnz Hs Hc Hrest).
Qed.

Lemma match_exhausts_compatible_witness :
  entry_of <$> snd (fst (Book.match_ Sell "order4" 20 900 [] ex_book))
  = walk Sell "order4" 900 ex_book.
Proof.
  destruct (match_exhausts_compatible Sell "order4" 20 900 ex_book 5
              (snd (fst (Book.match_ Sell "order4" 20 900 [] ex_book)))
              (snd (Book.match_ Sell "order4" 20 900 [] ex_book)))
    as (Hent & _).
  - exact ex_book_inv.
  - by apply uint64_example.
  - reflexivity.
  - discriminate.
  - exact Hent.
Defined.

(** ** Time priority from one command to the next *)

Section TimePriority.

Lemma pair_sublist {A} (l : list A) x y :
  x ∈ l -> y ∈ l -> x <> y -> [x; y] `sublist_of` l \/ [y; x] `sublist_of` l.
Proof.
  intros Hx Hy Hne. apply list_elem_of_split in Hx as (l1 & l2 & ->).
  apply elem_of_app in Hy as [Hy|Hy].
  - right. apply list_elem_of_split in Hy as (k1 & k2 & ->).
    rewrite <- app_assoc. apply sublist_inserts_l. simpl.
    apply sublist_skip. apply sublist_inserts_l. apply sublist_skip.
    apply sublist_nil_l.
  - apply elem_of_cons in Hy as [Hy|Hy]; [by subst|].
    left. apply sublist_inserts_l, sublist_skip.
    by apply singleton_sublist_l.
Qed.

Lemma NoDup_pair_order {A} (l : list A) x y :
  NoDup l -> [x; y] `sublist_of` l -> [y; x] `sublist_of` l -> False.
Proof.
  induction l as [|a l IH]; intros Hnd H1 H2.
  - by apply sublist_nil_r in H1.
  - apply NoDup_cons in Hnd as [Ha Hnd].
    apply sublist_cons_r in H1 as [H1|(l1 & [= <- <-] & H1)];
      apply sublist_cons_r in H2 as [H2|(l2 & [= <- <-] & H2)].
    + by apply IH.
    + apply Ha. eapply elem_of_sublist; [|exact H1]. right. by left.
    + apply Ha. eapply elem_of_sublist; [|exact H2]. right. by left.
    + apply Ha. by apply singleton_sublist_l.
Qed.

Lemma pair_sublist_snoc {A} (l : list A) x y z :
  y <> z -> [x; y] `sublist_of` l ++ [z] -> [x; y] `sublist_of` l.
Proof.
  intros Hne H. apply sublist_app_r in H as (l1 & l2 & Heq & H1 & H2).
  destruct l2 as [|c l2].
  - rewrite app_nil_r in Heq. by subst l1.
  - (* the last of [x; y] would be [z] *)
    exfalso. apply sublist_cons_r in H2 as [H2|(l' & [= -> ->] & H2)].
    + by apply sublist_nil_r in H2.
    + apply sublist_nil_r in H2 as ->.
      destruct l1 as [|a [|a' l1]]; simplify_eq/=.
      destruct l1; simplify_eq/=.
Qed.

Lemma ids_at_empty p : ids_at Book.empty p = [].
Proof. by destruct p as [[] ?]. Qed.

Lemma ids_at_add_to b z q price s p :
  book_inv b -> orders_by_id_ b !! z = None ->
  ids_at (Book.add_to z q price s b) p
  = ids_at b p ++ (if decide (p = mkLevelPtr s price) then [z] else []).
Proof.
  intros Hinv Hz.
  destruct (add_to_view b z q price s (inv_sorted b Hinv) Hz) as (_ & Hd & _).
  unfold ids_at. rewrite Hd.
  destruct (decide (p = mkLevelPtr s price)) as [->|Hne];
    [|by rewrite app_nil_r].
  rewrite level_ids_add. by destruct (Book.deref (mkLevelPtr s price) b).
Qed.

Lemma keeps_order_sublist id b b' :
  (forall p, ids_at b' p `sublist_of` ids_at b p) -> keeps_order id b b'.
Proof. intros H p x y _ _ Hq. unfold queued_before in *. by etrans. Qed.

Lemma keeps_order_trans id b1 b2 b3 :
  keeps_order id b1 b2 -> keeps_order id b2 b3 -> keeps_order id b1 b3.
Proof. intros H1 H2 p x y Hx Hy Hq. by apply H1, H2. Qed.

Lemma keeps_order_add_to id q price s b :
  book_inv b -> keeps_order id b (Book.add_to id q price s b).
Proof.
  intros Hinv p x y Hx Hy. unfold queued_before.
  destruct (orders_by_id_ b !! id) as [p0|] eqn:Hz.
  - by rewrite add_to_live.
  - rewrite ids_at_add_to by done.
    destruct (decide (p = mkLevelPtr s price)) as [_|_];
      [|by rewrite app_nil_r].
    by apply pair_sublist_snoc.
Qed.

Lemma keeps_order_cancel id z b :
  book_inv b -> keeps_order id b (Book.cancel z b).
Proof. intros Hinv. apply keeps_order_sublist. intros p. by apply ids_at_cancel. Qed.

Lemma keeps_order_modify_in id q price s b :
  book_inv b -> keeps_order id b (Book.modify_in id q price s b).
Proof.
  intros Hinv. destruct (orders_by_id_ b !! id) as [p0|] eqn:Hz.
  - destruct (live_order b id p0 Hinv Hz) as (l & o & Hd & Ho & _).
    assert (order_at b p0 id = Some o) as Hat
      by (unfold order_at; by rewrite Hd).
    destruct (decide (p0 = mkLevelPtr s price /\ q = order_qty o))
      as [[-> ->]|Hchg].
    + rewrite (modify_in_same _ _ _ _ _ _ _ Hz Hd Ho), Z.eqb_refl.
      by intros p x y _ _ ?.
    + rewrite (modify_in_cancel_add b id q price s p0 o Hinv Hz Hat).
      * eapply keeps_order_trans; [by apply keeps_order_cancel|].
        apply keeps_order_add_to. by apply inv_cancel.
      * destruct (decide (p0 = mkLevelPtr s price)) as [->|?]; [|by left].
        right. intros ?. by apply Hchg.
  - rewrite modify_in_unknown by done. by intros p x y _ _ ?.
Qed.

Lemma ids_at_match side id qty price b leaves ts b' p :
  book_inv b -> is_uint64 qty ->
  Book.match_ side id qty price [] b = (leaves, ts, b') ->
  ids_at b' p `sublist_of` ids_at b p.
Proof.
  intros Hinv Hq E.
  destruct (match_spec _ _ _ _ _ _ _ _ Hinv Hq E)
    as (ts0 & stop & _ & Hok & _ & -> & _ & _).
  by eapply ids_at_fill_orders.
Qed.

Lemma NoDup_ids_at b p : book_inv b -> NoDup (ids_at b p).
Proof.
  intros Hinv. unfold ids_at.
  destruct (Book.deref p b) as [l|] eqn:Hd; [|constructor].
  exact (ok_nodup l (inv_level _ Hinv _ _ Hd)).
Qed.

(** Two elements that both remain in a sublist of a list without
    repetition are there in the order they had. *)
Lemma sublist_keeps_pair {A} (l l' : list A) x y :
  NoDup l -> l' `sublist_of` l -> [x; y] `sublist_of` l ->
  x ∈ l' -> y ∈ l' -> [x; y] `sublist_of` l'.
Proof.
  intros Hnd Hsub Hxy Hx Hy.
  assert (x <> y) as Hne.
  { intros ->. pose proof (sublist_NoDup _ _ Hnd Hxy) as H.
    apply NoDup_cons in H as [Hin _]. apply Hin. by left. }
  destruct (pair_sublist _ _ _ Hx Hy Hne) as [H|H]; [done|].
  exfalso. apply (NoDup_pair_order l x y Hnd Hxy). by etrans.
Qed.

Lemma keeps_order_match id0 side id qty price b leaves ts b' :
  book_inv b -> is_uint64 qty ->
  Book.match_ side id qty price [] b = (leaves, ts, b') ->
  keeps_order id0 b b'.
Proof.
  intros Hinv Hq E.
  destruct (match_spec _ _ _ _ _ _ _ _ Hinv Hq E)
    as (ts0 & stop & _ & Hok & _ & -> & _ & _).
  apply keeps_order_sublist. intros p. by eapply ids_at_fill_orders.
Qed.

Lemma keeps_order_engine_step m e id :
  book_inv (book_ e) -> msg_ok m -> (forall z, msg_id m = Some z -> z = id) ->
  keeps_order id (book_ e) (book_ (engine_step m e)).
Proof.
  intros Hinv Hok Hid.
  assert (forall side msg, side <> SideInvalid -> add_order_ok msg ->
            add_order_id msg = id ->
            keeps_order id (book_ e)
              (book_ (MatchingEngine.handle_add side msg e))) as Hadd.
  { intros side msg Hside (Hv & Hp & Hq) <-. unfold MatchingEngine.handle_add.
    destruct (Book.match_ side (add_order_id msg) (add_qty msg) (add_price msg)
                [] (book_ e)) as [[leaves ts] b1] eqn:E.
    pose proof (keeps_order_match (add_order_id msg) _ _ _ _ _ _ _ _ Hinv Hq E)
      as Hk.
    destruct (match_spec _ _ _ _ _ _ _ _ Hinv Hq E)
      as (_ & _ & _ & _ & _ & _ & Hinv1 & _).
    destruct (Qty.is_zero leaves); [done|].
    destruct (add_tif msg); [|done|done]. simpl.
    eapply keeps_order_trans; [exact Hk|].
    rewrite add_eq by done. by apply keeps_order_add_to. }
  destruct m as [msg|msg|msg|msg| |]; simpl in *.
  - apply Hadd; [done|done|by apply Hid].
  - apply Hadd; [done|done|by apply Hid].
  - by apply keeps_order_cancel.
  - destruct Hok as (Hv & Hp & Hq). specialize (Hid _ eq_refl).
    destruct msg as [z side price qty]. simpl in *. subst z.
    assert (side <> SideInvalid) as Hside.
    { intros ->. unfold ModifyOrder.is_valid, ModifyOrder.is_invalid in Hv.
      simpl in Hv. by rewrite orb_true_r in Hv. }
    unfold MatchingEngine.handle_modify. simpl.
    destruct (Book.match_ side id qty price [] (book_ e))
      as [[leaves ts] b1] eqn:E.
    pose proof (keeps_order_match id _ _ _ _ _ _ _ _ Hinv Hq E) as Hk.
    destruct (match_spec _ _ _ _ _ _ _ _ Hinv Hq E)
      as (_ & _ & _ & _ & _ & _ & Hinv1 & _).
    destruct (Qty.is_zero leaves); simpl.
    + eapply keeps_order_trans; [exact Hk|]. by apply keeps_order_cancel.
    + eapply keeps_order_trans; [exact Hk|].
      rewrite modify_eq by done. by apply keeps_order_modify_in.
  - by intros p x y _ _ ?.
  - intros p x y _ _ Hq. unfold queued_before in Hq.
    unfold MatchingEngine.handle_clear, Book.clear in Hq. simpl in Hq.
    rewrite ids_at_empty in Hq. by apply sublist_nil_r in Hq.
Qed.

End TimePriority.

(** X13. An incoming BUY or SELL that carries the id of a live order
    ([Book::add] refuses a live id), in a call that passes the asserts
    of [fill_orders]: whatever it trades, the live order is not touched
    and the incoming order is not added.  The book is the
    one [match] left; in it the live order has the index entry, the
    level and the quantity it had, it is the passive order of no trade,
    and it has kept its place in the queue: every order that still rests
    in its level is before it, or behind it, as it was. *)
Theorem handle_add_live_id side msg e p leaves ts b1 :
  side <> SideInvalid -> book_inv (book_ e) -> add_order_ok msg ->
  orders_by_id_ (book_ e) !! add_order_id msg = Some p ->
  Asserts.handle_add side msg e = true ->
  Book.match_ side (add_order_id msg) (add_qty msg) (add_price msg) []
    (book_ e) = (leaves, ts, b1) ->
  MatchingEngine.handle_add side msg e = mkEngine b1 ts
  /\ orders_by_id_ b1 !! add_order_id msg = Some p
  /\ (forall p', order_at b1 p' (add_order_id msg)
                 = order_at (book_ e) p' (add_order_id msg))
  /\ Forall (fun t => passive_id t <> add_order_id msg) ts
  /\ add_order_id msg ∈ ids_at b1 p
  /\ (forall y, y ∈ ids_at b1 p ->
        (queued_before (book_ e) p (add_order_id msg) y ->
         queued_before b1 p (add_order_id msg) y)
        /\ (queued_before (book_ e) p y (add_order_id msg) ->
            queued_before b1 p y (add_order_id msg))).
Proof.
  intros Hside Hinv (Hv & Hp & Hq) Hlive _ E.
  destruct (match_own_order _ _ _ _ _ _ _ _ Hinv Hq E) as [Hown Hidx].
  rewrite Hlive in Hidx.
  assert (add_order_id msg ∈ ids_at b1 p) as Hin.
  { destruct (match_spec _ _ _ _ _ _ _ _ Hinv Hq E)
      as (_ & _ & _ & _ & _ & _ & Hinv1 & _).
    destruct (live_order b1 _ p Hinv1 Hidx) as (l & o & Hd & Ho & _).
    unfold ids_at. rewrite Hd. apply elem_of_queue_ids. by exists o. }
  split; [|split; [done|split; [done|split; [|split; [done|]]]]].
  - unfold MatchingEngine.handle_add. rewrite E.
    destruct (Qty.is_zero leaves); [done|].
    destruct (add_tif msg); [|done|done].
    rewrite add_eq by done. by rewrite add_to_live.
  - revert E. unfold Book.match_.
    destruct (Book.match_side side (add_order_id msg) (add_qty msg)
                (add_price msg) [] (book_ e)) as [l0 ts0] eqn:E0.
    destruct (Book.fill_orders ts0 (book_ e)) as [ts1 b2] eqn:F.
    intros [= <- <- <-].
    destruct (match_side_trades _ _ _ _ _ _ _ Hinv Hq E0)
      as (stop & _ & Hok & _ & Hwalk & _).
    replace ts1 with (fst (Book.fill_orders ts0 (book_ e))) by (by rewrite F).
    rewrite (fill_orders_trades _ _ _ _ Hok). apply Forall_fmap.
    eapply Forall_impl; [exact Hwalk|]. intros t Ht. simpl.
    by destruct (walk_sound _ _ _ _ _ (inv_sorted _ Hinv) Ht) as (_ & _ & ? & _).
  - intros y Hy.
    pose proof (ids_at_match _ _ _ _ _ _ _ _ p Hinv Hq E) as Hsub.
    pose proof (NoDup_ids_at _ p Hinv) as Hnd.
    split; intros Hbefore; unfold queued_before in *;
      by apply (sublist_keeps_pair (ids_at (book_ e) p)).
Qed.

Lemma handle_add_live_id_witness :
  MatchingEngine.handle_add Sell (mkAddOrder GFD 1000 3 "order1") ex_engine
  = mkEngine (snd (Book.match_ Sell "order1" 3 1000 [] ex_book))
             (snd (fst (Book.match_ Sell "order1" 3 1000 [] ex_book)))
  /\ queued_before (snd (Book.match_ Sell "order1" 3 1000 [] ex_book))
       (mkLevelPtr BuyLevels 1000) "order1" "order2".
Proof.
  destruct (handle_add_live_id Sell (mkAddOrder GFD 1000 3 "order1") ex_engine
              (mkLevelPtr BuyLevels 1000)
              (fst (fst (Book.match_ Sell "order1" 3 1000 [] ex_book)))
              (snd (fst (Book.match_ Sell "order1" 3 1000 [] ex_book)))
              (snd (Book.match_ Sell "order1" 3 1000 [] ex_book)))
    as (He & _ & _ & _ & _ & Hpos).
  - discriminate.
  - exact ex_book_inv.
  - repeat split; by apply uint64_example.
  - reflexivity.
  - reflexivity.
  - reflexivity.
  - split; [exact He|].
    apply (Hpos "order2"%string).
    + by right; left.
    + by apply sublist_skip, sublist_skip.
Defined.

(** X15. Time priority is stable from one command to the next.  If [x]
    is queued before [y] in a level, then after any command that names
    neither of them (as the order to add, cancel or modify), and as long
    as both still rest in that level, [x] is still queued before [y]:
    fills, cancels, additions and modifications of other orders never
    let an order overtake another. *)
Theorem time_priority_is_stable m e p x y :
  book_inv (book_ e) -> msg_ok m ->
  msg_id m <> Some x -> msg_id m <> Some y ->
  queued_before (book_ e) p x y ->
  x ∈ ids_at (book_ (engine_step m e)) p ->
  y ∈ ids_at (book_ (engine_step m e)) p ->
  queued_before (book_ (engine_step m e)) p x y.
Proof.
  intros Hinv Hok Hx Hy Hq Hx' Hy'.
  assert (NoDup (ids_at (book_ e) p)) as Hnd.
  { unfold ids_at. destruct (Book.deref p (book_ e)) as [l|] eqn:Hd;
      [|constructor].
    exact (ok_nodup l (inv_level _ Hinv _ _ Hd)). }
  assert (x <> y) as Hne.
  { intros ->. unfold queued_before in Hq.
    pose proof (sublist_NoDup _ _ Hnd Hq) as Hxy.
    apply NoDup_cons in Hxy as [Hin _]. apply Hin. by left. }
  destruct (pair_sublist _ _ _ Hx' Hy' Hne) as [H|H]; [done|].
  exfalso.
  set (id := default EmptyString (msg_id m)).
  assert (keeps_order id (book_ e) (book_ (engine_step m e))) as Hk.
  { apply keeps_order_engine_step; [done|done|].
    intros z Hz. unfold id. by rewrite Hz. }
  destruct (msg_id m) as [z|] eqn:Hz.
  - apply (NoDup_pair_order _ x y Hnd Hq).
    apply (Hk p y x); [| |done]; unfold id; simpl; congruence.
  - (* PRINT leaves the book as it is and CLEAR leaves no order *)
    destruct m; try done; simpl in *.
    + by apply (NoDup_pair_order _ x y Hnd Hq).
    + unfold MatchingEngine.handle_clear, Book.clear in Hx'. simpl in Hx'.
      rewrite ids_at_empty in Hx'. by apply elem_of_nil in Hx'.
Qed.

Lemma time_priority_is_stable_witness :
  queued_before
    (book_ (engine_step (MsgSell (mkAddOrder IOC 1000 3 "order4")) ex_engine))
    (mkLevelPtr BuyLevels 1000) "order1" "order2".
Proof.
  apply (time_priority_is_stable (MsgSell (mkAddOrder IOC 1000 3 "order4"))
           ex_engine (mkLevelPtr BuyLevels 1000) "order1" "order2").
  - exact ex_book_inv.
  - repeat split; by apply uint64_example.
  - discriminate.
  - discriminate.
  - by apply sublist_skip, sublist_skip.
  - by left.
  - by right; left.
Defined.

(** ** The threads of [--run-threads] *)

Section Threads.
Implicit Types (st : Threads) (cp : CommandProcessor) (ins : istream).

Lemma task_handle_msg m cp :
  QueueingCommandProcessor.task m cp = CommandProcessor.handle_msg m cp.
Proof. by destruct m. Qed.

Lemma handle_msgs_snoc ms m cp :
  handle_msgs (ms ++ [m]) cp = CommandProcessor.handle_msg m (handle_msgs ms cp).
Proof. unfold handle_msgs. by rewrite foldl_app. Qed.

Lemma queueing_handle_dispatched cmd ins1 ins (queue : ThreadsafeQueue.t)
    ins2 queue' :
  get_string ins = (Some cmd, ins1) ->
  QueueingCommandProcessor.handle cmd ins1 queue = (ins2, queue') ->
  exists ms,
    queue' = queue ++ (QueueingCommandProcessor.task <$> ms)
    /\ dispatched ins = ms ++ dispatched ins2
    /\ (stream_left ins2 < stream_left ins)%nat.
Proof.
  intros Hg Hh. rewrite (dispatched_unfold ins), Hg.
  apply get_string_left in Hg.
  unfold QueueingCommandProcessor.handle in Hh.
  destruct (CommandProcessor.decode cmd ins1) as [[m ins']|] eqn:D.
  - apply decode_left in D. destruct (Msg.is_invalid m).
    + injection Hh as <- <-. exists []. rewrite app_nil_r.
      split; [done|]. split; [done|lia].
    + injection Hh as <- <-. exists [m]. split; [done|]. split; [done|lia].
  - injection Hh as <- <-. exists []. rewrite app_nil_r.
    split; [done|]. split; [done|lia].
Qed.

Lemma threads_inv_start input cp : threads_inv input cp (threads_start input cp).
Proof.
  exists [], []. simpl. split; [done|]. split; [done|]. split; [done|].
  split; [done|]. split; [by intros [?|?]|done].
Qed.

Lemma threads_inv_step input cp0 st st' :
  thread_step st st' -> threads_inv input cp0 st -> threads_inv input cp0 st'.
Proof.
  intros Hstep (done & todo & Hcp & Hq & Hd & Hflag & Hcons & Hend).
  destruct Hstep as
    [ins queue dn c cp cmd ins1 ins2 queue' Hg Hh
    |ins queue dn c cp ins' Hg
    |ins queue dn c cp
    |ins pr queue dn cp
    |ins pr queue dn cp task queue' Hpop
    |ins pr queue dn cp task queue' Hpop
    |ins pr queue dn cp Hpop]; simpl in *.
  - destruct (queueing_handle_dispatched _ _ _ _ _ _ Hg Hh)
      as (ms & -> & Hms & _).
    exists done, (todo ++ ms). simpl.
    split; [done|]. split; [by rewrite fmap_app, Hq|].
    split; [by rewrite Hd, Hms, !app_assoc|].
    split; [done|]. split; [done|].
    intros Hc. specialize (Hcons (or_intror Hc)). by specialize (Hflag Hcons).
  - exists done, todo. simpl. split; [done|]. split; [done|].
    split; [|split; [intros Ht; by specialize (Hflag Ht)|split; [done|done]]].
    rewrite Hd. rewrite (dispatched_unfold ins), Hg. done.
  - exists done, todo. simpl. by repeat split.
  - exists done, todo. simpl. split; [done|]. split; [done|].
    split; [done|]. split; [done|]. split; [|by destruct dn].
    destruct dn; [done|]. by intros [?|?].
  - destruct queue as [|t queue]; [done|]. injection Hpop as <- <-.
    destruct todo as [|m todo]; [done|]. injection Hq as -> ->.
    exists (done ++ [m]), todo. simpl.
    split; [by rewrite handle_msgs_snoc, task_handle_msg, Hcp|].
    split; [done|]. split; [by rewrite Hd, <- !app_assoc|].
    split; [done|]. split; [by intros [?|?]|done].
  - destruct queue as [|t queue]; [done|]. injection Hpop as <- <-.
    destruct todo as [|m todo]; [done|]. injection Hq as -> ->.
    exists (done ++ [m]), todo. simpl.
    split; [by rewrite handle_msgs_snoc, task_handle_msg, Hcp|].
    split; [done|]. split; [by rewrite Hd, <- !app_assoc|].
    split; [done|]. split; [|done]. intros _. apply Hcons. by left.
  - destruct queue as [|t queue]; [|done].
    exists done, todo. simpl. split; [done|]. split; [done|].
    split; [done|]. split; [done|]. split.
    + intros _. apply Hcons. by left.
    + intros _. by destruct todo.
Qed.

Lemma threads_inv_reach input cp st :
  threads_reach input cp st -> threads_inv input cp st.
Proof.
  unfold threads_reach. intros Hr.
  apply (rtc_ind_r (R := thread_step) (threads_inv input cp)
           (threads_start input cp));
    [apply threads_inv_start | | exact Hr].
  intros y z _ Hstep Hy. by eapply threads_inv_step.
Qed.

(** The producer can go through the whole input. *)
Lemma producer_runs n :
  forall ins (queue : ThreadsafeQueue.t) c cp,
  (stream_left ins <= n)%nat ->
  exists ins',
    rtc thread_step
      (mkThreads ins Reading queue false c cp)
      (mkThreads ins' Storing
         (queue ++ (QueueingCommandProcessor.task <$> dispatched ins))
         false c cp).
Proof.
  induction n as [|n IH]; intros ins queue c cp Hn.
  - assert (failbit ins = true) as Hf
      by (unfold stream_left in Hn; destruct (failbit ins); [done | lia]).
    exists ins. rewrite (dispatched_unfold ins).
    rewrite (failbit_sticky_string _ Hf). simpl. rewrite app_nil_r.
    apply rtc_once. apply producer_returns. by apply failbit_sticky_string.
  - destruct (get_string ins) as [[cmd|] ins1] eqn:Hg.
    + destruct (QueueingCommandProcessor.handle cmd ins1 queue)
        as [ins2 queue'] eqn:Hh.
      destruct (queueing_handle_dispatched _ _ _ _ _ _ Hg Hh)
        as (ms & -> & Hms & Hlt).
      destruct (IH ins2 (queue ++ (QueueingCommandProcessor.task <$> ms)) c cp)
        as [ins' Hrun]; [lia|].
      exists ins'. eapply rtc_l; [by eapply producer_handles|].
      by rewrite Hms, fmap_app, app_assoc.
    + exists ins1. rewrite (dispatched_unfold ins), Hg. simpl.
      rewrite app_nil_r. apply rtc_once. by apply producer_returns.
Qed.

(** While the flag is not set the consumer can empty the queue, and
    then waits for a task. *)
Lemma consumer_drains ms :
  forall ins pr cp,
  rtc thread_step
    (mkThreads ins pr (QueueingCommandProcessor.task <$> ms) false Testing cp)
    (mkThreads ins pr [] false Waiting (handle_msgs ms cp)).
Proof.
  induction ms as [|m ms IH]; intros ins pr cp; csimpl.
  - apply rtc_once. apply (consumer_tests ins pr [] false cp).
  - eapply rtc_l; [apply (consumer_tests ins pr _ false cp)|]. simpl.
    eapply rtc_l; [by apply consumer_waits_and_pops|].
    rewrite task_handle_msg. apply IH.
Qed.

(** Once the flag is set the consumer empties the queue with [try_pop]
    and returns. *)
Lemma consumer_finishes ms :
  forall ins pr cp,
  rtc thread_step
    (mkThreads ins pr (QueueingCommandProcessor.task <$> ms) true Draining cp)
    (mkThreads ins pr [] true ConsumerEnd (handle_msgs ms cp)).
Proof.
  induction ms as [|m ms IH]; intros ins pr cp; csimpl.
  - apply rtc_once. by apply consumer_returns.
  - eapply rtc_l; [by apply consumer_try_pops|].
    rewrite task_handle_msg. apply IH.
Qed.

Lemma asserts_handle_msgs_app ms1 :
  forall ms2 cp,
  Asserts.handle_msgs (ms1 ++ ms2) cp
  = Asserts.handle_msgs ms1 cp && Asserts.handle_msgs ms2 (handle_msgs ms1 cp).
Proof.
  induction ms1 as [|m ms1 IH]; intros ms2 cp; [done|].
  simpl. rewrite IH. by rewrite andb_assoc.
Qed.

(** Where the handlers pass their asserts on the messages of the input
    in turn, the task at the head of the queue passes its asserts in
    every state of every execution. *)
Lemma threads_tasks_pass_asserts input cp st t queue :
  Asserts.handle_msgs (dispatched (mkIstream input false)) cp = true ->
  threads_reach input cp st ->
  task_queue_ st = t :: queue ->
  exists m,
    t = QueueingCommandProcessor.task m
    /\ Asserts.engine_step m (matching_engine_ (cmd_processor_ st)) = true.
Proof.
  intros Hall Hr Hq.
  destruct (threads_inv_reach _ _ _ Hr)
    as (done & todo & Hcp & Hqueue & Hd & _).
  rewrite Hq in Hqueue. destruct todo as [|m todo]; [done|].
  injection Hqueue as -> _. exists m. split; [done|].
  rewrite Hd, asserts_handle_msgs_app in Hall.
  apply andb_true_iff in Hall as [_ Hall]. simpl in Hall.
  apply andb_true_iff in Hall as [Hall _]. by rewrite Hcp.
Qed.

(** An execution of [ex_input]: the consumer runs the task of the BUY
    while the producer has not yet read the SELL, reads the flag after
    the producer has stored it, and empties the queue with [try_pop]. *)
Lemma ex_threads_end_reach :
  threads_reach ex_input
    (CommandProcessor.make (MatchingEngine.make Book.empty)) ex_threads_end.
Proof.
  unfold threads_reach, threads_start.
  eapply rtc_l; [eapply producer_handles; reflexivity|].
  eapply rtc_l; [apply consumer_tests|].
  eapply rtc_l; [eapply consumer_waits_and_pops; reflexivity|].
  eapply rtc_l; [eapply producer_handles; reflexivity|].
  eapply rtc_l; [eapply producer_returns; reflexivity|].
  eapply rtc_l; [apply producer_stores|].
  eapply rtc_l; [apply consumer_tests|].
  eapply rtc_l; [eapply consumer_try_pops; reflexivity|].
  apply rtc_once. by apply consumer_returns.
Qed.

End Threads.

(** X16. With [--run-threads] the tasks run in the order of the input.
    In every state that an interleaving of the producer and the consumer
    thread reaches, the matching engine and the output are those the
    single-threaded processor has after a prefix of the messages of the
    input: no task is lost, repeated or run out of order.  When the
    consumer thread has returned, the producer has too, and the result
    is the one of [CommandProcessor::run] on the whole input. *)
Theorem threads_run_tasks_in_order input cp st :
  threads_reach input cp st ->
  exists done,
    done `prefix_of` dispatched (mkIstream input false)
    /\ cmd_processor_ st = handle_msgs done cp
    /\ (consumer_ st = ConsumerEnd ->
        producer_ st = ProducerEnd /\ task_queue_ st = []
        /\ cmd_processor_ st
           = snd (CommandProcessor.run (mkIstream input false) cp)).
Proof.
  intros Hr.
  destruct (threads_inv_reach _ _ _ Hr)
    as (done & todo & Hcp & Hq & Hd & Hflag & Hcons & Hend).
  exists done. split; [|split; [done|]].
  - rewrite Hd. by eexists.
  - intros Hc. specialize (Hend Hc). subst todo.
    pose proof (Hflag (Hcons (or_intror Hc))) as Hp.
    rewrite Hp in Hd. simpl in Hd. rewrite app_nil_r in Hd.
    split; [done|]. split; [by rewrite Hq|].
    by rewrite run_dispatched, Hd.
Qed.

Lemma threads_run_tasks_in_order_witness :
  exists done,
    done `prefix_of` dispatched (mkIstream ex_input false)
    /\ cmd_processor_ ex_threads_end
       = handle_msgs done
           (CommandProcessor.make (MatchingEngine.make Book.empty))
    /\ cmd_processor_ ex_threads_end
       = snd (CommandProcessor.run (mkIstream ex_input false)
                (CommandProcessor.make (MatchingEngine.make Book.empty))).
Proof.
  destruct (threads_run_tasks_in_order ex_input
              (CommandProcessor.make (MatchingEngine.make Book.empty))
              ex_threads_end ex_threads_end_reach)
    as (done & Hpre & Hcp & Hend).
  exists done. split; [exact Hpre|]. split; [exact Hcp|].
  apply Hend. reflexivity.
Defined.

(** X17. With [--run-threads] it depends on the schedule whether the
    program ends.  Take an input on whose messages the handlers pass
    their asserts in turn.  Then in every state of every execution the
    task at the head of the queue passes its asserts, so no execution
    aborts.  There is an interleaving in which both threads return.
    There is also one in which the consumer reads [is_producer_done]
    before the producer stores it, runs every task, and then waits in
    [wait_and_pop] on the empty queue: the producer is at its end,
    nothing will be pushed any more, and no thread can take a step,
    although every command of the input has been executed. *)
Theorem threads_may_block_forever input cp :
  Asserts.handle_msgs (dispatched (mkIstream input false)) cp = true ->
  (forall st t queue,
     threads_reach input cp st -> task_queue_ st = t :: queue ->
     exists m,
       t = QueueingCommandProcessor.task m
       /\ Asserts.engine_step m (matching_engine_ (cmd_processor_ st)) = true)
  /\ (exists st,
        threads_reach input cp st
        /\ producer_ st = ProducerEnd /\ consumer_ st = ConsumerEnd)
  /\ (exists st,
        threads_reach input cp st
        /\ threads_stuck st
        /\ producer_ st = ProducerEnd
        /\ consumer_ st = Waiting
        /\ task_queue_ st = []
        /\ is_producer_done st = true
        /\ cmd_processor_ st
           = snd (CommandProcessor.run (mkIstream input false) cp)).
Proof.
  intros Hall.
  split; [intros st t queue Hr Hq; by eapply threads_tasks_pass_asserts|].
  destruct (producer_runs (stream_left (mkIstream input false))
              (mkIstream input false) [] Testing cp (le_n _)) as [ins' Hrun].
  simpl in Hrun. split.
  - exists (mkThreads ins' ProducerEnd [] true ConsumerEnd
              (handle_msgs (dispatched (mkIstream input false)) cp)).
    split; [|done]. unfold threads_reach, threads_start.
    etrans; [exact Hrun|].
    eapply rtc_l; [apply producer_stores|].
    eapply rtc_l; [apply consumer_tests|]. simpl.
    apply consumer_finishes.
  - exists (mkThreads ins' ProducerEnd [] true Waiting
              (handle_msgs (dispatched (mkIstream input false)) cp)).
    split; [|split; [|by rewrite run_dispatched]].
    + unfold threads_reach, threads_start.
      etrans; [exact Hrun|]. etrans; [apply consumer_drains|].
      apply rtc_once. apply producer_stores.
    + intros st' Hstep. inversion Hstep; subst; simplify_eq/=.
Qed.

Lemma threads_may_block_forever_witness :
  exists st,
    threads_reach ex_input
      (CommandProcessor.make (MatchingEngine.make Book.empty)) st
    /\ threads_stuck st
    /\ consumer_ st = Waiting
    /\ cmd_processor_ st
       = snd (CommandProcessor.run (mkIstream ex_input false)
                (CommandProcessor.make (MatchingEngine.make Book.empty))).
Proof.
  destruct (threads_may_block_forever ex_input
              (CommandProcessor.make (MatchingEngine.make Book.empty)))
    as (_ & _ & st & Hr & Hstuck & _ & Hc & _ & _ & Hcp).
  - reflexivity.
  - exists st. split; [exact Hr|]. split; [exact Hstuck|].
    split; [exact Hc | exact Hcp].
Defined.

(** ** The unit tests of the source

    [run_test_1] to [run_test_22] of [src/main.cpp], with their inputs and
    expected outputs, on the embedding. *)

(** Example 1 *)
Example run_test_1 :
  run_test "BUY GFD 1000 10 order1
PRINT
"
  = "SELL:
BUY:
1000 10
"%string.
Proof. vm_compute. reflexivity. Qed.

(** Example 2 *)
Example run_test_2 :
  run_test "BUY GFD 1000 10 order1
BUY GFD 1000 20 order2
PRINT
"
  = "SELL:
BUY:
1000 30
"%string.
Proof. vm_compute. reflexivity. Qed.

(** Example 3 *)
Example run_test_3 :
  run_test "BUY GFD 1000 10 order1
BUY GFD 1001 20 order2
PRINT
"
  = "SELL:
BUY:
1001 20
1000 10
"%string.
Proof. vm_compute. reflexivity. Qed.

(** Example 4 *)
Example run_test_4 :
  run_test "BUY GFD 1000 10 order1
SELL GFD 900 20 order2
PRINT
"
  = "TRADE order1 1000 10 order2 900 10
SELL:
900 10
BUY:
"%string.
Proof. vm_compute. reflexivity. Qed.

(** Example 5 *)
Example run_test_5 :
  run_test "BUY GFD 1000 10 order1
BUY GFD 1010 10 order2
SELL GFD 1000 15 order3
"
  = "TRADE order2 1010 10 order3 1000 10
TRADE order1 1000 5 order3 1000 5
"%string.
Proof. vm_compute. reflexivity. Qed.

(** Modify *)
Example run_test_6 :
  run_test "BUY GFD 1000 10 order1
BUY GFD 1000 10 order2
MODIFY order1 BUY 1000 20
SELL GFD 900 20 order3
"
  = "TRADE order2 1000 10 order3 900 10
TRADE order1 1000 10 order3 900 10
"%string.
Proof. vm_compute. reflexivity. Qed.

(** Multiple orders *)
Example run_test_7 :
  run_test "BUY GFD 1000 10 order1
BUY GFD 1000 15 order2
BUY GFD 900 20 order3
BUY GFD 800 15 order4
SELL GFD 1100 30 order5
SELL GFD 1200 50 order6
SELL GFD 1200 70 order7
SELL GFD 1300 60 order8
PRINT
BUY GFD 1200 160 order9
PRINT
"
  = "SELL:
1300 60
1200 120
1100 30
BUY:
1000 25
900 20
800 15
TRADE order5 1100 30 order9 1200 30
TRADE order6 1200 50 order9 1200 50
TRADE order7 1200 70 order9 1200 70
SELL:
1300 60
BUY:
1200 10
1000 25
900 20
800 15
"%string.
Proof. vm_compute. reflexivity. Qed.

(** Trade 1 2 orders at same price, full fill *)
Example run_test_8 :
  run_test "BUY GFD 1000 10 order1
BUY GFD 1000 10 order2
MODIFY order1 BUY 1000 20
SELL GFD 900 20 order3
BUY GFD 1000 10 order1
PRINT
BUY GFD 1000 10 order2
PRINT
SELL GFD 900 20 order3
PRINT
"
  = "TRADE order2 1000 10 order3 900 10
TRADE order1 1000 10 order3 900 10
SELL:
BUY:
1000 10
SELL:
BUY:
1000 20
TRADE order1 1000 10 order3 900 10
TRADE order2 1000 10 order3 900 10
SELL:
BUY:
"%string.
Proof. vm_compute. reflexivity. Qed.

(** Trade 2 2 orders at different prices, partial fill *)
Example run_test_9 :
  run_test "BUY GFD 1000 10 order1
BUY GFD 1010 10 order2
SELL GFD 1000 15 order3
PRINT
"
  = "TRADE order2 1010 10 order3 1000 10
TRADE order1 1000 5 order3 1000 5
SELL:
BUY:
1000 5
"%string.
Proof. vm_compute. reflexivity. Qed.

(** Self-match prevention test should fully fill order2 and cancel original order1 *)
Example run_test_10 :
  run_test "BUY GFD 1000 10 order1
BUY GFD 1000 10 order2
MODIFY order1 SELL 1000 10
PRINT
"
  = "TRADE order2 1000 10 order1 1000 10
SELL:
BUY:
"%string.
Proof. vm_compute. reflexivity. Qed.

(** Self-match prevention test should partially fill order2 and modify original order1 *)
Example run_test_11 :
  run_test "BUY GFD 1000 10 order1
BUY GFD 1000 5 order2
MODIFY order1 SELL 900 10
PRINT
"
  = "TRADE order2 1000 5 order1 900 5
SELL:
900 5
BUY:
"%string.
Proof. vm_compute. reflexivity. Qed.

(** IOC book is empty so no matching and orders are not added to book *)
Example run_test_12 :
  run_test "BUY IOC 1000 10 order1
SELL IOC 1000 10 order2
PRINT
"
  = "SELL:
BUY:
"%string.
Proof. vm_compute. reflexivity. Qed.

(** IOC full fill, no orders left *)
Example run_test_13 :
  run_test "BUY GFD 1000 10 order1
SELL IOC 1000 10 order2
PRINT
"
  = "TRADE order1 1000 10 order2 1000 10
SELL:
BUY:
"%string.
Proof. vm_compute. reflexivity. Qed.

(** IOC full fill, order left *)
Example run_test_14 :
  run_test "BUY GFD 1000 15 order1
SELL IOC 1000 10 order2
PRINT
"
  = "TRADE order1 1000 10 order2 1000 10
SELL:
BUY:
1000 5
"%string.
Proof. vm_compute. reflexivity. Qed.

(** IOC partial fill, non-IOC order is left *)
Example run_test_15 :
  run_test "BUY GFD 900 5 order1
BUY GFD 1000 5 order2
SELL IOC 1000 10 order3
PRINT
"
  = "TRADE order2 1000 5 order3 1000 5
SELL:
BUY:
900 5
"%string.
Proof. vm_compute. reflexivity. Qed.

(** IOC full fill over multiple orders, non-IOC order is left *)
Example run_test_16 :
  run_test "BUY GFD 900 5 order1
BUY GFD 1000 5 order2
BUY GFD 1100 5 order3
SELL IOC 1000 10 order4
PRINT
"
  = "TRADE order3 1100 5 order4 1000 5
TRADE order2 1000 5 order4 1000 5
SELL:
BUY:
900 5
"%string.
Proof. vm_compute. reflexivity. Qed.

(** Duplicate order id when adding *)
Example run_test_17 :
  run_test "BUY GFD 900 5 order1
BUY GFD 900 5 order1
PRINT
"
  = "SELL:
BUY:
900 5
"%string.
Proof. vm_compute. reflexivity. Qed.

(** Unknown order id when cancelling *)
Example run_test_18 :
  run_test "CANCEL unknown
PRINT
"
  = "SELL:
BUY:
"%string.
Proof. vm_compute. reflexivity. Qed.

(** Unknown order id when modifying *)
Example run_test_19 :
  run_test "MODIFY unknown BUY 1000 20
PRINT
"
  = "SELL:
BUY:
"%string.
Proof. vm_compute. reflexivity. Qed.

(** Invalid price and qty *)
Example run_test_20 :
  run_test "BUY GFD a 5 order1
BUY GFD 900 b order1
PRINT
"
  = ""%string.
Proof. vm_compute. reflexivity. Qed.

(** Trade 2 sell orders at same price, full fill *)
Example run_test_21 :
  run_test "SELL GFD 1000 10 order1
PRINT
SELL GFD 1000 10 order2
PRINT
BUY GFD 1100 20 order3
PRINT
"
  = "SELL:
1000 10
BUY:
SELL:
1000 20
BUY:
TRADE order1 1000 10 order3 1100 10
TRADE order2 1000 10 order3 1100 10
SELL:
BUY:
"%string.
Proof. vm_compute. reflexivity. Qed.

(** Modify queue position should partially fill order1 since back of the queue after modify *)
Example run_test_22 :
  run_test "BUY GFD 1000 10 order1
BUY GFD 1000 10 order2
MODIFY order1 BUY 1000 10
SELL GFD 1000 15 order3
PRINT
"
  = "TRADE order1 1000 10 order3 1000 10
TRADE order2 1000 5 order3 1000 5
SELL:
BUY:
1000 5
"%string.
Proof. vm_compute. reflexivity. Qed.
